(** * binstruct: a schema-driven binary struct codec

    A shallow embedding of [src/binstruct.js] and the properties of its
    schema engine: field registration and offsets, the text, block and
    64-bit codecs, [pack]/[unpack] and the record view.

    Conventions of the embedding.
    - A Buffer is a [list byte]; offsets and sizes are [Z], as the code
      computes them with ordinary arithmetic and they may go negative.
    - A JavaScript number is an integer, a fraction m / 2^e with m odd (the
      numbers that are not integers), one of the two infinities or NaN; the
      two zeros are not told apart.
    - A JavaScript string is modelled by the bytes of its UTF-8 encoding, so
      a [string] stands for a text without unpaired surrogates when it is
      well-formed UTF-8; [utf16_length] is its [length].
    - A function that throws returns [Throw e]; a function that mutates a
      Buffer, the schema or the module variable [BigNumber] is a state
      transformer that keeps the state it had reached when it threw.
    - The closures that the code stores in a field ([f.read], [f.write]) are
      represented by the constructor that made them and its captured size.
    - The operations are the functions of [StructDef.prototype] applied to a
      schema.  The getter and setter of a view are those of the field
      registered under the name.
    - [OutsideModel] marks an input that leaves the fragment described
      here; it is not an exception of the program.  Outside are: a size that
      is not an integer, a field whose name is a member of the schema object
      (other than [name]), of its prototype, of the view or of
      [Object.prototype], an override
      object with a key other than [name], [size], [value] and [int64mode],
      a negative bignumber written to a 64-bit field,
      a fraction written to an integer field, a text that is not a decimal
      literal where a number is expected, and the [targetObjectCtor]
      argument of [unpack]. *)

From Stdlib Require Import ZArith Lia List Ascii String.
From Stdlib.Strings Require Import Byte.
From stdpp Require Import base gmap strings list pretty.

Local Open Scope Z_scope.

(** ** Results and the state-and-exception monad *)

Inductive error :=
| ConfigurationError   (* 'Unsupported int64mode: ...', 'Unexpected argument ...' *)
| BoundsError          (* 'Field runs beyond the length of the buffer.' *)
| SizeMismatchError    (* 'Buffer used as ... field must be N bytes long!' *)
| OverflowError        (* '64-bit number too large for javascript number data type; ...' *)
| AssertionError       (* thrown by assert.equal / assert.fail *)
| RangeError           (* thrown by a Buffer primitive: offset or value out of range *)
| TypeError            (* thrown by the JavaScript runtime *)
| OutsideModel.

Inductive result (A : Type) :=
| Ok (a : A)
| Throw (e : error).
Arguments Ok {A} a.
Arguments Throw {A} e.

Definition M (S A : Type) : Type := S -> result A * S.

Definition ret {S A} (a : A) : M S A := fun s => (Ok a, s).
Definition throw {S A} (e : error) : M S A := fun s => (Throw e, s).
Definition bind {S A B} (m : M S A) (k : A -> M S B) : M S B :=
  fun s => match m s with
           | (Ok a, s') => k a s'
           | (Throw e, s') => (Throw e, s')
           end.
Definition get {S} : M S S := fun s => (Ok s, s).
Definition put {S} (s : S) : M S unit := fun _ => (Ok tt, s).
Definition lift {S A} (r : result A) : M S A := fun s => (r, s).

Declare Scope js_scope.
Delimit Scope js_scope with js.
Notation "x <- m ;; k" := (bind m (fun x => k))
  (at level 100, m at next level, right associativity) : js_scope.
Notation "m ;;; k" := (bind m (fun _ => k))
  (at level 100, right associativity) : js_scope.

(** [Array.prototype.forEach] with a callback that may throw. *)
Fixpoint forEach {S A} (l : list A) (cb : A -> M S unit) : M S unit :=
  match l with
  | [] => ret tt
  | x :: l' => bind (cb x) (fun _ => forEach l' cb)
  end.

(** ** JavaScript values *)

Module JS.

Inductive number :=
| Fin (z : Z)
| Frac (m : Z) (e : positive)      (* m / 2^e, with m odd *)
| PosInfinity
| NegInfinity
| NaN.

Inductive value :=
| VUndefined
| VNull
| VBool (b : bool)
| VNumber (n : number)
| VString (s : string)
| VBuffer (b : list byte)
| VBigNumber (z : Z).          (* an instance of bignumber.js, by its value *)

(** ToBoolean *)
Definition truthy (v : value) : bool :=
  match v with
  | VUndefined | VNull => false
  | VBool b => b
  | VNumber (Fin z) | VNumber (Frac z _) => negb (z =? 0)
  | VNumber NaN => false
  | VNumber _ => true
  | VString s => negb (String.eqb s "")
  | VBuffer _ | VBigNumber _ => true
  end.

(** [v || 0] *)
Definition or0 (v : value) : value :=
  if truthy v then v else VNumber (Fin 0).

(** ToInt32 on an integer. *)
Definition ToInt32 (z : Z) : Z :=
  let m := z mod 2 ^ 32 in
  if m <? 2 ^ 31 then m else m - 2 ^ 32.

(** The integer that the bit operators see in a number: a fraction is
    truncated, an infinity or NaN counts as 0. *)
Definition ToInteger (n : number) : Z :=
  match n with
  | Fin z => z
  | Frac m e => Z.quot m (2 ^ Z.pos e)
  | _ => 0
  end.

(** The operators [&], [|], [<<] and [>>]: both operands go through
    ToInt32 and the shift count is taken modulo 32. *)
Definition bitand (a b : Z) : Z := Z.land (ToInt32 a) (ToInt32 b).
Definition bitor (a b : Z) : Z := Z.lor (ToInt32 a) (ToInt32 b).
Definition shl (a n : Z) : Z := ToInt32 (Z.shiftl (ToInt32 a) (n mod 32)).
Definition sar (a n : Z) : Z := Z.shiftr (ToInt32 a) (n mod 32).

(** The UTF-16 code units of a character, counted at the first byte of its
    UTF-8 encoding: none for a continuation byte, two for a character
    outside the basic plane (four bytes), one otherwise. *)
Definition continuation (b : byte) : bool :=
  let n := Z.of_N (Byte.to_N b) in (128 <=? n) && (n <? 192).

Definition units (b : byte) : Z :=
  if continuation b then 0
  else if 240 <=? Z.of_N (Byte.to_N b) then 2 else 1.

(** [str.length] *)
Definition utf16_length (s : string) : Z :=
  fold_right (fun b n => units b + n) 0 (list_byte_of_string s).

End JS.
Export JS.

(** ** Bytes *)

Definition byte_val (b : byte) : Z := Z.of_N (Byte.to_N b).

Definition byte_of (z : Z) : byte :=
  match Byte.of_N (Z.to_N (z mod 256)) with
  | Some b => b
  | None => x00
  end.

(** Big-endian and little-endian value of a byte sequence. *)
Definition decode_be (bs : list byte) : Z :=
  fold_left (fun acc b => acc * 256 + byte_val b) bs 0.
Definition decode_le (bs : list byte) : Z := decode_be (rev bs).

(** The [n] low bytes of [z], least significant first. *)
Fixpoint encode_le (n : nat) (z : Z) : list byte :=
  match n with
  | O => []
  | S k => byte_of z :: encode_le k (z / 256)
  end.
Definition encode_be (n : nat) (z : Z) : list byte := rev (encode_le n z).

(** ** The byte-buffer primitive *)

(** Modelled from the spec: the byte-buffer primitive of section 6 (Node's
    [Buffer]), which is a collaborator outside [src/]: allocate(n) zero
    initialised, slice, get/set of a fixed-width integer or float at an
    offset in either byte order, UTF-8 decode/encode over a byte range, fill
    and copy.  Offsets are checked by the primitive itself, so [noAssert] has
    no effect on it; a write whose offset or value is out of range throws and
    leaves the buffer as it was.  A float is an IEEE 754 binary32, a double
    a binary64, written with rounding to nearest, ties to even.  The decoded
    text is exact for a byte range that holds UTF-8. *)
Module Buffer.

Definition t := list byte.

Definition len (b : t) : Z := Z.of_nat (length b).

(** The bytes of [b] in [start, end_), for [0 <= start]. *)
Definition sub (b : t) (start end_ : Z) : t :=
  take (Z.to_nat (end_ - start)) (drop (Z.to_nat start) b).

(** Overwrite the bytes of [b] from [off] on with [bs]; the caller has
    checked that they fit. *)
Definition splice (b : t) (off : Z) (bs : list byte) : t :=
  take (Z.to_nat off) b ++ bs ++ drop (Z.to_nat off + length bs) b.

(** [new Buffer(n)] *)
Definition alloc (n : Z) : result t :=
  if n <? 0 then Throw RangeError else Ok (repeat x00 (Z.to_nat n)).

(** [buf.slice(start, end)]: negative indices count from the end, both are
    clamped to the buffer. *)
Definition slice (b : t) (start end_ : Z) : t :=
  let rel i := if i <? 0 then Z.max (len b + i) 0 else Z.min i (len b) in
  sub b (rel start) (rel end_).

(** [buf.toString('utf8', start, end)] *)
Definition toString (b : t) (start end_ : Z) : string :=
  let s := Z.max start 0 in
  let e := Z.min end_ (len b) in
  if e <=? s then EmptyString else string_of_list_byte (sub b s e).

(** [buf.fill(0, start, end)] *)
Definition fill0 (start end_ : Z) : M t unit :=
  fun b =>
    if (start <? 0) || (end_ <? 0) || (len b <? end_) then (Throw RangeError, b)
    else if end_ <=? start then (Ok tt, b)
    else (Ok tt, splice b start (repeat x00 (Z.to_nat (end_ - start)))).

Fixpoint drop_while {A} (p : A -> bool) (l : list A) : list A :=
  match l with
  | [] => []
  | x :: l' => if p x then drop_while p l' else l
  end.

(** The longest prefix of [bs] of at most [n] bytes that ends between two
    characters. *)
Definition whole_chars (n : nat) (bs : list byte) : list byte :=
  match drop n bs with
  | b :: _ =>
      if continuation b
      then rev (drop 1 (drop_while continuation (rev (take n bs))))
      else take n bs
  | [] => take n bs
  end.

(** [buf.write(string, offset)]: writes as many characters of the text as
    fit between [offset] and the end of the buffer; a character that does
    not fit whole is not written. *)
Definition write (s : string) (offset : Z) : M t unit :=
  fun b =>
    if (offset <? 0) || (len b <? offset) then (Throw RangeError, b)
    else (Ok tt, splice b offset
                   (whole_chars (Z.to_nat (len b - offset)) (list_byte_of_string s))).

(** [source.copy(target, targetStart)]: copies as many bytes of the source
    as fit between [targetStart] and the end of the target. *)
Definition copy (source : t) (targetStart : Z) : M t unit :=
  fun target =>
    if targetStart <? 0 then (Throw RangeError, target)
    else if len target <=? targetStart then (Ok tt, target)
    else (Ok tt, splice target targetStart
                   (take (Z.to_nat (len target - targetStart)) source)).

(** ToNumber on the values of the embedding.  Of the strings only the empty
    one and plain decimal literals are interpreted. *)
Definition digit_of (a : ascii) : option Z :=
  let n := Z.of_N (N_of_ascii a) in
  if (48 <=? n) && (n <=? 57) then Some (n - 48) else None.

Fixpoint decimal (s : string) (acc : Z) : option Z :=
  match s with
  | EmptyString => Some acc
  | String a s' => match digit_of a with
                   | Some d => decimal s' (acc * 10 + d)
                   | None => None
                   end
  end.

Definition ToNumber (v : value) : option number :=
  match v with
  | VUndefined => Some NaN
  | VNull => Some (Fin 0)
  | VBool b => Some (Fin (if b then 1 else 0))
  | VNumber n => Some n
  | VString s => Fin <$> decimal s 0
  | VBuffer b => Fin <$> decimal (string_of_list_byte b) 0
  | VBigNumber z => Some (Fin z)
  end.

(** A fixed-width integer accessor: [readUInt8], [readInt16LE],
    [writeUInt32BE], ... *)
Record prim := Prim { p_bytes : nat; p_signed : bool; p_le : bool }.

Definition width (p : prim) : Z := Z.of_nat (p_bytes p).
Definition p_min (p : prim) : Z :=
  if p_signed p then - 2 ^ (8 * width p - 1) else 0.
Definition p_max (p : prim) : Z :=
  if p_signed p then 2 ^ (8 * width p - 1) - 1 else 2 ^ (8 * width p) - 1.

Definition read (p : prim) (b : t) (offset : Z) : result Z :=
  if (offset <? 0) || (len b <? offset + width p) then Throw RangeError
  else
    let bs := sub b offset (offset + width p) in
    let u := if p_le p then decode_le bs else decode_be bs in
    Ok (if p_signed p && (2 ^ (8 * width p - 1) <=? u)
        then u - 2 ^ (8 * width p) else u).

Definition store (p : prim) (z : Z) (offset : Z) : M t unit :=
  fun b =>
    if (offset <? 0) || (len b <? offset + width p) then (Throw RangeError, b)
    else (Ok tt, splice b offset
                   (if p_le p then encode_le (p_bytes p) z
                    else encode_be (p_bytes p) z)).

Definition write_int (p : prim) (v : value) (offset : Z) : M t unit :=
  match ToNumber v with
  | None => throw OutsideModel
  | Some NaN => store p 0 offset
  | Some (Fin z) =>
      if (z <? p_min p) || (p_max p <? z) then throw RangeError
      else store p z offset
  | Some (Frac _ _) => throw OutsideModel
  | Some _ => throw RangeError
  end.

Definition UInt32 (le : bool) : prim := Prim 4 false le.

(** The float accessors: [readFloatBE], [writeDoubleLE], ...  A format has
    a sign bit, [exponent_bits] bits of biased exponent and [fraction_bits]
    bits of fraction. *)
Definition fraction_bits (double : bool) : Z := if double then 52 else 23.
Definition exponent_bits (double : bool) : Z := if double then 11 else 8.
Definition bias (double : bool) : Z := 2 ^ (exponent_bits double - 1) - 1.
Definition float_bytes (double : bool) : nat := if double then 8%nat else 4%nat.

(** [a / 2^s] rounded to the nearest integer, ties to even. *)
Definition round_half_even (a s : Z) : Z :=
  let q := a / 2 ^ s in
  let r := a mod 2 ^ s in
  if 2 * r <? 2 ^ s then q
  else if 2 ^ s <? 2 * r then q + 1
  else if Z.even q then q else q + 1.

(** The exponent and fraction fields of the magnitude [a * 2^k], [0 <= a]:
    with [ex] the exponent of the leading bit, or the least exponent for a
    subnormal number, the significand is [a * 2^k / 2^(ex - fraction_bits)]
    rounded; its leading bit carries into the exponent field. *)
Definition magnitude_bits (double : bool) (a k : Z) : Z :=
  if a =? 0 then 0
  else
    let ex := Z.max (Z.log2 a + k) (1 - bias double) in
    let q := ex - fraction_bits double in
    let significand := if q <=? k then a * 2 ^ (k - q)
                       else round_half_even a (q - k) in
    (ex - (1 - bias double)) * 2 ^ fraction_bits double + significand.

(** The bit pattern of [m * 2^k]. *)
Definition float_bits (double : bool) (m k : Z) : Z :=
  magnitude_bits double (Z.abs m) k
  + (if m <? 0 then 2 ^ (fraction_bits double + exponent_bits double) else 0).

(** [a * 2^k] exceeds the largest finite number of the format,
    [(2^(fraction_bits+1) - 1) * 2^(bias - fraction_bits)]. *)
Definition too_large (double : bool) (a k : Z) : bool :=
  let top := 2 ^ (fraction_bits double + 1) - 1 in
  let j := bias double - fraction_bits double in
  if 0 <=? k then top * 2 ^ j <? a * 2 ^ k
  else top * 2 ^ (j - k) <? a.

(** The number [m / 2^e] in lowest terms. *)
Fixpoint lowest (m : Z) (e : nat) : number :=
  match e with
  | O => Fin m
  | S e' => if Z.even m then lowest (m / 2) e' else Frac m (Pos.of_nat e)
  end.

(** The number [m * 2^k]. *)
Definition dyadic (m k : Z) : number :=
  if 0 <=? k then Fin (m * 2 ^ k) else lowest m (Z.to_nat (- k)).

(** The number of a bit pattern. *)
Definition float_value (double : bool) (bits : Z) : number :=
  let fraction := bits mod 2 ^ fraction_bits double in
  let exponent := (bits / 2 ^ fraction_bits double) mod 2 ^ exponent_bits double in
  let negative := 2 ^ (fraction_bits double + exponent_bits double) <=? bits in
  if exponent =? 2 ^ exponent_bits double - 1 then
    if fraction =? 0 then (if negative then NegInfinity else PosInfinity)
    else NaN
  else
    let significand := if exponent =? 0 then fraction
                       else 2 ^ fraction_bits double + fraction in
    let q := (if exponent =? 0 then 1 else exponent)
             - bias double - fraction_bits double in
    dyadic (if negative then - significand else significand) q.

Definition float_prim (double le : bool) : prim := Prim (float_bytes double) false le.

Definition read_float (double le : bool) (b : t) (offset : Z) : result number :=
  match read (float_prim double le) b offset with
  | Ok bits => Ok (float_value double bits)
  | Throw e => Throw e
  end.

Definition write_float (double le : bool) (v : value) (offset : Z) : M t unit :=
  let finite (m k : Z) : M t unit :=
    if too_large double (Z.abs m) k then throw RangeError
    else store (float_prim double le) (float_bits double m k) offset in
  match ToNumber v with
  | None => throw OutsideModel
  | Some NaN =>
      (* a quiet NaN: the exponent field all ones, the first fraction bit set *)
      store (float_prim double le)
            ((2 ^ (exponent_bits double + 1) - 1) * 2 ^ (fraction_bits double - 1))
            offset
  | Some (Fin z) => finite z 0
  | Some (Frac m e) => finite m (- Z.pos e)
  | Some _ => throw RangeError
  end.

End Buffer.

(** ** 64-bit handling modes *)

(** The keys of [int64modes]; [other] stands for any other string. *)
Inductive int64mode :=
| strict | lossy | copy | slice | int64 | skip
| other (s : string).

(** The property names that every object inherits from [Object.prototype]. *)
Definition inherited : list string :=
  ["constructor"; "toString"; "toLocaleString"; "valueOf"; "hasOwnProperty";
   "isPrototypeOf"; "propertyIsEnumerable"; "__proto__";
   "__defineGetter__"; "__defineSetter__"; "__lookupGetter__";
   "__lookupSetter__"]%string.

(** [int64mode in int64modes]: true of the six keys and of the names that
    the object [int64modes] inherits. *)
Definition in_int64modes (mode : int64mode) : bool :=
  match mode with
  | other s => existsb (String.eqb s) inherited
  | _ => true
  end.

(** The module variable [BigNumber]: [true] once bignumber.js is loaded.
    [validateInt64Mode] returns its new state. *)
Definition validateInt64Mode (mode : int64mode) : M bool unit :=
  if in_int64modes mode then
    match mode with
    | int64 => put true
    | _ => ret tt
    end
  else throw ConfigurationError.

(** ToBoolean of a mode: of the strings only the empty one is falsy. *)
Definition mode_truthy (mode : int64mode) : bool :=
  match mode with
  | other EmptyString => false
  | _ => true
  end.

(** [field.int64mode || def.int64mode || int64modes.strict] *)
Definition select_mode (field_mode def_mode : option int64mode) : int64mode :=
  let or_else (m : option int64mode) (alt : int64mode) :=
    match m with
    | Some m => if mode_truthy m then m else alt
    | None => alt
    end in
  or_else field_mode (or_else def_mode strict).

(** [createInt64Reader(signed, littleEndian)] applied to the Buffer [this];
    the state is the module variable [BigNumber]. *)
Definition readInt64AsNumber (signed littleEndian : bool) (this : Buffer.t)
    (offset : Z) (noAssert : bool) (def_mode field_mode : option int64mode)
  : M bool value :=
  if negb noAssert && (Buffer.len this <? offset + 8)
  then throw BoundsError
  else
    let mode := select_mode field_mode def_mode in
    (validateInt64Mode mode ;;;
     match mode with
     | int64 | lossy | strict =>
         hi <- lift (Buffer.read (Buffer.UInt32 littleEndian) this
                       (if littleEndian then offset + 4 else offset + 0)) ;;
         lo <- lift (Buffer.read (Buffer.UInt32 littleEndian) this
                       (if littleEndian then offset + 0 else offset + 4)) ;;
         match mode with
         | int64 => ret (VBigNumber (lo + hi * 4294967296))
         | _ =>
             let lostBits := bitand hi 4293918720 (* 0xFFF00000 *) in
             if negb (lostBits =? 0)
                && (negb signed || negb (lostBits =? 4293918720))
             then
               match mode with
               | strict => throw OverflowError
               | _ =>
                   if negb signed || (bitand hi 2147483648 =? 0)
                   then ret (VNumber PosInfinity)
                   else ret (VNumber NegInfinity)
               end
             else
               ret (VNumber (Fin (bitor (shl (bitand hi 2097151) 32)
                                        (bitand lo 4294967295))))
         end
     | slice => ret (VBuffer (Buffer.slice this offset (offset + 8)))
     | copy =>
         if (offset <? 0) || (Buffer.len this <? offset) then throw RangeError
         else ret (VBuffer (take 8 (Buffer.sub this offset (offset + 8)
                                    ++ repeat x00 8)))
     | _ => ret VUndefined
     end)%js.

(** [createInt64Writer(signed, littleEndian)] applied to the Buffer in the
    state; [BigNumber] is the module variable.  [val instanceof BigNumber]
    throws a TypeError while the module variable is still [null]. *)
Definition writeInt64 (signed littleEndian : bool) (BigNumber : bool)
    (val : value) (offset : Z) (noAssert : bool) : M Buffer.t unit :=
  let writeHiLo (hi lo : Z) : M Buffer.t unit :=
    (if littleEndian
     then Buffer.write_int (Buffer.UInt32 true) (VNumber (Fin hi)) (offset + 4) ;;;
          Buffer.write_int (Buffer.UInt32 true) (VNumber (Fin lo)) (offset + 0)
     else Buffer.write_int (Buffer.UInt32 false) (VNumber (Fin hi)) (offset + 0) ;;;
          Buffer.write_int (Buffer.UInt32 false) (VNumber (Fin lo)) (offset + 4))%js in
  match val with
  | VBigNumber z =>
      if BigNumber then
        (* the last 64 binary digits of the value, split in two halves *)
        if z <? 0 then throw OutsideModel
        else writeHiLo ((z mod 2 ^ 64) / 2 ^ 32) (z mod 2 ^ 32)
      else ret tt
  | VNumber n =>
      if BigNumber then
        let v := ToInteger n in
        writeHiLo (sar v 32) (bitand v 4294967295)
      else throw TypeError
  | VBuffer b =>
      if negb (Buffer.len b =? 8) then throw SizeMismatchError
      else Buffer.copy b offset
  | _ => ret tt
  end.

(** [createBufferReader(size)] and [createStringReader(size)] *)
Definition readbuffer (size : Z) (this : Buffer.t) (offset : Z) (noAssert : bool)
  : result value :=
  if negb noAssert && (Buffer.len this <? offset + size) then Throw BoundsError
  else Ok (VBuffer (Buffer.slice this offset (offset + size))).

Definition readString (size : Z) (this : Buffer.t) (offset : Z) (noAssert : bool)
  : result value :=
  if negb noAssert && (Buffer.len this <? offset + size) then Throw BoundsError
  else Ok (VString (Buffer.toString this offset (offset + size))).

(** [createBufferWriter(size)] and [createStringWriter(size)] *)
Definition writebuffer (size : Z) (val : value) (offset : Z) (noAssert : bool)
  : M Buffer.t unit :=
  match val with
  | VBuffer b =>
      if negb (Buffer.len b =? size) then throw SizeMismatchError
      else Buffer.copy b offset
  | _ => ret tt
  end.

Definition writeString (size : Z) (val : value) (offset : Z) (noAssert : bool)
  : M Buffer.t unit :=
  match val with
  | VString s =>
      (Buffer.fill0 offset (offset + size) ;;; Buffer.write s offset)%js
  | VBuffer b =>
      if negb (Buffer.len b =? size) then throw SizeMismatchError
      else Buffer.copy b offset
  | _ => ret tt
  end.

(** The codec functions stored in a field, by the closure that made them. *)
Inductive reader :=
| PrimReader (p : Buffer.prim)           (* Buffer.prototype['read'+T] *)
| FloatReader (double littleEndian : bool)
| Int64Reader (signed littleEndian : bool)
| StringReader (size : Z)
| BufferReader (size : Z).

Inductive writer :=
| PrimWriter (p : Buffer.prim)           (* Buffer.prototype['write'+T] *)
| FloatWriter (double littleEndian : bool)
| Int64Writer (signed littleEndian : bool)
| StringWriter (size : Z)
| BufferWriter (size : Z).

(** [f.read.apply(this, [offset, noAssert, def, field])] *)
Definition apply_reader (r : reader) (this : Buffer.t) (offset : Z)
    (noAssert : bool) (def_mode field_mode : option int64mode) : M bool value :=
  match r with
  | PrimReader p =>
      lift (match Buffer.read p this offset with
            | Ok z => Ok (VNumber (Fin z))
            | Throw e => Throw e
            end)
  | FloatReader double le =>
      lift (match Buffer.read_float double le this offset with
            | Ok n => Ok (VNumber n)
            | Throw e => Throw e
            end)
  | Int64Reader signed le =>
      readInt64AsNumber signed le this offset noAssert def_mode field_mode
  | StringReader size => lift (readString size this offset noAssert)
  | BufferReader size => lift (readbuffer size this offset noAssert)
  end.

(** [f.write.apply(this, [value, offset, noAssert])] *)
Definition apply_writer (w : writer) (BigNumber : bool) (val : value)
    (offset : Z) (noAssert : bool) : M Buffer.t unit :=
  match w with
  | PrimWriter p => Buffer.write_int p val offset
  | FloatWriter double le => Buffer.write_float double le val offset
  | Int64Writer signed le => writeInt64 signed le BigNumber val offset noAssert
  | StringWriter size => writeString size val offset noAssert
  | BufferWriter size => writebuffer size val offset noAssert
  end.

(** ** Field specifications and the schema *)

(** A field is named by a string, or by its position when it is a filler. *)
Inductive fname :=
| Named (s : string)
| Positional (n : nat).

(** The property key a name is used under. *)
Definition key (n : fname) : string :=
  match n with
  | Named s => s
  | Positional n => pretty n
  end.

Definition fname_eqb (a b : fname) : bool :=
  match a, b with
  | Named s, Named s' => String.eqb s s'
  | Positional n, Positional n' => Nat.eqb n n'
  | _, _ => false
  end.

Inductive ftype :=
| TNumber (bytes : nat) (signed littleEndian : bool)
| TFloat (double littleEndian : bool)
| TString
| TBuffer.

Record field := Field {
  f_type : ftype;
  f_name : fname;
  f_size : Z;
  f_offset : Z;
  f_read : option reader;
  f_write : option writer;
  f_value : option value;             (* ['value' in f] and [f.value] *)
  f_sizeFieldName : option string;
  f_int64mode : option int64mode
}.

Record StructDef := Def {
  name : value;                       (* [opts.name]; the code reads it nowhere *)
  fields : list field;
  staticSized : bool;
  size : Z;
  littleEndian : bool;
  noAssert : bool;
  def_int64mode : int64mode;
  (* the accessors installed on [Wrapper.prototype]: key and [configurable] *)
  accessors : list (string * bool)
}.

(** The module variable [BigNumber] together with the schema at hand. *)
Record world := World { BigNumber : bool; def : StructDef }.

Definition onBigNumber {A} (m : M bool A) : M world A :=
  fun w => match m (BigNumber w) with
           | (r, b) => (r, World b (def w))
           end.

Definition modify_def (g : StructDef -> StructDef) : M world unit :=
  fun w => (Ok tt, World (BigNumber w) (g (def w))).

Record options := Options {
  opt_name : value;
  opt_littleEndian : bool;
  opt_noAssert : bool;
  opt_int64mode : option int64mode
}.

(** [exports.def(opts)] *)
Definition createNewStructDef (opts : option options) : M bool StructDef :=
  let mk o m := Def (opt_name o) [] true 0 (opt_littleEndian o) (opt_noAssert o) m
                    [("_def"%string, false); ("_fields"%string, false)] in
  match opts with
  | None => ret (mk (Options VUndefined false false None) strict)
  | Some o =>
      match opt_int64mode o with
      | Some m => (validateInt64Mode m ;;; ret (mk o m))%js
      | None => ret (mk o strict)
      end
  end.

(** The methods of [StructDef.prototype]: [field], [checkSize], [wrap],
    [unpack]/[read], [pack]/[write] and the definers. *)
Definition methods : list string :=
  ["field"; "checkSize"; "wrap"; "unpack"; "read"; "pack"; "write";
   "uint8"; "int8"; "byte";
   "uint16be"; "int16be"; "uint16le"; "int16le"; "uint16"; "int16";
   "uint32be"; "int32be"; "uint32le"; "int32le"; "uint32"; "int32";
   "uint64be"; "int64be"; "uint64le"; "int64le"; "uint64"; "int64";
   "floatbe"; "floatle"; "float"; "doublebe"; "doublele"; "double";
   "string"; "buffer"]%string.

(** Names of members of the schema object, of its prototype, of the view
    and of [Object.prototype]: [field] installs a field as an own property
    of the schema and as an accessor of the view, where it would shadow
    them.  A field of such a name is outside the embedding.  The one member
    left out is [name]: a field called [name] takes the place of [opts.name]
    on the schema object, which nothing reads, so that [name] below stands
    for [opts.name] as given. *)
Definition reserved : list string :=
  (["fields"; "staticSized"; "size"; "littleEndian"; "noAssert"; "int64mode";
    "Wrapper"; "checkValues"; "writeValues"; "_buffer"]%string
   ++ methods ++ inherited)%list.

Fixpoint assoc {A} (k : string) (l : list (string * A)) : option A :=
  match l with
  | [] => None
  | (k', a) :: l' => if String.eqb k k' then Some a else assoc k l'
  end.

Fixpoint assoc_set {A} (k : string) (a : A) (l : list (string * A))
  : list (string * A) :=
  match l with
  | [] => [(k, a)]
  | (k', a') :: l' =>
      if String.eqb k k' then (k, a) :: l' else (k', a') :: assoc_set k a l'
  end.

(** [this.fields.find(function(field) { return field.name === n; })] *)
Definition find_field (n : fname) (fs : list field) : option field :=
  List.find (fun g => fname_eqb (f_name g) n) fs.

Definition configurable (f : field) : bool :=
  match f_sizeFieldName f with Some _ => true | None => false end.

Definition with_offset (o : Z) (f : field) : field :=
  Field (f_type f) (f_name f) (f_size f) o (f_read f) (f_write f)
        (f_value f) (f_sizeFieldName f) (f_int64mode f).

(** Lines 84-90 of [field]: unless the name is taken, [f] gets the current
    size as its offset, the size grows by [f.size] and [f] is pushed. *)
Definition register (f : field) (d : StructDef) : StructDef :=
  match find_field (f_name f) (fields d) with
  | None =>
      Def (name d) (fields d ++ [with_offset (size d) f]) (staticSized d)
          (size d + f_size f) (littleEndian d) (noAssert d) (def_int64mode d)
          (accessors d)
  | Some _ => d
  end.

(** Lines 92-110 of [field]: [Object.defineProperty] of the accessor under
    key [k]; a property that is not configurable cannot be redefined. *)
Definition defineProperty (k : string) (c : bool) (d : StructDef)
  : result StructDef :=
  match assoc k (accessors d) with
  | Some false => Throw TypeError
  | _ => Ok (Def (name d) (fields d) (staticSized d) (size d) (littleEndian d)
                 (noAssert d) (def_int64mode d) (assoc_set k c (accessors d)))
  end.

(** [StructDef.prototype.field = function defineField(f)] *)
Definition defineField (f : field) : M world unit :=
  fun w =>
    if existsb (String.eqb (key (f_name f))) reserved then (Throw OutsideModel, w)
    else
      let d := register f (def w) in
      match defineProperty (key (f_name f)) (configurable f) d with
      | Ok d' => (Ok tt, World (BigNumber w) d')
      | Throw e => (Throw e, World (BigNumber w) d)
      end.

(** ** The definers *)

(** An override object: the keys [name], [size], [value] and [int64mode]
    with their values, and the names of the other keys it has
    ([sizeFieldName], [offset], [type], [read], [write], ...).  The definers
    copy every key into the field; an object with other keys is outside the
    embedding. *)
Record overrides := Overrides {
  o_name : option fname;
  o_size : option Z;
  o_value : option value;
  o_int64mode : option int64mode;
  o_others : list string
}.

Inductive arg :=
| AValue (v : value)
| AObject (o : overrides).

(** [for (var p in o) f[p] = o[p]] *)
Definition apply_overrides (o : overrides) (f : field) : result field :=
  match o_others o with
  | [] =>
      Ok (Field (f_type f)
            (match o_name o with Some n => n | None => f_name f end)
            (match o_size o with Some z => z | None => f_size f end)
            (f_offset f) (f_read f) (f_write f)
            (match o_value o with Some v => Some v | None => f_value f end)
            (f_sizeFieldName f)
            (match o_int64mode o with Some m => Some m | None => f_int64mode f end))
  | _ :: _ => Throw OutsideModel
  end.

Definition with_name (n : fname) (f : field) : field :=
  Field (f_type f) n (f_size f) (f_offset f) (f_read f) (f_write f)
        (f_value f) (f_sizeFieldName f) (f_int64mode f).
Definition with_value (v : value) (f : field) : field :=
  Field (f_type f) (f_name f) (f_size f) (f_offset f) (f_read f) (f_write f)
        (Some v) (f_sizeFieldName f) (f_int64mode f).
Definition with_size (z : Z) (f : field) : field :=
  Field (f_type f) (f_name f) z (f_offset f) (f_read f) (f_write f)
        (f_value f) (f_sizeFieldName f) (f_int64mode f).
Definition with_codec (r : reader) (w : writer) (f : field) : field :=
  Field (f_type f) (f_name f) (f_size f) (f_offset f) (Some r) (Some w)
        (f_value f) (f_sizeFieldName f) (f_int64mode f).
Definition with_sizeFieldName (s : string) (f : field) : field :=
  Field (f_type f) (f_name f) (f_size f) (f_offset f) (f_read f) (f_write f)
        (f_value f) (Some s) (f_int64mode f).

Inductive bits := B8 | B16 | B32 | B64.

Definition bytes_of (b : bits) : nat :=
  match b with B8 => 1 | B16 => 2 | B32 => 4 | B64 => 8 end%nat.

(** One pass of the argument loop of [defineIntField]. *)
Definition int_arg (a : arg) (f : field) : result field :=
  match a with
  | AObject o => apply_overrides o f
  | AValue v =>
      if negb (truthy v) then Ok f
      else match v with
           | VBuffer _ | VNumber _ => Ok (with_value v f)
           | VString s => Ok (with_name (Named s) f)
           | VBigNumber _ => Ok f
           | _ => Throw ConfigurationError
           end
  end.

Fixpoint int_args (l : list arg) (f : field) : result field :=
  match l with
  | [] => Ok f
  | a :: l' => match int_arg a f with
               | Ok f' => int_args l' f'
               | Throw e => Throw e
               end
  end.

(** [defNumberType(upperCaseTypeName, size, reader, writer)]: the definer
    [defineIntField] that it installs, with the type, the size and the codec
    that the definer captures. *)
Definition defineIntField (type : ftype) (size : Z) (readImpl : reader)
    (writeImpl : writer) (args : list arg) : M world unit :=
  (w <- get ;;
   let f := Field type (Positional (length (fields (def w)))) size 0
                  (Some readImpl) (Some writeImpl) None None None in
   f <- lift (int_args args f) ;;
   defineField f)%js.

(** The definers of lines 410-432: the integer type of [b] bits, signedness
    [signed] and byte order [le] (single bytes have no byte order); the
    64-bit types have codecs of their own. *)
Definition intDefiner (b : bits) (signed le : bool) : list arg -> M world unit :=
  let le := match b with B8 => false | _ => le end in
  let p := Buffer.Prim (bytes_of b) signed le in
  defineIntField (TNumber (bytes_of b) signed le) (Z.of_nat (bytes_of b))
    (match b with
     | B64 => Int64Reader signed le
     | _ => PrimReader p
     end)
    (match b with
     | B64 => Int64Writer signed le
     | _ => PrimWriter p
     end).

(** The definers of lines 434-445: float and double. *)
Definition floatDefiner (double le : bool) : list arg -> M world unit :=
  defineIntField (TFloat double le) (Z.of_nat (Buffer.float_bytes double))
    (FloatReader double le) (FloatWriter double le).

(** [defNumberTypeDefaultEndian]: the definer without the le/be suffix, given
    the definers of the two byte orders. *)
Definition defineIntFieldDefaultEndian (definer : bool -> list arg -> M world unit)
    (args : list arg) : M world unit :=
  (w <- get ;; definer (littleEndian (def w)) args)%js.

(** [defStringType]: [def.string(name, arg)] *)
Definition defineStringField (n : fname) (a : arg) : M world unit :=
  (w <- get ;;
   let f := Field TString n 0 0 None None None None None in
   let fixed f := with_codec (StringReader (f_size f)) (StringWriter (f_size f)) f in
   match a with
   | AValue (VBuffer b) =>
       defineField (fixed (with_size (Buffer.len b) (with_value (VBuffer b) f)))
   | AValue (VString s) =>
       match find_field (Named s) (fields (def w)) with
       | None =>
           (* the text is the default of the field *)
           defineField (fixed (with_size (utf16_length s)
                            (with_value (VBuffer (list_byte_of_string s)) f)))
       | Some _ =>
           modify_def (fun d =>
             Def (name d) (fields d) false (size d) (littleEndian d)
                 (noAssert d) (def_int64mode d) (accessors d)) ;;;
           defineField (with_sizeFieldName s f)
       end
   | AValue (VNumber (Fin z)) => defineField (fixed (with_size z f))
   | AValue (VNumber _) => throw OutsideModel
   | AObject o => f <- lift (apply_overrides o f) ;; defineField (fixed f)
   | AValue VNull | AValue (VBigNumber _) => defineField (fixed f)
   | AValue _ => throw ConfigurationError
   end)%js.

(** [defBufferType]: [def.buffer(name, arg)] *)
Definition defineBufferField (n : fname) (a : arg) : M world unit :=
  let f := Field TBuffer n 0 0 None None None None None in
  let fixed f := with_codec (BufferReader (f_size f)) (BufferWriter (f_size f)) f in
  match a with
  | AValue (VBuffer b) =>
      defineField (fixed (with_size (Buffer.len b) (with_value (VBuffer b) f)))
  | AValue (VNumber (Fin z)) => defineField (fixed (with_size z f))
  | AValue (VNumber _) => throw OutsideModel
  | AObject o => (f <- lift (apply_overrides o f) ;; defineField (fixed f))%js
  | AValue VNull | AValue (VBigNumber _) => defineField (fixed f)
  | AValue _ => throw ConfigurationError
  end.

(** A schema declaration is a chain of definer calls; [endian] is [Some true]
    for the le definer, [Some false] for the be definer and [None] for the
    definer of the schema's default byte order. *)
Inductive decl :=
| DNumber (b : bits) (signed : bool) (endian : option bool) (args : list arg)
| DFloat (double : bool) (endian : option bool) (args : list arg)
| DString (n : fname) (a : arg)
| DBuffer (n : fname) (a : arg).

Definition declare (d : decl) : M world unit :=
  match d with
  | DNumber b signed (Some le) args => intDefiner b signed le args
  | DNumber b signed None args =>
      defineIntFieldDefaultEndian (intDefiner b signed) args
  | DFloat double (Some le) args => floatDefiner double le args
  | DFloat double None args =>
      defineIntFieldDefaultEndian (floatDefiner double) args
  | DString n a => defineStringField n a
  | DBuffer n a => defineBufferField n a
  end.

(** [binstruct.def(opts).<definer>(...). ... ] in a module whose variable
    [BigNumber] is in state [bn]. *)
Definition build (bn : bool) (opts : option options) (ds : list decl)
  : result world :=
  match createNewStructDef opts bn with
  | (Ok d, bn') =>
      match forEach ds declare (World bn' d) with
      | (Ok _, w) => Ok w
      | (Throw e, _) => Throw e
      end
  | (Throw e, _) => Throw e
  end.

(** [StructDef.prototype.checkSize] *)
Definition checkSize (expectedSize : Z) (d : StructDef) : result unit :=
  if negb (expectedSize =? size d) then Throw AssertionError else Ok tt.

(** ** unpack and pack *)

Definition set_field (i : nat) (f : field) (d : StructDef) : StructDef :=
  Def (name d) (<[i := f]> (fields d)) (staticSized d) (size d)
      (littleEndian d) (noAssert d) (def_int64mode d) (accessors d).

Definition add_size (z : Z) (d : StructDef) : StructDef :=
  Def (name d) (fields d) (staticSized d) (size d + z)
      (littleEndian d) (noAssert d) (def_int64mode d) (accessors d).

(** The resolve step shared by [unpack] and [pack] for the deferred field
    [f], registered at index [i], and its size [z]:
    [this.size += z - f.size; f.size = z; f.read = ...; f.write = ...;
     this.field(f)].  The field object is shared with [this.fields]. *)
Definition resolve (i : nat) (f : field) (z : Z) : M world field :=
  let f' := with_codec (StringReader z) (StringWriter z) (with_size z f) in
  (modify_def (fun d => set_field i f' (add_size (z - f_size f) d)) ;;;
   defineField f' ;;;
   ret f')%js.

Abbreviation record := (gmap string value).

(** The callback [readField] of [unpack], for the field at index [i];
    [data] is the record built so far. *)
Definition readField (buf : Buffer.t) (offset : Z) (noAssert_ : bool)
    (data : record) (i : nat) (f : field) : M world record :=
  (f <- match f_sizeFieldName f with
        | Some s =>
            if String.eqb s "" then ret f
            else match data !! s with
                 | Some (VNumber (Fin z)) => resolve i f z
                 | _ => throw OutsideModel
                 end
        | None => ret f
        end ;;
   match f_read f with
   | Some readImpl =>
       w <- get ;;
       fieldValue <- onBigNumber
                       (apply_reader readImpl buf (offset + f_offset f) noAssert_
                          (Some (def_int64mode (def w))) (f_int64mode f)) ;;
       match f_name f with
       | Named s => ret (<[s := fieldValue]> data)
       | Positional _ => ret data
       end
   | None => ret data
   end)%js.

Fixpoint readFields (buf : Buffer.t) (offset : Z) (noAssert_ : bool)
    (data : record) (i : nat) (fs : list field) : M world record :=
  match fs with
  | [] => ret data
  | f :: fs' =>
      bind (readField buf offset noAssert_ data i f)
           (fun data' => readFields buf offset noAssert_ data' (S i) fs')
  end.

(** [StructDef.prototype.unpack(buf, null, offset, noAssert)] *)
Definition unpack (buf : Buffer.t) (offset : option Z) (noAssert_ : option bool)
  : M world record :=
  (w <- get ;;
   let noAssert_ := match noAssert_ with Some b => b | None => noAssert (def w) end in
   let offset := match offset with Some z => z | None => 0 end in
   readFields buf offset noAssert_ ∅ 0 (fields (def w)))%js.

(** [(name in data ? data[name] : f.value) || 0] *)
Definition field_value (data : record) (f : field) : value :=
  or0 (match data !! key (f_name f) with
       | Some v => v
       | None => match f_value f with Some v => v | None => VUndefined end
       end).

(** [this.fields.find(function(field) { return field.sizeFieldName != undefined; })],
    with the index at which the field is registered. *)
Fixpoint find_deferred (i : nat) (l : list field) : option (nat * field * string) :=
  match l with
  | [] => None
  | f :: l' =>
      match f_sizeFieldName f with
      | Some s => Some (i, f, s)
      | None => find_deferred (S i) l'
      end
  end.

(** Lines 514-531 of [pack]: resolve the deferred field from [data]. *)
Definition resolveForPack (data : record) : M world unit :=
  (w <- get ;;
   if staticSized (def w) then ret tt
   else
     match find_deferred 0%nat (fields (def w)) with
     | None => throw TypeError          (* variableSizedField is undefined *)
     | Some (i, variableSizedField, s) =>
         match find_field (Named s) (fields (def w)) with
         | None => throw TypeError
         | Some sizeIndicatorField =>
             match field_value data sizeIndicatorField with
             | VNumber (Fin z) => resolve i variableSizedField z ;;; ret tt
             | _ => throw OutsideModel
             end
         end
     end)%js.

(** The callback [writeField] of [pack]. *)
Definition writeField (data : record) (BigNumber : bool) (offset : Z)
    (noAssert_ : bool) (f : field) : M Buffer.t unit :=
  match f_write f with
  | Some writeImpl =>
      apply_writer writeImpl BigNumber (field_value data f)
        (offset + f_offset f) noAssert_
  | None => ret tt
  end.

(** [StructDef.prototype.pack(data, buf, offset, noAssert)].  The state that
    is returned holds the schema and the destination buffer as the call left
    them, also when it threw. *)
Definition pack (data : option record) (buf : option Buffer.t)
    (offset : option Z) (noAssert_ : option bool) (w : world)
  : result Buffer.t * (world * option Buffer.t) :=
  let data := match data with Some d => d | None => ∅ end in
  match resolveForPack data w with
  | (Throw e, w') => (Throw e, (w', buf))
  | (Ok _, w') =>
      let noAssert_ := match noAssert_ with Some b => b | None => noAssert (def w') end in
      let offset := match offset with Some z => z | None => 0 end in
      match (match buf with
             | Some b => Ok b
             | None => Buffer.alloc (size (def w') + offset)
             end) with
      | Throw e => (Throw e, (w', buf))
      | Ok b =>
          match forEach (fields (def w'))
                  (writeField data (BigNumber w') offset noAssert_) b with
          | (Ok _, b') => (Ok b', (w', Some b'))
          | (Throw e, b') => (Throw e, (w', Some b'))
          end
      end
  end.

(** ** The record view *)

(** [def.wrap(buf)] *)
Record BufferWrapper := Wrapper { _def : StructDef; _buffer : Buffer.t }.

Definition wrap (d : StructDef) (buf : Buffer.t) : BufferWrapper := Wrapper d buf.

(** The getter and the setter installed for [f]; the view has no [noAssert]
    and no [int64mode] of its own. *)
Definition wrapper_get (this : BufferWrapper) (f : field) : M bool value :=
  match f_read f with
  | Some r => apply_reader r (_buffer this) (f_offset f) false None (f_int64mode f)
  | None => ret VUndefined
  end.

Definition wrapper_set (BigNumber : bool) (f : field) (v : value)
  : M BufferWrapper unit :=
  fun this =>
    match f_write f with
    | Some w =>
        match apply_writer w BigNumber v (f_offset f) false (_buffer this) with
        | (r, b) => (r, Wrapper (_def this) b)
        end
    | None => (Ok tt, this)
    end.

(** [actual == expected], where [actual] was just returned by a reader: a
    Buffer or BigNumber that a reader returns is a new object. *)
Definition number_eqb (a b : number) : bool :=
  match a, b with
  | Fin x, Fin y => x =? y
  | Frac m e, Frac m' e' => m * 2 ^ Z.pos e' =? m' * 2 ^ Z.pos e
  | Fin x, Frac m e | Frac m e, Fin x => m =? x * 2 ^ Z.pos e
  | PosInfinity, PosInfinity | NegInfinity, NegInfinity => true
  | _, _ => false
  end.

Definition is_object (v : value) : bool :=
  match v with VBuffer _ | VBigNumber _ => true | _ => false end.

Definition ToPrimitive (v : value) : value :=
  match v with
  | VBuffer b => VString (string_of_list_byte b)
  | VBigNumber z => VString (pretty z)
  | _ => v
  end.

Definition loose_eq (actual expected : value) : option bool :=
  if is_object actual && is_object expected then Some false
  else
    match ToPrimitive actual, ToPrimitive expected with
    | (VUndefined | VNull), (VUndefined | VNull) => Some true
    | (VUndefined | VNull), _ | _, (VUndefined | VNull) => Some false
    | VString s, VString s' => Some (String.eqb s s')
    | a, b =>
        match Buffer.ToNumber a, Buffer.ToNumber b with
        | Some x, Some y => Some (number_eqb x y)
        | _, _ => None
        end
    end.

(** [Wrapper.prototype.checkValues] and [Wrapper.prototype.writeValues] *)
Definition checkValues (this : BufferWrapper) : M bool unit :=
  forEach (fields (_def this)) (fun f =>
    match f_value f with
    | Some v =>
        (actual <- wrapper_get this f ;;
         match loose_eq actual v with
         | Some true => ret tt
         | Some false => throw AssertionError
         | None => throw OutsideModel
         end)%js
    | None => ret tt
    end).

Definition writeValues (BigNumber : bool) : M BufferWrapper unit :=
  fun this =>
    forEach (fields (_def this)) (fun f =>
      match f_value f with
      | Some v => wrapper_set BigNumber f v
      | None => ret tt
      end) this.

(** * Notions used in the statements *)

(** ** 64-bit patterns *)

(** The 8-byte pattern of the 64-bit integer [z] (two's complement when [z]
    is negative) in the given byte order. *)
Definition int64_bytes (le : bool) (z : Z) : list byte :=
  if le then encode_le 8 z else encode_be 8 z.

(** The integer that an 8-byte pattern stands for. *)
Definition int64_value (signed le : bool) (bs : list byte) : Z :=
  let u := if le then decode_le bs else decode_be bs in
  if signed && (2 ^ 63 <=? u) then u - 2 ^ 64 else u.

(** A value beyond the integers that a number holds exactly. *)
Definition overflows (v : Z) : Prop := 2 ^ 53 <= v \/ v <= - 2 ^ 53.

(** ** Layout *)

Fixpoint sum_sizes (fs : list field) : Z :=
  match fs with
  | [] => 0
  | f :: fs' => f_size f + sum_sizes fs'
  end.

(** The fields are laid out one after the other from offset [o] on. *)
Fixpoint consecutive (o : Z) (fs : list field) : Prop :=
  match fs with
  | [] => True
  | f :: fs' => f_offset f = o /\ consecutive (o + f_size f) fs'
  end.

(** Offset monotonicity: every field starts where the field before it
    ends, and so the offset of every field is the sum of the sizes of all
    earlier fields. *)
Definition offsets_adjacent (fs : list field) : Prop :=
  forall (i : nat) (fi fj : field),
    fs !! i = Some fi -> fs !! S i = Some fj ->
    f_offset fj = f_offset fi + f_size fi.

Definition offsets_prefix_sums (fs : list field) : Prop :=
  forall (j : nat) (fj : field),
    fs !! j = Some fj -> f_offset fj = sum_sizes (take j fs).

(** Every field before index [j] has a fixed size. *)
Definition fixed_before (j : nat) (fs : list field) : Prop :=
  forall (i : nat) (fi : field),
    (i < j)%nat -> fs !! i = Some fi -> f_sizeFieldName fi = None.

(** ** Values selected by pack *)

(** The value of a field as section 4.4 words it: [data[name]] if present,
    else the declared default, else zero. *)
Definition selected (data : record) (f : field) : value :=
  match data !! key (f_name f) with
  | Some v => v
  | None => match f_value f with
            | Some d => d
            | None => VNumber (Fin 0)
            end
  end.

(** The write pass of pack with the writer of each field applied, in
    declaration order, to the value given by [pick]. *)
Definition write_fields (pick : field -> value) (BigNumber : bool) (offset : Z)
    (noAssert_ : bool) (fs : list field) : M Buffer.t unit :=
  forEach fs (fun f =>
    match f_write f with
    | Some wr => apply_writer wr BigNumber (pick f) (offset + f_offset f) noAssert_
    | None => ret tt
    end).

(** [pack] as section 4.4 describes it, with the value of each field given
    by [pick]: the deferred field is resolved first, a missing destination
    buffer is allocated with the resolved size plus the offset, every field
    is written in declaration order and the buffer used is returned. *)
Definition pack_with (pick : record -> field -> value) (data : option record)
    (buf : option Buffer.t) (offset : option Z) (noAssert_ : option bool)
    (w : world) : result Buffer.t * (world * option Buffer.t) :=
  let data := match data with Some d => d | None => ∅ end in
  match resolveForPack data w with
  | (Throw e, w') => (Throw e, (w', buf))
  | (Ok _, w') =>
      let noAssert_ := match noAssert_ with Some b => b | None => noAssert (def w') end in
      let offset := match offset with Some z => z | None => 0 end in
      match (match buf with
             | Some b => Ok b
             | None => Buffer.alloc (size (def w') + offset)
             end) with
      | Throw e => (Throw e, (w', buf))
      | Ok b =>
          match write_fields (pick data) (BigNumber w') offset noAssert_
                  (fields (def w')) b with
          | (Ok _, b') => (Ok b', (w', Some b'))
          | (Throw e, b') => (Throw e, (w', Some b'))
          end
      end
  end.

(** A state transformer on a buffer that never changes its length. *)
Definition keeps_length (m : M Buffer.t unit) : Prop :=
  forall (b b' : Buffer.t) (r : result unit), m b = (r, b') -> length b' = length b.

(** The falsy values that a caller supplies for a field. *)
Definition falsy_supplied (v : value) : Prop :=
  v = VNumber (Fin 0) \/ v = VString "" \/ v = VNull \/ v = VBool false.

(** ** Round trips *)

(** The field kinds of the round trip: a fixed-size 8-, 16- or 32-bit
    integer, text or block field. *)
Definition supported (f : field) : Prop :=
  f_sizeFieldName f = None /\
  0 <= f_size f /\
  match f_type f with
  | TNumber n _ _ => (0 < n < 8)%nat /\ Z.of_nat n <= f_size f
  | TFloat _ _ => False
  | _ => True
  end.

Definition ascii_text (t : string) : Prop :=
  Forall (fun b => byte_val b < 128) (list_byte_of_string t).

(** [v] is a value that field [f] represents. *)
Definition in_range (f : field) (v : value) : Prop :=
  match f_type f, v with
  | TNumber n s le, VNumber (Fin z) =>
      Buffer.p_min (Buffer.Prim n s le) <= z <= Buffer.p_max (Buffer.Prim n s le)
  | TString, VString t =>
      Z.of_nat (String.length t) <= f_size f /\ ascii_text t
  | TBuffer, VBuffer b => Buffer.len b = f_size f
  | _, _ => False
  end.

(** [values] assigns an in-range value to every named field and to nothing
    else; a filler field has no default or one in range. *)
Definition assignment (fs : list field) (values : record) : Prop :=
  (forall f, In f fs ->
     match f_name f with
     | Named s => exists v, values !! s = Some v /\ in_range f v
     | Positional _ => forall d, f_value f = Some d -> in_range f d
     end) /\
  (forall k, is_Some (values !! k) -> exists f, In f fs /\ f_name f = Named k).

(** The field kinds of the round trip of every fixed-size schema: an 8-, 16-
    or 32-bit integer, float, double, text or block field whose size is not
    negative and, for a number, not below the width of its type. *)
Definition fixed_size (f : field) : Prop :=
  f_sizeFieldName f = None /\
  0 <= f_size f /\
  match f_type f with
  | TNumber n _ _ => (0 < n < 8)%nat /\ Z.of_nat n <= f_size f
  | TFloat double _ => Z.of_nat (Buffer.float_bytes double) <= f_size f
  | _ => True
  end.

(** [m * 2^k] is a finite number of the format: its leading bit is not above
    the largest exponent, and no bit lies below the last place of the
    significand. *)
Definition float_exact (double : bool) (m k : Z) : Prop :=
  m = 0 \/
  (let a := Z.abs m in
   let ex := Z.max (Z.log2 a + k) (1 - Buffer.bias double) in
   let q := ex - Buffer.fraction_bits double in
   Z.log2 a + k <= Buffer.bias double /\ (q <= k \/ a mod 2 ^ (q - k) = 0)).

(** [S] is the significand of [a * 2^k] at the last place [q], no bit of
    [a] lying below that place. *)
Definition scaled (a k q S : Z) : Prop :=
  (q <= k /\ S = a * 2 ^ (k - q)) \/ (k < q /\ a = S * 2 ^ (q - k)).

Definition float_number (double : bool) (n : number) : Prop :=
  match n with
  | Fin z => float_exact double z 0
  | Frac m e => Z.odd m = true /\ float_exact double m (- Z.pos e)
  | _ => False
  end.

(** [v] is a value that field [f] represents: an integer within the range
    of an integer field, a number that a float or double field holds without
    rounding, a text whose UTF-8 encoding is no longer than a text field, a
    block of the size of a block field. *)
Definition representable (f : field) (v : value) : Prop :=
  match f_type f, v with
  | TNumber n s le, VNumber (Fin z) =>
      Buffer.p_min (Buffer.Prim n s le) <= z <= Buffer.p_max (Buffer.Prim n s le)
  | TFloat double _, VNumber n => float_number double n
  | TString, VString t => Z.of_nat (String.length t) <= f_size f
  | TBuffer, VBuffer b => Buffer.len b = f_size f
  | _, _ => False
  end.

(** [values] gives every named field a value that it represents, and
    nothing else; a filler field has no default or one that it represents. *)
Definition assigned (fs : list field) (values : record) : Prop :=
  (forall f, In f fs ->
     match f_name f with
     | Named s => exists v, values !! s = Some v /\ representable f v
     | Positional _ => forall d, f_value f = Some d -> representable f d
     end) /\
  (forall k, is_Some (values !! k) -> exists f, In f fs /\ f_name f = Named k).

Definition zeros (n : Z) : list byte := repeat x00 (Z.to_nat n).

(** Text right-padded with NUL characters to [n] bytes. *)
Definition pad (t : string) (n : Z) : string :=
  string_of_list_byte (list_byte_of_string t ++ zeros (n - Z.of_nat (String.length t))).

(** The record that decoding gives back: the text values padded to the size
    of their field. *)
Definition decode_value (f : field) (v : value) : value :=
  match f_type f, v with
  | TString, VString t => VString (pad t (f_size f))
  | _, _ => v
  end.

Definition padded (fs : list field) (values : record) : record :=
  map_imap (fun k v =>
    Some (match find_field (Named k) fs with
          | Some f => decode_value f v
          | None => v
          end)) values.

(** Every text value fills its field. *)
Definition texts_fill (fs : list field) (values : record) : Prop :=
  forall f s t, In f fs -> f_name f = Named s -> values !! s = Some (VString t) ->
                Z.of_nat (String.length t) = f_size f.

(** The bit pattern of a finite number. *)
Definition number_bits (double : bool) (n : number) : Z :=
  match n with
  | Fin z => Buffer.float_bits double z 0
  | Frac m e => Buffer.float_bits double m (- Z.pos e)
  | _ => 0
  end.

(** The bytes that writing [v] leaves in the span of field [f] of a
    zero-initialised buffer. *)
Definition image (f : field) (v : value) : list byte :=
  match f_type f, v with
  | TNumber n _ le, VNumber (Fin z) =>
      (if le then encode_le n z else encode_be n z) ++ zeros (f_size f - Z.of_nat n)
  | TFloat double le, VNumber n =>
      (if le then encode_le (Buffer.float_bytes double) (number_bits double n)
       else encode_be (Buffer.float_bytes double) (number_bits double n))
      ++ zeros (f_size f - Z.of_nat (Buffer.float_bytes double))
  | TString, VString t =>
      list_byte_of_string t ++ zeros (f_size f - Z.of_nat (String.length t))
  | TBuffer, VBuffer b => b
  | _, _ => zeros (f_size f)
  end.

Definition images (data : record) (fs : list field) : list byte :=
  flat_map (fun f => image f (field_value data f)) fs.

(** A value that the writer of [f] accepts: one that the field represents,
    or the number 0 that stands for a missing or falsy value. *)
Definition writable (f : field) (v : value) : Prop :=
  representable f v \/ v = VNumber (Fin 0).

(** What decoding field [f] adds to the record [data]. *)
Definition collect (values : record) (data : record) (f : field) : record :=
  match f_name f with
  | Named s =>
      match values !! s with
      | Some v => <[s := decode_value f v]> data
      | None => data
      end
  | Positional _ => data
  end.

(** [def().uint16be('a').string('s', 3).buffer('b', 2).uint8()] *)
Definition mixed_decls : list decl :=
  [DNumber B16 false (Some false) [AValue (VString "a")];
   DString (Named "s") (AValue (VNumber (Fin 3)));
   DBuffer (Named "b") (AValue (VNumber (Fin 2)));
   DNumber B8 false None []].

Definition mixed_values : record :=
  <["a" := VNumber (Fin 513)]>
    (<["s" := VString "hi"]> (<["b" := VBuffer [x01; x02]]> ∅)).

(** [def().uint16be('a').floatle('x').double('y').string('s', 3)
         .buffer('b', 2).uint8()] *)
Definition all_kinds_decls : list decl :=
  [DNumber B16 false (Some false) [AValue (VString "a")];
   DFloat false (Some true) [AValue (VString "x")];
   DFloat true None [AValue (VString "y")];
   DString (Named "s") (AValue (VNumber (Fin 3)));
   DBuffer (Named "b") (AValue (VNumber (Fin 2)));
   DNumber B8 false None []].

(** {a: 513, x: 1.5, y: 0.1, s: t, b: <01 02>}, with [t] the letter e with
    an acute accent, the two bytes C3 A9. *)
Definition all_kinds_values : record :=
  <["a" := VNumber (Fin 513)]>
    (<["x" := VNumber (Frac 3 1)]>
       (<["y" := VNumber (Frac 3602879701896397 55)]>
          (<["s" := VString (string_of_list_byte [xc3; xa9])]>
             (<["b" := VBuffer [x01; x02]]> ∅)))).

(** [def().floatbe('x')] *)
Definition float_decls : list decl :=
  [DFloat false (Some false) [AValue (VString "x")]].

(** [def().uint8(300)]: a filler byte with a default out of range *)
Definition filler_300_decls : list decl :=
  [DNumber B8 false None [AValue (VNumber (Fin 300))]].

(** [def().uint16be('a', {size: 1}).uint8('b')] *)
Definition narrow_decls : list decl :=
  [DNumber B16 false (Some false)
     [AValue (VString "a"); AObject (Overrides None (Some 1) None None [])];
   DNumber B8 false None [AValue (VString "b")]].

(** [def().uint8('a').buffer(7, -1)] *)
Definition negative_size_decls : list decl :=
  [DNumber B8 false None [AValue (VString "a")];
   DBuffer (Positional 7) (AValue (VNumber (Fin (-1))))].

(** ** Schemas of the examples *)

Definition no_options : option options := None.

Definition with_endian (le : bool) : option options :=
  Some (Options VUndefined le false None).

(** [def().uint16('len').string('name', 'len')] *)
Definition len_name_decls (endian : option bool) : list decl :=
  [DNumber B16 false endian [AValue (VString "len")];
   DString (Named "name") (AValue (VString "len"))].

Definition len_name_data : record :=
  <["len" := VNumber (Fin 5)]> (<["name" := VString "hello"]> ∅).

(** [def().uint8('a').uint8('b').uint8('c')] *)
Definition three_bytes_decls : list decl :=
  [DNumber B8 false None [AValue (VString "a")];
   DNumber B8 false None [AValue (VString "b")];
   DNumber B8 false None [AValue (VString "c")]].

(** [def().string('s', 5)] and [def().string('s', 2)] *)
Definition text_decls (n : Z) : list decl :=
  [DString (Named "s") (AValue (VNumber (Fin n)))].

(** [def().string('magic', 'ab')] *)
Definition magic_text_decls : list decl :=
  [DString (Named "magic") (AValue (VString "ab"))].

(** [def().uint64be('x')] *)
Definition uint64_decls : list decl :=
  [DNumber B64 false (Some false) [AValue (VString "x")]].

(** [def().buffer('magic', new Buffer([1, 2]))] *)
Definition magic_decls : list decl :=
  [DBuffer (Named "magic") (AValue (VBuffer [x01; x02]))].

(** ** Invariants of a declared schema *)

Definition field_key (f : field) : string := key (f_name f).

(** The codec of a fixed-size field is the one of its type and size. *)
Definition codec_ok (f : field) : Prop :=
  f_sizeFieldName f = None ->
  match f_type f with
  | TNumber n s le =>
      (n < 8)%nat ->
      f_read f = Some (PrimReader (Buffer.Prim n s le)) /\
      f_write f = Some (PrimWriter (Buffer.Prim n s le))
  | TFloat double le =>
      f_read f = Some (FloatReader double le) /\
      f_write f = Some (FloatWriter double le)
  | TString =>
      f_read f = Some (StringReader (f_size f)) /\
      f_write f = Some (StringWriter (f_size f))
  | TBuffer =>
      f_read f = Some (BufferReader (f_size f)) /\
      f_write f = Some (BufferWriter (f_size f))
  end.

(** The accessor of every fixed-size field is installed and is not
    configurable. *)
Definition keys_registered (d : StructDef) : Prop :=
  forall f, In f (fields d) -> configurable f = false ->
            assoc (field_key f) (accessors d) = Some false.

Definition fixed_keys (fs : list field) : list string :=
  map field_key (List.filter (fun f => negb (configurable f)) fs).

Record schema_ok (d : StructDef) : Prop := SchemaOk {
  ok_layout : consecutive 0 (fields d);
  ok_size : size d = sum_sizes (fields d);
  ok_codec : Forall codec_ok (fields d);
  ok_keys : keys_registered d;
  ok_nodup : NoDup (fixed_keys (fields d))
}.

(** The offset of every field that only has fixed-size fields before it is
    the sum of the sizes of those fields, and the size of the schema is the
    sum of all sizes. *)
Definition prefix_sums_upto (fs : list field) : Prop :=
  forall (j : nat) (fj : field),
    fs !! j = Some fj -> fixed_before j fs -> f_offset fj = sum_sizes (take j fs).

Definition layout_resolved (d : StructDef) : Prop :=
  prefix_sums_upto (fields d) /\ size d = sum_sizes (fields d).

(** What the round trip needs of one field: a fixed size with the codec of
    its type, a value that its writer accepts, and for a named field a value
    that it represents under its name. *)
Definition field_ready (data : record) (f : field) : Prop :=
  fixed_size f /\ codec_ok f /\ writable f (field_value data f).

Definition field_holds (values : record) (f : field) : Prop :=
  match f_name f with
  | Named s => exists v, values !! s = Some v /\ representable f v
  | Positional _ => True
  end.


(** ** Notions used in the further properties *)

(** One definer call leaves the fields as they are or appends one field
    under a new name; a field with a size reference is appended only to a
    schema marked as not static, with size 0; every other field has a
    reader. *)
Definition appended (w w' : world) (g : field) : Prop :=
  find_field (f_name g) (fields (def w)) = None /\
  fields (def w') = fields (def w) ++ [g] /\
  (f_sizeFieldName g = None -> f_read g <> None) /\
  (f_sizeFieldName g <> None -> staticSized (def w') = false /\ f_size g = 0) /\
  existsb (String.eqb (key (f_name g))) reserved = false.

Definition declare_step (w w' : world) : Prop :=
  (staticSized (def w') = true -> staticSized (def w) = true) /\
  (fields (def w') = fields (def w) \/ exists g, appended w w' g).

(** The second half of [readField]: apply the reader of the field and store
    the value under the name of the field. *)
Definition decode_field (buf : Buffer.t) (offset : Z) (noAssert_ : bool)
    (data : record) (f : field) : M world record :=
  (match f_read f with
   | Some readImpl =>
       w <- get ;;
       fieldValue <- onBigNumber
                       (apply_reader readImpl buf (offset + f_offset f) noAssert_
                          (Some (def_int64mode (def w))) (f_int64mode f)) ;;
       match f_name f with
       | Named s => ret (<[s := fieldValue]> data)
       | Positional _ => ret data
       end
   | None => ret data
   end)%js.

(** The first half: resolve the size of a length-dependent text field. *)
Definition resolve_field (data : record) (i : nat) (f : field) : M world field :=
  match f_sizeFieldName f with
  | Some s =>
      if String.eqb s "" then ret f
      else match data !! s with
           | Some (VNumber (Fin z)) => resolve i f z
           | _ => throw OutsideModel
           end
  | None => ret f
  end.

(** The bytes that writing [v] leaves in the span of field [f] when the span
    held [mid] before: an integer narrower than its field leaves the rest of
    the span as it was, and a value that the writer of a text or block field
    skips leaves all of it. *)
Definition overwrite (f : field) (v : value) (mid : list byte) : list byte :=
  match f_type f, v with
  | TNumber n _ le, VNumber (Fin z) =>
      (if le then encode_le n z else encode_be n z) ++ drop n mid
  | TFloat double le, VNumber n =>
      (if le then encode_le (Buffer.float_bytes double) (number_bits double n)
       else encode_be (Buffer.float_bytes double) (number_bits double n))
      ++ drop (Buffer.float_bytes double) mid
  | TString, VString t =>
      list_byte_of_string t ++ zeros (f_size f - Z.of_nat (String.length t))
  | TBuffer, VBuffer b => b
  | _, _ => mid
  end.

(** The span of a schema after the write pass of [pack] over the bytes
    [mid]: every field overwrites its own part. *)
Fixpoint overwrite_all (data : record) (fs : list field) (mid : list byte)
  : list byte :=
  match fs with
  | [] => mid
  | f :: fs' =>
      overwrite f (field_value data f) (take (Z.to_nat (f_size f)) mid)
      ++ overwrite_all data fs' (drop (Z.to_nat (f_size f)) mid)
  end.

(** No value is the empty text. *)
Definition nonempty_texts (values : record) : Prop :=
  forall k, values !! k <> Some (VString "").

(** What the round trip through an old buffer needs of a named field: a
    value in range that the write pass does not replace by zero. *)
Definition field_kept (values : record) (f : field) : Prop :=
  match f_name f with
  | Named s =>
      exists v, values !! s = Some v /\ representable f v /\ field_value values f = v
  | Positional _ => True
  end.

(** [def().uint8('len').string('text', 'len').uint8('tail')] *)
Definition text_then_tail_decls : list decl :=
  [DNumber B8 false None [AValue (VString "len")];
   DString (Named "text") (AValue (VString "len"));
   DNumber B8 false None [AValue (VString "tail")]].

(** {len: 3, text: 'abc', tail: 9} *)
Definition text_then_tail_data : record :=
  <["len" := VNumber (Fin 3)]>
    (<["text" := VString "abc"]> (<["tail" := VNumber (Fin 9)]> ∅)).

(** The text field that [def.string(tn, s)] registers at offset [o] when [s]
    names an earlier field, and the same field once its size is resolved to
    [z]. *)
Definition text_field (tn s : string) (o : Z) : field :=
  Field TString (Named tn) 0 o None None None (Some s) None.

Definition resolved_text_field (tn s : string) (o z : Z) : field :=
  Field TString (Named tn) z o (Some (StringReader z)) (Some (StringWriter z))
        None (Some s) None.

(** A default that [writeValues] writes and [checkValues] finds again: a
    number in the range of an integer field, or for a text field a block of
    the size of the field, which is the default that [def.string(name, block)]
    keeps and, for an ASCII literal, [def.string(name, 'literal')]. *)
Definition default_ok (f : field) (d : value) : Prop :=
  match f_type f, d with
  | TNumber n s le, VNumber (Fin z) =>
      Buffer.p_min (Buffer.Prim n s le) <= z <= Buffer.p_max (Buffer.Prim n s le)
  | TString, VBuffer b => Buffer.len b = f_size f
  | _, _ => False
  end.

Definition defaults_ok (fs : list field) : Prop :=
  forall f d, In f fs -> f_value f = Some d -> default_ok f d.

(** The bytes that [writeValues] leaves in the span of [f]. *)
Definition default_bytes (f : field) (chunk : list byte) : list byte :=
  match f_value f with
  | Some (VBuffer b) => b
  | Some d => overwrite f d chunk
  | None => chunk
  end.

Fixpoint defaults_all (fs : list field) (mid : list byte) : list byte :=
  match fs with
  | [] => mid
  | f :: fs' =>
      default_bytes f (take (Z.to_nat (f_size f)) mid)
      ++ defaults_all fs' (drop (Z.to_nat (f_size f)) mid)
  end.

(** [def().uint8('version', 7).string('magic', 'ab')] *)
Definition version_magic_decls : list decl :=
  [DNumber B8 false None [AValue (VString "version"); AValue (VNumber (Fin 7))];
   DString (Named "magic") (AValue (VString "ab"))].

(** An integer field as wide as its type (no [size] override). *)
Definition exact_width (f : field) : Prop :=
  match f_type f with
  | TNumber n _ _ => f_size f = Z.of_nat n
  | _ => True
  end.

(** The value that the reader of a fixed-size field decodes from the bytes
    [chunk] of its span. *)
Definition value_of (f : field) (chunk : list byte) : value :=
  match f_type f with
  | TNumber n s le =>
      let u := if le then decode_le chunk else decode_be chunk in
      VNumber (Fin (if s && (2 ^ (8 * Z.of_nat n - 1) <=? u)
                    then u - 2 ^ (8 * Z.of_nat n) else u))
  | TFloat double le =>
      VNumber (Buffer.float_value double
                 (if le then decode_le chunk else decode_be chunk))
  | TString => VString (string_of_list_byte chunk)
  | TBuffer => VBuffer chunk
  end.

(** The record that [unpack] builds from the bytes [mid] of the span of the
    schema, added to [data]. *)
Fixpoint decoded (fs : list field) (mid : list byte) (data : record) : record :=
  match fs with
  | [] => data
  | f :: fs' =>
      decoded fs' (drop (Z.to_nat (f_size f)) mid)
        (match f_name f with
         | Named s => <[s := value_of f (take (Z.to_nat (f_size f)) mid)]> data
         | Positional _ => data
         end)
  end.

(** The bytes in the span of every text field are ASCII. *)
Fixpoint ascii_spans (fs : list field) (mid : list byte) : Prop :=
  match fs with
  | [] => True
  | f :: fs' =>
      match f_type f with
      | TString => Forall (fun b => byte_val b < 128) (take (Z.to_nat (f_size f)) mid)
      | _ => True
      end /\ ascii_spans fs' (drop (Z.to_nat (f_size f)) mid)
  end.

(** The record [R] gives every field the value decoded from its span. *)
Fixpoint holds_chunks (R : record) (fs : list field) (mid : list byte) : Prop :=
  match fs with
  | [] => True
  | f :: fs' =>
      field_value R f = or0 (value_of f (take (Z.to_nat (f_size f)) mid)) /\
      holds_chunks R fs' (drop (Z.to_nat (f_size f)) mid)
  end.

Definition named (f : field) : Prop := exists s, f_name f = Named s.

(** [def().uint16be('a').string('s', 3).buffer('b', 2)] *)
Definition named_decls : list decl :=
  [DNumber B16 false (Some false) [AValue (VString "a")];
   DString (Named "s") (AValue (VNumber (Fin 3)));
   DBuffer (Named "b") (AValue (VNumber (Fin 2)))].


(** * Properties *)

(** ** Bytes and integers *)

Lemma byte_val_range (b : byte) : 0 <= byte_val b < 256.
Proof.
  unfold byte_val. pose proof (Byte.to_N_bounded b). lia.
Qed.

Lemma byte_val_of (z : Z) : byte_val (byte_of z) = z mod 256.
Proof.
  unfold byte_val, byte_of.
  assert (Hr : 0 <= z mod 256 < 256) by (apply Z.mod_pos_bound; lia).
  destruct (Byte.of_N (Z.to_N (z mod 256))) as [b|] eqn:E.
  - apply Byte.to_of_N in E. rewrite E. lia.
  - apply Byte.of_N_None_iff in E. lia.
Qed.

Lemma byte_of_val (b : byte) : byte_of (byte_val b) = b.
Proof.
  unfold byte_of, byte_val. pose proof (Byte.to_N_bounded b).
  rewrite Z.mod_small by lia. rewrite N2Z.id, Byte.of_to_N. reflexivity.
Qed.

Lemma ToInt32_range (z : Z) : - 2 ^ 31 <= ToInt32 z < 2 ^ 31.
Proof.
  unfold ToInt32. pose proof (Z.mod_pos_bound z (2 ^ 32) ltac:(lia)).
  destruct (Z.ltb_spec (z mod 2 ^ 32) (2 ^ 31)); lia.
Qed.

Lemma ToInt32_uint32 (z : Z) :
  0 <= z < 2 ^ 32 -> ToInt32 z = if z <? 2 ^ 31 then z else z - 2 ^ 32.
Proof.
  intros H. unfold ToInt32. rewrite Z.mod_small by lia. reflexivity.
Qed.

(** Clearing the [n] low bits. *)
Lemma land_high_mask (x n : Z) :
  0 <= n -> Z.land x (- 2 ^ n) = (x / 2 ^ n) * 2 ^ n.
Proof.
  intros Hn.
  replace (- 2 ^ n) with (Z.lnot (Z.ones n))
    by (rewrite Z.ones_equiv; unfold Z.lnot; lia).
  rewrite <- Z.ldiff_land, Z.ldiff_ones_r by lia.
  rewrite Z.shiftl_mul_pow2, Z.shiftr_div_pow2 by lia. reflexivity.
Qed.

(** The high bits that [readInt64AsNumber] tests. *)
Lemma lostBits_spec (hi : Z) :
  0 <= hi < 2 ^ 32 ->
  (bitand hi 4293918720 =? 0) = (hi <? 2 ^ 20) /\
  (bitand hi 4293918720 =? 4293918720) = false /\
  (bitand hi 2147483648 =? 0) = (hi <? 2 ^ 31).
Proof.
  intros H. unfold bitand.
  change (ToInt32 4293918720) with (- 2 ^ 20).
  change (ToInt32 2147483648) with (- 2 ^ 31).
  rewrite !land_high_mask by lia.
  rewrite (ToInt32_uint32 hi H).
  destruct (Z.ltb_spec hi (2 ^ 31)) as [Hlt|Hge].
  - repeat split.
    + destruct (Z.ltb_spec hi (2 ^ 20)).
      * rewrite Z.div_small by lia. reflexivity.
      * apply Z.eqb_neq. assert (1 <= hi / 2 ^ 20) by (apply Z.div_le_lower_bound; lia). lia.
    + apply Z.eqb_neq.
      assert (hi / 2 ^ 20 < 2 ^ 11) by (apply Z.div_lt_upper_bound; lia). lia.
    + rewrite Z.div_small by lia. reflexivity.
  - assert (Hq20 : (hi - 2 ^ 32) / 2 ^ 20 < 0)
      by (apply Z.div_lt_upper_bound; lia).
    assert (Hq31 : (hi - 2 ^ 32) / 2 ^ 31 < 0)
      by (apply Z.div_lt_upper_bound; lia).
    repeat split.
    + destruct (Z.ltb_spec hi (2 ^ 20)); [lia|]. apply Z.eqb_neq. lia.
    + apply Z.eqb_neq. lia.
    + apply Z.eqb_neq. lia.
Qed.

(** ** Sub-ranges of a buffer *)

Lemma sub_eight (buf : Buffer.t) (offset : Z) :
  0 <= offset -> offset + 8 <= Buffer.len buf ->
  exists b0 b1 b2 b3 b4 b5 b6 b7,
    Buffer.sub buf offset (offset + 8) = [b0; b1; b2; b3; b4; b5; b6; b7] /\
    Buffer.sub buf offset (offset + 4) = [b0; b1; b2; b3] /\
    Buffer.sub buf (offset + 4) (offset + 4 + 4) = [b4; b5; b6; b7].
Proof.
  intros H0 H8. unfold Buffer.sub, Buffer.len in *.
  replace (offset + 8 - offset) with 8 by lia.
  replace (offset + 4 - offset) with 4 by lia.
  replace (offset + 4 + 4 - (offset + 4)) with 4 by lia.
  replace (Z.to_nat (offset + 4)) with (Z.to_nat offset + 4)%nat by lia.
  rewrite <- drop_drop.
  assert (Hl : (8 <= length (drop (Z.to_nat offset) buf))%nat)
    by (rewrite length_drop; lia).
  destruct (drop (Z.to_nat offset) buf) as [|b0 [|b1 [|b2 [|b3 [|b4 [|b5 [|b6 [|b7 l]]]]]]]];
    simpl in Hl; try lia.
  exists b0, b1, b2, b3, b4, b5, b6, b7. repeat split.
Qed.

(** ** The 64-bit reader *)

(** C2, evaluated on the code: in strict mode the 8-byte pattern of 2^53 is
    refused with an overflow error, and so is the pattern of 2^53-1, for
    either signedness and byte order: the reader masks the high half with
    0xFFF00000 and so accepts only 52 bits. *)
Theorem strict_int64_boundary (signed le noAssert_ bn : bool) :
  readInt64AsNumber signed le (int64_bytes le (2 ^ 53)) 0 noAssert_
    (Some strict) None bn = (Throw OverflowError, bn) /\
  readInt64AsNumber signed le (int64_bytes le (2 ^ 53 - 1)) 0 noAssert_
    (Some strict) None bn = (Throw OverflowError, bn).
Proof.
  destruct signed, le, noAssert_, bn; split; vm_compute; reflexivity.
Qed.

(** The largest pattern that strict mode accepts, 2^52-1, decodes to -1:
    the result is assembled with 32-bit operators. *)
Lemma strict_int64_largest_accepted (signed le noAssert_ bn : bool) :
  readInt64AsNumber signed le (int64_bytes le (2 ^ 52 - 1)) 0 noAssert_
    (Some strict) None bn = (Ok (VNumber (Fin (-1))), bn).
Proof.
  destruct signed, le, noAssert_, bn; vm_compute; reflexivity.
Qed.

Lemma read_uint32 (le : bool) (buf : Buffer.t) (off : Z) :
  0 <= off -> off + 4 <= Buffer.len buf ->
  Buffer.read (Buffer.UInt32 le) buf off
  = Ok (if le then decode_le (Buffer.sub buf off (off + 4))
        else decode_be (Buffer.sub buf off (off + 4))).
Proof.
  intros H0 H4. unfold Buffer.read, Buffer.UInt32, Buffer.width. simpl.
  change (Z.of_nat 4) with 4.
  replace ((off <? 0) || (Buffer.len buf <? off + 4)) with false
    by (symmetry; apply orb_false_iff; split; apply Z.ltb_ge; lia).
  reflexivity.
Qed.

(** What the lossy reader answers once the significant bits of the high
    half reach bit 20. *)
Lemma readInt64_lossy_halves (signed le noAssert_ : bool) (buf : Buffer.t)
    (offset : Z) (def_mode field_mode : option int64mode) (bn : bool) (hi lo : Z) :
  offset + 8 <= Buffer.len buf ->
  select_mode field_mode def_mode = lossy ->
  Buffer.read (Buffer.UInt32 le) buf (if le then offset + 4 else offset + 0) = Ok hi ->
  Buffer.read (Buffer.UInt32 le) buf (if le then offset + 0 else offset + 4) = Ok lo ->
  0 <= hi < 2 ^ 32 -> 2 ^ 20 <= hi ->
  readInt64AsNumber signed le buf offset noAssert_ def_mode field_mode bn
  = (Ok (VNumber (if signed && (2 ^ 31 <=? hi) then NegInfinity else PosInfinity)), bn).
Proof.
  intros H8 Hmode Ehi Elo Hr H20.
  unfold readInt64AsNumber. rewrite Hmode, Ehi, Elo.
  replace (Buffer.len buf <? offset + 8) with false
    by (symmetry; apply Z.ltb_ge; lia).
  rewrite andb_false_r.
  destruct (lostBits_spec hi Hr) as (L1 & L2 & L3).
  unfold bind, validateInt64Mode, ret, lift. rewrite L1, L2, L3.
  replace (hi <? 2 ^ 20) with false by (symmetry; apply Z.ltb_ge; lia).
  destruct signed; simpl; [|reflexivity].
  destruct (Z.ltb_spec hi (2 ^ 31)), (Z.leb_spec (2 ^ 31) hi); try lia; reflexivity.
Qed.

(** C7: in lossy mode an 8-byte pattern whose value overflows decodes to
    +Infinity when the field is unsigned or the value positive, and to
    -Infinity when the field is signed and the value negative. *)
Theorem lossy_overflow_infinity (signed le noAssert_ : bool) (buf : Buffer.t)
    (offset : Z) (def_mode field_mode : option int64mode) (bn : bool) :
  0 <= offset -> offset + 8 <= Buffer.len buf ->
  select_mode field_mode def_mode = lossy ->
  let v := int64_value signed le (Buffer.sub buf offset (offset + 8)) in
  overflows v ->
  readInt64AsNumber signed le buf offset noAssert_ def_mode field_mode bn
  = (Ok (VNumber (if v <? 0 then NegInfinity else PosInfinity)), bn).
Proof.
  intros H0 H8 Hmode v Hov.
  destruct (sub_eight buf offset H0 H8)
    as (b0 & b1 & b2 & b3 & b4 & b5 & b6 & b7 & E8 & Elow & Ehigh).
  pose proof (byte_val_range b0). pose proof (byte_val_range b1).
  pose proof (byte_val_range b2). pose proof (byte_val_range b3).
  pose proof (byte_val_range b4). pose proof (byte_val_range b5).
  pose proof (byte_val_range b6). pose proof (byte_val_range b7).
  subst v. unfold int64_value, overflows in *. rewrite E8 in *.
  destruct le.
  - set (hi := decode_le [b4; b5; b6; b7]).
    set (lo := decode_le [b0; b1; b2; b3]).
    assert (Ehi : hi = ((byte_val b7 * 256 + byte_val b6) * 256 + byte_val b5) * 256
                       + byte_val b4) by reflexivity.
    assert (Elo : lo = ((byte_val b3 * 256 + byte_val b2) * 256 + byte_val b1) * 256
                       + byte_val b0) by reflexivity.
    assert (Eu : decode_le [b0; b1; b2; b3; b4; b5; b6; b7] = hi * 2 ^ 32 + lo).
    { rewrite Ehi, Elo. unfold decode_le, decode_be. simpl. lia. }
    rewrite Eu in *.
    rewrite (readInt64_lossy_halves signed true noAssert_ buf offset def_mode
               field_mode bn hi lo); try lia; try assumption.
    + destruct signed; cbn [andb] in *.
      * destruct (Z.leb_spec (2 ^ 63) (hi * 2 ^ 32 + lo)), (Z.leb_spec (2 ^ 31) hi);
          try lia.
        -- destruct (Z.ltb_spec (hi * 2 ^ 32 + lo - 2 ^ 64) 0); [reflexivity|lia].
        -- destruct (Z.ltb_spec (hi * 2 ^ 32 + lo) 0); [lia|reflexivity].
      * destruct (Z.ltb_spec (hi * 2 ^ 32 + lo) 0); [lia|reflexivity].
    + rewrite read_uint32 by lia. rewrite Ehigh. reflexivity.
    + rewrite Z.add_0_r, read_uint32 by lia. rewrite Elow. reflexivity.
    + destruct signed; cbn [andb] in *; [|lia].
      destruct (Z.leb_spec (2 ^ 63) (hi * 2 ^ 32 + lo)); lia.
  - set (hi := decode_be [b0; b1; b2; b3]).
    set (lo := decode_be [b4; b5; b6; b7]).
    assert (Ehi : hi = ((byte_val b0 * 256 + byte_val b1) * 256 + byte_val b2) * 256
                       + byte_val b3) by reflexivity.
    assert (Elo : lo = ((byte_val b4 * 256 + byte_val b5) * 256 + byte_val b6) * 256
                       + byte_val b7) by reflexivity.
    assert (Eu : decode_be [b0; b1; b2; b3; b4; b5; b6; b7] = hi * 2 ^ 32 + lo).
    { rewrite Ehi, Elo. unfold decode_be. simpl. lia. }
    rewrite Eu in *.
    rewrite (readInt64_lossy_halves signed false noAssert_ buf offset def_mode
               field_mode bn hi lo); try lia; try assumption.
    + destruct signed; cbn [andb] in *.
      * destruct (Z.leb_spec (2 ^ 63) (hi * 2 ^ 32 + lo)), (Z.leb_spec (2 ^ 31) hi);
          try lia.
        -- destruct (Z.ltb_spec (hi * 2 ^ 32 + lo - 2 ^ 64) 0); [reflexivity|lia].
        -- destruct (Z.ltb_spec (hi * 2 ^ 32 + lo) 0); [lia|reflexivity].
      * destruct (Z.ltb_spec (hi * 2 ^ 32 + lo) 0); [lia|reflexivity].
    + rewrite Z.add_0_r, read_uint32 by lia. rewrite Elow. reflexivity.
    + rewrite read_uint32 by lia. rewrite Ehigh. reflexivity.
    + destruct signed; cbn [andb] in *; [|lia].
      destruct (Z.leb_spec (2 ^ 63) (hi * 2 ^ 32 + lo)); lia.
Qed.

Lemma lossy_overflow_infinity_witness :
  readInt64AsNumber false false (int64_bytes false (2 ^ 53)) 0 false
    None (Some lossy) false
  = (Ok (VNumber PosInfinity), false).
Proof.
  apply (lossy_overflow_infinity false false false (int64_bytes false (2 ^ 53)) 0
           None (Some lossy) false).
  - lia.
  - vm_compute. discriminate.
  - reflexivity.
  - left. vm_compute. discriminate.
Defined.

(** ** The text and block writers *)

(** C5, evaluated on the code: encoding the text "hello" into a text field of
    2 bytes at offset 0 of a 5-byte buffer overwrites all 5 bytes, 3 of them
    past the field; the same happens through [pack] with the schema
    [def().string('s', 2)]. *)
Theorem text_write_past_field :
  writeString 2 (VString "hello") 0 false (repeat "."%byte 5)
  = (Ok tt, list_byte_of_string "hello") /\
  exists w,
    build false no_options (text_decls 2) = Ok w /\
    pack (Some {["s"%string := VString "hello"]}) (Some (repeat "."%byte 5))
         None None w
    = (Ok (list_byte_of_string "hello"),
       (w, Some (list_byte_of_string "hello"))).
Proof.
  split; [vm_compute; reflexivity|].
  eexists. split; [vm_compute; reflexivity|]. vm_compute. reflexivity.
Qed.

(** C8: a byte block whose length differs from the declared size is refused
    by the block writer and by the text writer with a size-mismatch error,
    and the destination buffer is left as it was; so it is when the block
    reaches the writer through [pack] or through the setter of a view. *)
Theorem wrong_size_block_rejected (size : Z) (b : list byte) (offset : Z)
    (noAssert_ : bool) (buf : Buffer.t) :
  Buffer.len b <> size ->
  writebuffer size (VBuffer b) offset noAssert_ buf = (Throw SizeMismatchError, buf) /\
  writeString size (VBuffer b) offset noAssert_ buf = (Throw SizeMismatchError, buf) /\
  forall (f : field) (bn : bool),
    f_write f = Some (BufferWriter size) \/ f_write f = Some (StringWriter size) ->
    (forall data : record,
        data !! key (f_name f) = Some (VBuffer b) ->
        writeField data bn offset noAssert_ f buf = (Throw SizeMismatchError, buf)) /\
    (forall d : StructDef,
        wrapper_set bn f (VBuffer b) (wrap d buf)
        = (Throw SizeMismatchError, wrap d buf)).
Proof.
  intros Hne.
  assert (E : (Buffer.len b =? size) = false) by (apply Z.eqb_neq; exact Hne).
  assert (Hb : forall o na, writebuffer size (VBuffer b) o na buf
                            = (Throw SizeMismatchError, buf))
    by (intros o na; unfold writebuffer; rewrite E; reflexivity).
  assert (Hs : forall o na, writeString size (VBuffer b) o na buf
                            = (Throw SizeMismatchError, buf))
    by (intros o na; unfold writeString; rewrite E; reflexivity).
  split; [apply Hb|]. split; [apply Hs|].
  intros f bn Hw. split.
  - intros data Hd. unfold writeField, field_value. rewrite Hd.
    destruct Hw as [Hw|Hw]; rewrite Hw; simpl or0; unfold apply_writer.
    + apply Hb.
    + apply Hs.
  - intros d. unfold wrapper_set, wrap. simpl _buffer.
    destruct Hw as [Hw|Hw]; rewrite Hw; unfold apply_writer.
    + rewrite Hb. reflexivity.
    + rewrite Hs. reflexivity.
Qed.

Lemma wrong_size_block_rejected_witness :
  writebuffer 2 (VBuffer [x01]) 0 false [x07; x08] = (Throw SizeMismatchError, [x07; x08]).
Proof.
  apply (wrong_size_block_rejected 2 [x01] 0 false [x07; x08]).
  vm_compute. discriminate.
Defined.

(** C10: when the name of a field is present in [data] with a falsy value
    (0, the empty string, null or false), [pack] hands the number 0 to the
    writer of the field; a text or block writer then leaves the buffer as it
    is, without zero-fill and without error. *)
Theorem falsy_value_written_as_zero (data : record) (f : field) (v : value) :
  data !! key (f_name f) = Some v ->
  falsy_supplied v ->
  field_value data f = VNumber (Fin 0) /\
  forall size : Z,
    f_write f = Some (StringWriter size) \/ f_write f = Some (BufferWriter size) ->
    (forall (bn : bool) (offset : Z) (noAssert_ : bool) (buf : Buffer.t),
        writeField data bn offset noAssert_ f buf = (Ok tt, buf)) /\
    (forall (w : world) (offset : option Z) (noAssert_ : option bool) (buf : Buffer.t),
        staticSized (def w) = true -> fields (def w) = [f] ->
        pack (Some data) (Some buf) offset noAssert_ w = (Ok buf, (w, Some buf))).
Proof.
  intros Hd Hv.
  assert (E : field_value data f = VNumber (Fin 0)).
  { unfold field_value. rewrite Hd.
    destruct Hv as [-> | [-> | [-> | ->]]]; reflexivity. }
  split; [exact E|].
  intros sz Hw.
  assert (W : forall bn offset noAssert_ buf,
             writeField data bn offset noAssert_ f buf = (Ok tt, buf)).
  { intros. unfold writeField. rewrite E. destruct Hw as [Hw|Hw]; rewrite Hw; reflexivity. }
  split; [exact W|].
  intros w offset noAssert_ buf Hst Hfs.
  unfold pack, resolveForPack, bind, get. rewrite Hst. unfold ret.
  rewrite Hfs. simpl forEach. unfold bind. rewrite W. reflexivity.
Qed.

Lemma falsy_value_written_as_zero_witness :
  field_value {["s"%string := VString ""]}
    (Field TString (Named "s") 2 0 (Some (StringReader 2)) (Some (StringWriter 2))
       None None None)
  = VNumber (Fin 0).
Proof.
  apply (falsy_value_written_as_zero {["s"%string := VString ""]}
           (Field TString (Named "s") 2 0 (Some (StringReader 2))
              (Some (StringWriter 2)) None None None)
           (VString "")).
  - reflexivity.
  - right. left. reflexivity.
Defined.

(** ** Variable-length text *)

(** C4: for the schema of an unsigned 16-bit field [len] followed by a text
    field [name] whose size refers to [len], in either byte order,
    packing {len: 5, name: "hello"} gives a buffer of 2+5 = 7 bytes, and
    unpacking that buffer gives {len: 5, name: "hello"} back, both with the
    schema as [pack] left it (the text field resolved to 5 bytes) and with
    the schema as it was declared, where [unpack] itself resolves the text
    field from the value that it has just read for [len]. *)
Theorem variable_length_text (le : bool) (endian : option bool) (bn : bool) :
  exists (w w1 : world) (b : Buffer.t),
    build bn (with_endian le) (len_name_decls endian) = Ok w /\
    pack (Some len_name_data) None None None w = (Ok b, (w1, Some b)) /\
    Buffer.len b = 7 /\
    unpack b None None w1 = (Ok len_name_data, w1) /\
    unpack b None None w = (Ok len_name_data, w1) /\
    w1 <> w.
Proof.
  destruct le, endian as [[|]|], bn;
    do 3 eexists; (split; [vm_compute; reflexivity|]);
    (split; [vm_compute; reflexivity|]); (split; [vm_compute; reflexivity|]);
    (split; [vm_compute; reflexivity|]); (split; [vm_compute; reflexivity|]);
    intros H; apply (f_equal (fun w => size (def w))) in H; vm_compute in H;
    discriminate.
Qed.

(** ** Default values through the view *)

(** C9, evaluated on the code: for the schema [def().buffer('magic', new
    Buffer([1, 2]))] and a view on a 2-byte buffer, [writeValues()] writes
    the default and [checkValues()] then fails with an assertion error: the
    block that the getter returns is compared with the default by [==]. *)
Theorem default_block_check_fails (bn : bool) :
  exists (w : world) (view : BufferWrapper),
    build bn no_options magic_decls = Ok w /\
    writeValues bn (wrap (def w) [x00; x00]) = (Ok tt, view) /\
    _buffer view = [x01; x02] /\
    checkValues view bn = (Throw AssertionError, bn).
Proof.
  destruct bn; do 2 eexists; (split; [vm_compute; reflexivity|]);
    (split; [vm_compute; reflexivity|]); split; vm_compute; reflexivity.
Qed.

(** The same round through the view passes for the text field
    [def().string('magic', 'ab')], whose default is kept as a block too: the
    getter returns a text, and [==] compares it with the text of the block. *)
Lemma default_text_check_passes (bn : bool) :
  exists (w : world) (view : BufferWrapper),
    build bn no_options magic_text_decls = Ok w /\
    writeValues bn (wrap (def w) [x00; x00]) = (Ok tt, view) /\
    checkValues view bn = (Ok tt, bn).
Proof.
  destruct bn; do 2 eexists; (split; [vm_compute; reflexivity|]);
    (split; [vm_compute; reflexivity|]); vm_compute; reflexivity.
Qed.

(** ** Layout of a declared schema *)

Lemma sum_sizes_app (l1 l2 : list field) :
  sum_sizes (l1 ++ l2) = sum_sizes l1 + sum_sizes l2.
Proof. induction l1 as [|f l1 IH]; simpl; [|rewrite IH]; lia. Qed.

Lemma consecutive_app (o : Z) (l1 l2 : list field) :
  consecutive o (l1 ++ l2) <-> consecutive o l1 /\ consecutive (o + sum_sizes l1) l2.
Proof.
  revert o. induction l1 as [|f l1 IH]; intros o; simpl.
  - rewrite Z.add_0_r. tauto.
  - rewrite IH. replace (o + f_size f + sum_sizes l1) with (o + (f_size f + sum_sizes l1)) by lia.
    tauto.
Qed.

Lemma consecutive_lookup (o : Z) (fs : list field) (j : nat) (fj : field) :
  consecutive o fs -> fs !! j = Some fj -> f_offset fj = o + sum_sizes (take j fs).
Proof.
  revert o j. induction fs as [|f fs IH]; intros o j Hc Hj; [discriminate|].
  destruct Hc as [Ho Hc]. destruct j as [|j]; simpl in *.
  - injection Hj as <-. lia.
  - rewrite (IH _ _ Hc Hj). lia.
Qed.

Lemma sum_sizes_take_split (fs : list field) (i j : nat) :
  (i <= j)%nat ->
  sum_sizes (take j fs) = sum_sizes (take i fs) + sum_sizes (take (j - i) (drop i fs)).
Proof.
  revert i j. induction fs as [|f fs IH]; intros i j Hij.
  - rewrite !take_nil, drop_nil, take_nil. reflexivity.
  - destruct i as [|i].
    + simpl. rewrite Nat.sub_0_r. reflexivity.
    + destruct j as [|j]; [lia|]. simpl. rewrite (IH i j) by lia. lia.
Qed.

Lemma sum_sizes_insert (fs : list field) (i : nat) (f f' : field) :
  fs !! i = Some f ->
  sum_sizes (<[i := f']> fs) = sum_sizes fs + (f_size f' - f_size f).
Proof.
  revert i. induction fs as [|g fs IH]; intros i Hi; [discriminate|].
  destruct i as [|i]; simpl in *.
  - injection Hi as ->. lia.
  - rewrite (IH i Hi). lia.
Qed.

Lemma fname_eqb_refl (n : fname) : fname_eqb n n = true.
Proof.
  destruct n; simpl; [apply String.eqb_refl|apply Nat.eqb_refl].
Qed.

Lemma fname_eqb_eq (a b : fname) : fname_eqb a b = true -> a = b.
Proof.
  destruct a, b; simpl; try discriminate.
  - intros H. apply String.eqb_eq in H. congruence.
  - intros H. apply Nat.eqb_eq in H. congruence.
Qed.

Lemma find_field_In (g : field) (fs : list field) :
  In g fs -> find_field (f_name g) fs <> None.
Proof.
  intros Hin Hnone. unfold find_field in Hnone.
  pose proof (find_none _ _ Hnone g Hin) as H. simpl in H.
  rewrite fname_eqb_refl in H. discriminate.
Qed.

Lemma find_field_Some (n : fname) (fs : list field) (g : field) :
  find_field n fs = Some g -> In g fs /\ f_name g = n.
Proof.
  intros H. apply find_some in H. destruct H as [Hin Heq].
  split; [exact Hin|]. apply fname_eqb_eq. exact Heq.
Qed.

(** *** Accessor table *)

Lemma assoc_set_same {A} (k : string) (a : A) (l : list (string * A)) :
  assoc k (assoc_set k a l) = Some a.
Proof.
  induction l as [|[k' a'] l IH]; simpl.
  - rewrite String.eqb_refl. reflexivity.
  - destruct (String.eqb k k') eqn:E; simpl.
    + rewrite String.eqb_refl. reflexivity.
    + rewrite E. exact IH.
Qed.

Lemma assoc_set_other {A} (k k' : string) (a : A) (l : list (string * A)) :
  k' <> k -> assoc k' (assoc_set k a l) = assoc k' l.
Proof.
  intros Hne. induction l as [|[k0 a0] l IH]; simpl.
  - destruct (String.eqb k' k) eqn:E; [apply String.eqb_eq in E; congruence|reflexivity].
  - destruct (String.eqb k k0) eqn:E; simpl.
    + apply String.eqb_eq in E. subst k0.
      destruct (String.eqb k' k) eqn:E'; [apply String.eqb_eq in E'; congruence|reflexivity].
    + destruct (String.eqb k' k0); [reflexivity|exact IH].
Qed.

(** *** Registration *)

Lemma fixed_keys_app (l1 l2 : list field) :
  fixed_keys (l1 ++ l2) = fixed_keys l1 ++ fixed_keys l2.
Proof. unfold fixed_keys. rewrite List.filter_app, List.map_app. reflexivity. Qed.

Lemma fixed_keys_In (f : field) (fs : list field) :
  In f fs -> configurable f = false -> In (field_key f) (fixed_keys fs).
Proof.
  intros Hin Hc. unfold fixed_keys. apply in_map. apply filter_In.
  split; [exact Hin|]. rewrite Hc. reflexivity.
Qed.

Lemma In_fixed_keys (k : string) (fs : list field) :
  In k (fixed_keys fs) -> exists f, In f fs /\ configurable f = false /\ field_key f = k.
Proof.
  unfold fixed_keys. intros H. apply in_map_iff in H. destruct H as (f & Hk & Hf).
  apply filter_In in Hf. destruct Hf as [Hin Hc].
  exists f. repeat split; try assumption. destruct (configurable f); [discriminate|reflexivity].
Qed.

Lemma register_cases (g : field) (d : StructDef) :
  accessors (register g d) = accessors d /\
  ((find_field (f_name g) (fields d) <> None /\ register g d = d) \/
   (find_field (f_name g) (fields d) = None /\
    fields (register g d) = fields d ++ [with_offset (size d) g] /\
    size (register g d) = size d + f_size g)).
Proof.
  unfold register. destruct (find_field (f_name g) (fields d)) eqn:E; simpl.
  - split; [reflexivity|]. left. split; [discriminate|reflexivity].
  - split; [reflexivity|]. right. repeat split.
Qed.

Lemma defineProperty_Ok (k : string) (c : bool) (d d' : StructDef) :
  defineProperty k c d = Ok d' ->
  assoc k (accessors d) <> Some false /\
  fields d' = fields d /\ size d' = size d /\ staticSized d' = staticSized d /\
  littleEndian d' = littleEndian d /\ noAssert d' = noAssert d /\
  def_int64mode d' = def_int64mode d /\
  accessors d' = assoc_set k c (accessors d).
Proof.
  unfold defineProperty. intros H.
  destruct (assoc k (accessors d)) as [[|]|]; try discriminate;
    injection H as <-; simpl; repeat split; discriminate.
Qed.

Lemma keys_registered_set (k : string) (c : bool) (fs : list field)
    (acc : list (string * bool)) :
  assoc k acc <> Some false ->
  (forall f, In f fs -> configurable f = false -> assoc (field_key f) acc = Some false) ->
  forall f, In f fs -> configurable f = false ->
            assoc (field_key f) (assoc_set k c acc) = Some false.
Proof.
  intros Hk H f Hin Hc. specialize (H f Hin Hc).
  rewrite assoc_set_other; [exact H|]. intros Heq. rewrite Heq in H. contradiction.
Qed.

(** A successful [field] call keeps the invariants of the schema. *)
Lemma defineField_schema_ok (g : field) (w w' : world) :
  defineField g w = (Ok tt, w') ->
  codec_ok g ->
  schema_ok (def w) ->
  schema_ok (def w').
Proof.
  unfold defineField. intros H Hg [Hl Hs Hc Hk Hn].
  destruct (existsb _ reserved); [discriminate|].
  destruct (defineProperty (key (f_name g)) (configurable g) (register g (def w)))
    as [d'|e] eqn:Ed; [|discriminate].
  injection H as <-. simpl.
  apply defineProperty_Ok in Ed.
  destruct Ed as (Ha & Ef & Es & _ & _ & _ & _ & Eacc).
  destruct (register_cases g (def w)) as [Eracc [[_ Er]|(Hnew & Erf & Ers)]].
  - (* the name is taken: nothing is pushed *)
    rewrite Er in *.
    constructor; try (rewrite ?Ef, ?Es; assumption).
    unfold keys_registered. rewrite Ef, Eacc.
    apply keys_registered_set; assumption.
  - (* a new field is pushed *)
    rewrite Eracc in *.
    constructor.
    + rewrite Ef, Erf. apply consecutive_app. split; [exact Hl|].
      simpl. split; [lia|exact I].
    + rewrite Es, Ers, Ef, Erf, sum_sizes_app. simpl. lia.
    + rewrite Ef, Erf. apply Forall_app. split; [exact Hc|].
      constructor; [exact Hg|constructor].
    + unfold keys_registered. rewrite Ef, Erf, Eacc.
      intros f Hin Hcf. apply in_app_iff in Hin. destruct Hin as [Hin|[<-|[]]].
      * apply (keys_registered_set _ _ (fields (def w))); assumption.
      * unfold field_key. simpl. rewrite assoc_set_same.
        unfold configurable in *. simpl in Hcf. rewrite Hcf. reflexivity.
    + rewrite Ef, Erf, fixed_keys_app. apply NoDup_app. split; [exact Hn|]. split.
      * intros k Hk1 Hk2. apply list_elem_of_In in Hk1, Hk2.
        apply In_fixed_keys in Hk1. destruct Hk1 as (f & Hin & Hcf & <-).
        apply In_fixed_keys in Hk2. destruct Hk2 as (f2 & [<-|[]] & _ & Hkey).
        specialize (Hk f Hin Hcf). unfold field_key in *. simpl in Hkey.
        rewrite Hkey in Ha. contradiction.
      * unfold fixed_keys. simpl.
        destruct (negb (configurable (with_offset (size (def w)) g))); simpl.
        -- apply NoDup_singleton.
        -- apply NoDup_nil_2.
Qed.

(** *** The definers keep the invariants *)

(** An override object changes neither the type nor the codec of a field. *)
Lemma apply_overrides_inv (o : overrides) (f : field) :
  (exists f', apply_overrides o f = Ok f' /\
              f_type f' = f_type f /\ f_read f' = f_read f /\
              f_write f' = f_write f /\ f_sizeFieldName f' = f_sizeFieldName f /\
              f_offset f' = f_offset f) \/
  apply_overrides o f = Throw OutsideModel.
Proof.
  unfold apply_overrides. destruct (o_others o); [left|right; reflexivity].
  eexists. split; [reflexivity|]. repeat split.
Qed.

Lemma int_arg_codec (a : arg) (f f' : field) :
  int_arg a f = Ok f' ->
  f_type f' = f_type f /\ f_read f' = f_read f /\ f_write f' = f_write f /\
  f_sizeFieldName f' = f_sizeFieldName f.
Proof.
  unfold int_arg. destruct a as [v|o].
  - destruct (negb (truthy v)).
    + intros H. injection H as <-. repeat split.
    + destruct v; try discriminate; intros H; injection H as <-; repeat split.
  - intros H. destruct (apply_overrides_inv o f) as [[f1 [E ?]]|E];
      rewrite E in H; [|discriminate].
    injection H as <-. tauto.
Qed.

Lemma int_args_codec (args : list arg) (f f' : field) :
  int_args args f = Ok f' ->
  f_type f' = f_type f /\ f_read f' = f_read f /\ f_write f' = f_write f /\
  f_sizeFieldName f' = f_sizeFieldName f.
Proof.
  revert f. induction args as [|a args IH]; intros f H; simpl in H.
  - injection H as <-. repeat split.
  - destruct (int_arg a f) as [f1|] eqn:E; [|discriminate].
    apply int_arg_codec in E. apply IH in H.
    destruct E as (E1 & E2 & E3 & E4). destruct H as (H1 & H2 & H3 & H4).
    repeat split; congruence.
Qed.

Lemma forEach_preserves {S A : Type} (P : S -> Prop) (cb : A -> M S unit) (l : list A) :
  (forall x s s', cb x s = (Ok tt, s') -> P s -> P s') ->
  forall s s', forEach l cb s = (Ok tt, s') -> P s -> P s'.
Proof.
  intros Hcb. induction l as [|x l IH]; intros s s' H Hs; simpl in H.
  - injection H as <-. exact Hs.
  - unfold bind in H. destruct (cb x s) as [[[]|e] s1] eqn:E; [|discriminate].
    apply (IH s1 s' H). apply (Hcb x s s1 E Hs).
Qed.

Lemma defineIntField_schema_ok (t : ftype) (z : Z) (r : reader) (wr : writer)
    (args : list arg) (w w' : world) :
  (forall f, f_type f = t -> f_read f = Some r -> f_write f = Some wr -> codec_ok f) ->
  defineIntField t z r wr args w = (Ok tt, w') ->
  schema_ok (def w) -> schema_ok (def w').
Proof.
  unfold defineIntField, bind, get, lift. intros Hc H Hok.
  match type of H with
  | context [int_args args ?f0] => destruct (int_args args f0) as [f|] eqn:E
  end; [|discriminate].
  apply (defineField_schema_ok f w w' H); [|exact Hok].
  apply int_args_codec in E. destruct E as (Et & Er & Ew & Es).
  apply Hc; assumption.
Qed.

Lemma intDefiner_schema_ok (b : bits) (signed le : bool) (args : list arg)
    (w w' : world) :
  intDefiner b signed le args w = (Ok tt, w') ->
  schema_ok (def w) -> schema_ok (def w').
Proof.
  unfold intDefiner. apply defineIntField_schema_ok.
  intros f Et Er Ew. unfold codec_ok. rewrite Et, Er, Ew. intros _ Hn.
  destruct b; simpl in *; try (split; reflexivity). lia.
Qed.

Lemma floatDefiner_schema_ok (double le : bool) (args : list arg) (w w' : world) :
  floatDefiner double le args w = (Ok tt, w') ->
  schema_ok (def w) -> schema_ok (def w').
Proof.
  unfold floatDefiner. apply defineIntField_schema_ok.
  intros f Et Er Ew. unfold codec_ok. rewrite Et, Er, Ew. intros _.
  split; reflexivity.
Qed.

Lemma defineStringField_schema_ok (n : fname) (a : arg) (w w' : world) :
  defineStringField n a w = (Ok tt, w') ->
  schema_ok (def w) -> schema_ok (def w').
Proof.
  unfold defineStringField, bind, get. intros H Hok.
  destruct a as [v|o].
  - destruct v as [| |b|[z|m e| | |]|s|bs|z]; try discriminate;
      try (apply (defineField_schema_ok _ _ _ H); [|exact Hok];
           unfold codec_ok; simpl; intros _; split; reflexivity).
    destruct (find_field (Named s) (fields (def w))).
    + unfold modify_def in H. simpl in H.
      apply (defineField_schema_ok _ _ _ H).
      * unfold codec_ok. simpl. discriminate.
      * destruct Hok. constructor; assumption.
    + apply (defineField_schema_ok _ _ _ H); [|exact Hok].
      unfold codec_ok; simpl; intros _; split; reflexivity.
  - unfold lift in H.
    match type of H with
    | context [apply_overrides o ?f0] =>
        destruct (apply_overrides_inv o f0) as [[f' [E [Et _]]]|E]; rewrite E in H
    end; [|discriminate].
    apply (defineField_schema_ok _ _ _ H); [|exact Hok].
    unfold codec_ok; simpl; rewrite Et; intros _; split; reflexivity.
Qed.

Lemma defineBufferField_schema_ok (n : fname) (a : arg) (w w' : world) :
  defineBufferField n a w = (Ok tt, w') ->
  schema_ok (def w) -> schema_ok (def w').
Proof.
  unfold defineBufferField. intros H Hok.
  destruct a as [v|o].
  - destruct v as [| |b|[z|m e| | |]|s|bs|z]; try discriminate;
      apply (defineField_schema_ok _ _ _ H); try exact Hok;
      unfold codec_ok; simpl; intros _; split; reflexivity.
  - unfold bind, lift in H.
    match type of H with
    | context [apply_overrides o ?f0] =>
        destruct (apply_overrides_inv o f0) as [[f' [E [Et _]]]|E]; rewrite E in H
    end; [|discriminate].
    apply (defineField_schema_ok _ _ _ H); [|exact Hok].
    unfold codec_ok; simpl; rewrite Et; intros _; split; reflexivity.
Qed.

Lemma declare_schema_ok (d : decl) (w w' : world) :
  declare d w = (Ok tt, w') -> schema_ok (def w) -> schema_ok (def w').
Proof.
  destruct d as [b signed [le|] args|double [le|] args|n a|n a]; simpl.
  - apply intDefiner_schema_ok.
  - unfold defineIntFieldDefaultEndian, bind, get. apply intDefiner_schema_ok.
  - apply floatDefiner_schema_ok.
  - unfold defineIntFieldDefaultEndian, bind, get. apply floatDefiner_schema_ok.
  - apply defineStringField_schema_ok.
  - apply defineBufferField_schema_ok.
Qed.

(** Every declared schema satisfies the invariants. *)
Lemma build_schema_ok (bn : bool) (opts : option options) (ds : list decl) (w : world) :
  build bn opts ds = Ok w -> schema_ok (def w).
Proof.
  unfold build. intros H.
  destruct (createNewStructDef opts bn) as [[d|e] bn'] eqn:Ec; [|discriminate].
  destruct (forEach ds declare (World bn' d)) as [[[]|e] w1] eqn:Ef; [|discriminate].
  injection H as <-.
  apply (forEach_preserves (fun w => schema_ok (def w)) declare ds declare_schema_ok _ _ Ef).
  simpl.
  assert (Hd : fields d = [] /\ size d = 0).
  { unfold createNewStructDef in Ec. destruct opts as [o|].
    - destruct (opt_int64mode o) as [m|].
      + unfold bind in Ec. destruct (validateInt64Mode m bn) as [[[]|] ?]; [|discriminate].
        injection Ec as <- _. split; reflexivity.
      + injection Ec as <- _. split; reflexivity.
    - injection Ec as <- _. split; reflexivity. }
  destruct Hd as [Hf Hs].
  constructor; unfold keys_registered, fixed_keys; rewrite ?Hf, ?Hs; simpl.
  - exact I.
  - reflexivity.
  - constructor.
  - intros f [].
  - apply NoDup_nil_2.
Qed.

(** *** Resolution of the deferred field *)

Lemma find_deferred_spec (fs : list field) (k i : nat) (f : field) (s : string) :
  find_deferred k fs = Some (i, f, s) ->
  exists j, i = (k + j)%nat /\ fs !! j = Some f /\ f_sizeFieldName f = Some s.
Proof.
  revert k. induction fs as [|g fs IH]; intros k H; simpl in H; [discriminate|].
  destruct (f_sizeFieldName g) as [s'|] eqn:E.
  - injection H as <- <- <-. exists 0%nat. repeat split; [lia|exact E].
  - apply IH in H. destruct H as (j & -> & Hj & Hs).
    exists (S j). repeat split; [lia|exact Hj|exact Hs].
Qed.

Lemma defineField_name_taken (g : field) (w w' : world) (r : result unit) :
  defineField g w = (r, w') ->
  find_field (f_name g) (fields (def w)) <> None ->
  fields (def w') = fields (def w) /\ size (def w') = size (def w) /\
  staticSized (def w') = staticSized (def w) /\ BigNumber w' = BigNumber w.
Proof.
  unfold defineField. intros H Hf.
  destruct (existsb _ reserved).
  - injection H as _ <-. repeat split.
  - destruct (register_cases g (def w)) as [_ [[_ Er]|[Hnone _]]]; [|contradiction].
    rewrite Er in H.
    destruct (defineProperty (key (f_name g)) (configurable g) (def w)) as [d'|e] eqn:Ed.
    + injection H as _ <-. simpl. apply defineProperty_Ok in Ed.
      destruct Ed as (_ & Ef & Es & Est & _). repeat split; assumption.
    + injection H as _ <-. repeat split.
Qed.

Lemma resolve_fields (i : nat) (f : field) (z : Z) (w w' : world) (r : result field) :
  resolve i f z w = (r, w') ->
  fields (def w) !! i = Some f ->
  fields (def w')
  = <[i := with_codec (StringReader z) (StringWriter z) (with_size z f)]> (fields (def w)) /\
  size (def w') = size (def w) + (z - f_size f) /\
  staticSized (def w') = staticSized (def w) /\
  BigNumber w' = BigNumber w /\
  (forall f', r = Ok f' -> f' = with_codec (StringReader z) (StringWriter z) (with_size z f)).
Proof.
  unfold resolve, bind, modify_def. intros H Hi.
  set (f' := with_codec (StringReader z) (StringWriter z) (with_size z f)) in *.
  match type of H with
  | context [defineField f' ?w1] => destruct (defineField f' w1) as [r1 w2] eqn:Ef
  end.
  apply defineField_name_taken in Ef.
  - simpl in Ef. destruct Ef as (Ef1 & Ef2 & Ef3 & Ef4).
    destruct r1 as [[]|e]; unfold ret in H; injection H as <- <-;
      repeat split; try assumption; try congruence.
  - simpl. apply (find_field_In f').
    apply list_elem_of_In. apply list_elem_of_lookup. exists i.
    apply list_lookup_insert_eq. apply lookup_lt_Some in Hi. exact Hi.
Qed.

Lemma prefix_sums_upto_insert (fs : list field) (i : nat) (f f' : field) :
  fs !! i = Some f ->
  f_sizeFieldName f' <> None ->
  f_offset f' = f_offset f ->
  prefix_sums_upto fs -> prefix_sums_upto (<[i := f']> fs).
Proof.
  intros Hi Hd Ho Hp j fj Hj Hfix.
  assert (Hlt : (i < length fs)%nat) by (apply lookup_lt_Some in Hi; exact Hi).
  assert (Hji : (j <= i)%nat).
  { destruct (Nat.le_gt_cases j i) as [|Hgt]; [assumption|].
    exfalso. apply Hd. apply (Hfix i f' Hgt). apply list_lookup_insert_eq. exact Hlt. }
  rewrite take_insert_ge by exact Hji.
  assert (Hfix' : fixed_before j fs).
  { intros k fk Hk Hfk. apply (Hfix k fk Hk).
    rewrite list_lookup_insert_ne by lia. exact Hfk. }
  destruct (Nat.eq_dec j i) as [->|Hne].
  - rewrite list_lookup_insert_eq in Hj by exact Hlt. injection Hj as <-.
    rewrite Ho. apply Hp; assumption.
  - rewrite list_lookup_insert_ne in Hj by lia. apply Hp; assumption.
Qed.

Lemma layout_resolved_resolve (i : nat) (f : field) (z : Z) (w w' : world)
    (r : result field) :
  resolve i f z w = (r, w') ->
  fields (def w) !! i = Some f ->
  f_sizeFieldName f <> None ->
  layout_resolved (def w) -> layout_resolved (def w').
Proof.
  intros H Hi Hd [Hp Hs]. apply resolve_fields in H; [|exact Hi].
  destruct H as (Ef & Es & _). unfold layout_resolved. rewrite Ef, Es. split.
  - apply (prefix_sums_upto_insert _ _ f); try assumption; reflexivity.
  - rewrite (sum_sizes_insert _ _ f) by exact Hi. simpl. lia.
Qed.

Lemma schema_ok_layout_resolved (d : StructDef) : schema_ok d -> layout_resolved d.
Proof.
  intros [Hl Hs _ _ _]. split; [|exact Hs].
  intros j fj Hj _. rewrite (consecutive_lookup 0 _ _ _ Hl Hj). lia.
Qed.

Lemma resolveForPack_layout (data : record) (w w' : world) (r : result unit) :
  resolveForPack data w = (r, w') ->
  layout_resolved (def w) -> layout_resolved (def w').
Proof.
  unfold resolveForPack, bind, get. intros H Hl.
  destruct (staticSized (def w)).
  - injection H as _ <-. exact Hl.
  - destruct (find_deferred 0 (fields (def w))) as [[[i vf] s]|] eqn:Ed.
    + apply find_deferred_spec in Ed. destruct Ed as (j & -> & Hj & Hs). simpl in *.
      destruct (find_field (Named s) (fields (def w))) as [sf|].
      * destruct (field_value data sf) as [| | |[z|? ?| | |]| | |];
          try (injection H as _ <-; exact Hl).
        destruct (resolve j vf z w) as [[f1|e] w1] eqn:Er; unfold ret in H;
          injection H as _ <-;
          apply (layout_resolved_resolve _ _ _ _ _ _ Er Hj); try assumption; congruence.
      * injection H as _ <-. exact Hl.
    + injection H as _ <-. exact Hl.
Qed.

Lemma pack_world (data : option record) (buf : option Buffer.t) (offset : option Z)
    (noAssert_ : option bool) (w w' : world) (r : result Buffer.t)
    (ob : option Buffer.t) :
  pack data buf offset noAssert_ w = (r, (w', ob)) ->
  exists r0, resolveForPack (match data with Some d => d | None => ∅ end) w = (r0, w').
Proof.
  unfold pack. intros H.
  destruct (resolveForPack _ w) as [[[]|e] w1].
  - destruct (match buf with Some b => Ok b | None => _ end) as [b|e].
    + destruct (forEach _ _ b) as [[[]|e] b']; injection H as _ <- _; eexists; reflexivity.
    + injection H as _ <- _. eexists; reflexivity.
  - injection H as _ <- _. eexists; reflexivity.
Qed.

Lemma readField_layout (buf : Buffer.t) (offset : Z) (noAssert_ : bool)
    (data : record) (i : nat) (f : field) (w w' : world) (r : result record) :
  readField buf offset noAssert_ data i f w = (r, w') ->
  fields (def w) !! i = Some f ->
  (layout_resolved (def w) -> layout_resolved (def w')) /\
  drop (S i) (fields (def w')) = drop (S i) (fields (def w)).
Proof.
  unfold readField, bind. intros H Hi.
  assert (Hread : forall (g : field) (w1 : world),
    (match f_read g with
     | Some readImpl =>
         fun s => match get s with
                  | (Ok w0, s') =>
                      (fun s0 => match onBigNumber
                          (apply_reader readImpl buf (offset + f_offset g) noAssert_
                             (Some (def_int64mode (def w0))) (f_int64mode g)) s0 with
                        | (Ok fieldValue, s1) =>
                            match f_name g with
                            | Named s2 => ret (<[s2 := fieldValue]> data)
                            | Positional _ => ret data
                            end s1
                        | (Throw e, s1) => (Throw e, s1)
                        end) s'
                  | (Throw e, s') => (Throw e, s')
                  end
     | None => ret data
     end) w1 = (r, w') -> def w' = def w1).
  { intros g w1 Hg. destruct (f_read g) as [rd|].
    - unfold get, onBigNumber in Hg.
      destruct (apply_reader rd buf _ noAssert_ _ _ (BigNumber w1)) as [[v|e] b].
      + destruct (f_name g); unfold ret in Hg; injection Hg as _ <-; reflexivity.
      + injection Hg as _ <-. reflexivity.
    - unfold ret in Hg. injection Hg as _ <-. reflexivity. }
  destruct (f_sizeFieldName f) as [s|] eqn:Es.
  - destruct (String.eqb s "").
    + unfold ret in H at 1. apply Hread in H. rewrite H. split; [tauto|reflexivity].
    + destruct (data !! s) as [[| | |[z|? ?| | |]| | |]|];
        try (unfold throw in H; injection H as _ <-; split; [tauto|reflexivity]).
      destruct (resolve i f z w) as [[f1|e] w1] eqn:Er.
      * apply Hread in H. rewrite H. split.
        -- intros Hl. apply (layout_resolved_resolve _ _ _ _ _ _ Er Hi); [congruence|exact Hl].
        -- apply resolve_fields in Er; [|exact Hi]. destruct Er as (-> & _).
           apply drop_insert_lt. lia.
      * injection H as _ <-. split.
        -- intros Hl. apply (layout_resolved_resolve _ _ _ _ _ _ Er Hi); [congruence|exact Hl].
        -- apply resolve_fields in Er; [|exact Hi]. destruct Er as (-> & _).
           apply drop_insert_lt. lia.
  - unfold ret in H at 1. apply Hread in H. rewrite H. split; [tauto|reflexivity].
Qed.

Lemma drop_cons_lookup {A} (l : list A) (i : nat) (x : A) (l' : list A) :
  drop i l = x :: l' -> l !! i = Some x /\ drop (S i) l = l'.
Proof.
  intros H. assert (Hx : l !! i = Some x).
  { rewrite <- (Nat.add_0_r i), <- lookup_drop, H. reflexivity. }
  split; [exact Hx|]. rewrite (drop_S _ _ _ Hx) in H. congruence.
Qed.

Lemma readFields_layout (buf : Buffer.t) (offset : Z) (noAssert_ : bool)
    (fs : list field) :
  forall (data : record) (i : nat) (w w' : world) (r : result record),
    readFields buf offset noAssert_ data i fs w = (r, w') ->
    drop i (fields (def w)) = fs ->
    layout_resolved (def w) -> layout_resolved (def w').
Proof.
  induction fs as [|f fs IH]; intros data i w w' r H Hd Hl; simpl in H.
  - unfold ret in H. injection H as _ <-. exact Hl.
  - apply drop_cons_lookup in Hd. destruct Hd as [Hi Hd].
    unfold bind in H.
    destruct (readField buf offset noAssert_ data i f w) as [[data'|e] w1] eqn:E;
      apply readField_layout in E; try exact Hi; destruct E as [E1 E2].
    + apply (IH _ _ _ _ _ H); [congruence|auto].
    + injection H as _ <-. auto.
Qed.

(** X23: in every declared schema the size is the sum of the sizes of the
    fields and the offset of field [j] is the offset of an earlier field
    [i] plus the sizes of the fields from [i] up to [j] (so the offset of a
    field is the sum of the sizes of all earlier fields, a deferred field
    counting with the size 0 that it is registered with).  After [pack] or
    [unpack], whatever they return, the size of the schema is again the sum
    of the sizes, and the offset of every field that only has fixed-size
    fields before it is the sum of the sizes of those fields. *)
Theorem offsets_sum_of_earlier_sizes (bn : bool) (opts : option options)
    (ds : list decl) (w : world) :
  build bn opts ds = Ok w ->
  (size (def w) = sum_sizes (fields (def w)) /\
   forall (i j : nat) (fi fj : field),
     (i <= j)%nat ->
     fields (def w) !! i = Some fi -> fields (def w) !! j = Some fj ->
     f_offset fj = f_offset fi + sum_sizes (take (j - i) (drop i (fields (def w))))) /\
  (forall data buf offset noAssert_ r w' ob,
     pack data buf offset noAssert_ w = (r, (w', ob)) -> layout_resolved (def w')) /\
  (forall buf offset noAssert_ r w',
     unpack buf offset noAssert_ w = (r, w') -> layout_resolved (def w')).
Proof.
  intros Hb. pose proof (build_schema_ok _ _ _ _ Hb) as Hok.
  pose proof (schema_ok_layout_resolved _ Hok) as Hlr.
  destruct Hok as [Hl Hs _ _ _]. repeat split.
  - exact Hs.
  - intros i j fi fj Hij Hi Hj.
    rewrite (consecutive_lookup 0 _ _ _ Hl Hi), (consecutive_lookup 0 _ _ _ Hl Hj).
    rewrite (sum_sizes_take_split _ i j Hij). lia.
  - apply pack_world in H. destruct H as [r0 H].
    apply (resolveForPack_layout _ _ _ _ H Hlr).
  - apply pack_world in H. destruct H as [r0 H].
    apply (resolveForPack_layout _ _ _ _ H Hlr).
  - unfold unpack, bind, get in H.
    apply (readFields_layout _ _ _ _ _ _ _ _ _ H); [reflexivity|exact Hlr].
  - unfold unpack, bind, get in H.
    apply (readFields_layout _ _ _ _ _ _ _ _ _ H); [reflexivity|exact Hlr].
Qed.

Lemma offsets_sum_of_earlier_sizes_witness :
  exists w, build false no_options three_bytes_decls = Ok w /\
            size (def w) = sum_sizes (fields (def w)).
Proof.
  eexists. split; [vm_compute; reflexivity|].
  refine (proj1 (proj1 (offsets_sum_of_earlier_sizes false no_options
                          three_bytes_decls _ _))).
  vm_compute. reflexivity.
Defined.

(** C3, evaluated on the code: once a deferred field is resolved, the
    offsets of the fields after it are not the sums of the sizes before
    them.  For
    [def().uint8('len').string('text', 'len').uint8('tail')] the declared
    sizes are 1, 0, 1 and the offsets 0, 1, 1.  [pack] of
    {len: 3, text: 'abc', tail: 9} resolves the text to 3 bytes and the
    schema to 5 bytes, and leaves the offsets as they were: [tail] stays at
    offset 1, where the text starts, and not at 1 + 3 = 4.  The buffer is
    03 09 62 63 00: the byte of [tail] lies over the first character of the
    text, and [unpack] reads the text back as a tab followed by "bc". *)
Theorem offsets_stale_after_resolution :
  exists (w w1 : world) (b : Buffer.t),
    build false no_options text_then_tail_decls = Ok w /\
    map f_size (fields (def w)) = [1; 0; 1] /\
    map f_offset (fields (def w)) = [0; 1; 1] /\
    offsets_prefix_sums (fields (def w)) /\
    pack (Some text_then_tail_data) None None None w = (Ok b, (w1, Some b)) /\
    map f_size (fields (def w1)) = [1; 3; 1] /\
    map f_offset (fields (def w1)) = [0; 1; 1] /\
    size (def w1) = 5 /\
    ~ offsets_adjacent (fields (def w1)) /\
    ~ offsets_prefix_sums (fields (def w1)) /\
    b = [x03; x09; x62; x63; x00] /\
    unpack b None None w1
    = (Ok (<["text"%string := VString (string_of_list_byte [x09; x62; x63])]>
             text_then_tail_data), w1).
Proof.
  do 3 eexists. split; [vm_compute; reflexivity|].
  split; [vm_compute; reflexivity|]. split; [vm_compute; reflexivity|].
  split.
  { intros [|[|[|j]]] fj Hj; vm_compute in Hj; try discriminate;
      injection Hj as <-; vm_compute; reflexivity. }
  split; [vm_compute; reflexivity|].
  split; [vm_compute; reflexivity|]. split; [vm_compute; reflexivity|].
  split; [vm_compute; reflexivity|].
  split.
  { intros H. specialize (H 1%nat _ _ eq_refl eq_refl). vm_compute in H. discriminate. }
  split.
  { intros H. specialize (H 2%nat _ eq_refl). vm_compute in H. discriminate. }
  split; [vm_compute; reflexivity|].
  vm_compute. reflexivity.
Qed.

(** ** pack: allocation, order of the writes, values and result *)

Lemma keeps_length_ret : keeps_length (ret tt).
Proof. intros b b' r H. injection H as _ <-. reflexivity. Qed.

Lemma keeps_length_throw (e : error) : keeps_length (throw e).
Proof. intros b b' r H. injection H as _ <-. reflexivity. Qed.

Lemma keeps_length_bind (m : M Buffer.t unit) (k : unit -> M Buffer.t unit) :
  keeps_length m -> (forall u, keeps_length (k u)) -> keeps_length (bind m k).
Proof.
  intros Hm Hk b b' r H. unfold bind in H.
  destruct (m b) as [[u|e] b1] eqn:E.
  - apply Hk in H. apply Hm in E. congruence.
  - injection H as _ <-. apply Hm in E. exact E.
Qed.

Lemma length_splice (b : Buffer.t) (off : Z) (bs : list byte) :
  0 <= off -> off + Z.of_nat (length bs) <= Buffer.len b ->
  length (Buffer.splice b off bs) = length b.
Proof.
  unfold Buffer.splice, Buffer.len. intros H0 H1.
  rewrite !length_app, length_take, length_drop. lia.
Qed.

Lemma keeps_length_fill0 (s e : Z) : keeps_length (Buffer.fill0 s e).
Proof.
  intros b b' r H. unfold Buffer.fill0 in H.
  destruct ((s <? 0) || (e <? 0) || (Buffer.len b <? e)) eqn:E1.
  - injection H as _ <-. reflexivity.
  - destruct (e <=? s) eqn:E2; injection H as _ <-; [reflexivity|].
    apply orb_false_iff in E1. destruct E1 as [E1 E3].
    apply orb_false_iff in E1. destruct E1 as [E1 E4].
    apply Z.ltb_ge in E1, E3, E4. apply Z.leb_gt in E2.
    apply length_splice; [lia|]. rewrite repeat_length. lia.
Qed.

(** The characters that [Buffer.write] writes: at most the bytes that fit,
    all of the text when it fits, and the bytes that fit when the text is
    ASCII. *)
Lemma length_drop_while {A} (p : A -> bool) (l : list A) :
  (length (Buffer.drop_while p l) <= length l)%nat.
Proof.
  induction l as [|x l IH]; simpl; [lia|]. destruct (p x); simpl; lia.
Qed.

Lemma length_whole_chars (n : nat) (bs : list byte) :
  (length (Buffer.whole_chars n bs) <= n)%nat.
Proof.
  unfold Buffer.whole_chars.
  destruct (drop n bs) as [|b ?]; [rewrite length_take; lia|].
  destruct (continuation b); [|rewrite length_take; lia].
  rewrite length_rev, length_drop.
  pose proof (length_drop_while continuation (rev (take n bs))) as H.
  rewrite length_rev, length_take in H. lia.
Qed.

Lemma whole_chars_fits (n : nat) (bs : list byte) :
  (length bs <= n)%nat -> Buffer.whole_chars n bs = bs.
Proof.
  intros H. unfold Buffer.whole_chars.
  rewrite drop_ge by exact H. apply take_ge. exact H.
Qed.

Lemma whole_chars_ascii (n : nat) (bs : list byte) :
  Forall (fun b => byte_val b < 128) bs -> Buffer.whole_chars n bs = take n bs.
Proof.
  intros H. unfold Buffer.whole_chars.
  destruct (drop n bs) as [|b l] eqn:E; [reflexivity|].
  assert (Hb : byte_val b < 128).
  { rewrite <- (take_drop n bs), E in H. apply List.Forall_app in H.
    destruct H as [_ H]. apply List.Forall_inv in H. exact H. }
  unfold continuation. unfold byte_val in Hb.
  destruct (Z.leb_spec 128 (Z.of_N (Byte.to_N b))); [lia|reflexivity].
Qed.

Lemma keeps_length_write (s : string) (o : Z) : keeps_length (Buffer.write s o).
Proof.
  intros b b' r H. unfold Buffer.write in H.
  destruct ((o <? 0) || (Buffer.len b <? o)) eqn:E1; injection H as _ <-; [reflexivity|].
  apply orb_false_iff in E1. destruct E1 as [E1 E2]. apply Z.ltb_ge in E1, E2.
  apply length_splice; [lia|].
  pose proof (length_whole_chars (Z.to_nat (Buffer.len b - o)) (list_byte_of_string s)).
  lia.
Qed.

Lemma keeps_length_copy (src : Buffer.t) (o : Z) : keeps_length (Buffer.copy src o).
Proof.
  intros b b' r H. unfold Buffer.copy in H.
  destruct (o <? 0) eqn:E1; [injection H as _ <-; reflexivity|].
  destruct (Buffer.len b <=? o) eqn:E2; injection H as _ <-; [reflexivity|].
  apply Z.ltb_ge in E1. apply Z.leb_gt in E2.
  apply length_splice; [lia|]. rewrite length_take. lia.
Qed.

Lemma length_encode_le (n : nat) (z : Z) : length (encode_le n z) = n.
Proof. revert z. induction n as [|n IH]; intros z; simpl; [|rewrite IH]; reflexivity. Qed.

Lemma length_encode_be (n : nat) (z : Z) : length (encode_be n z) = n.
Proof. unfold encode_be. rewrite length_rev. apply length_encode_le. Qed.

Lemma keeps_length_store (p : Buffer.prim) (z o : Z) : keeps_length (Buffer.store p z o).
Proof.
  intros b b' r H. unfold Buffer.store in H.
  destruct ((o <? 0) || (Buffer.len b <? o + Buffer.width p)) eqn:E1;
    injection H as _ <-; [reflexivity|].
  apply orb_false_iff in E1. destruct E1 as [E1 E2]. apply Z.ltb_ge in E1, E2.
  unfold Buffer.width in E2.
  apply length_splice; [lia|].
  destruct (Buffer.p_le p); rewrite ?length_encode_le, ?length_encode_be; lia.
Qed.

Lemma keeps_length_write_int (p : Buffer.prim) (v : value) (o : Z) :
  keeps_length (Buffer.write_int p v o).
Proof.
  unfold Buffer.write_int.
  destruct (Buffer.ToNumber v) as [[z|? ?| | |]|];
    try apply keeps_length_throw; try apply keeps_length_store.
  destruct ((z <? Buffer.p_min p) || (Buffer.p_max p <? z));
    [apply keeps_length_throw|apply keeps_length_store].
Qed.

Lemma keeps_length_write_float (double le : bool) (v : value) (o : Z) :
  keeps_length (Buffer.write_float double le v o).
Proof.
  unfold Buffer.write_float.
  destruct (Buffer.ToNumber v) as [[z|m e| | |]|];
    try apply keeps_length_throw; try apply keeps_length_store;
    match goal with
    | |- context [if ?c then _ else _] => destruct c
    end; try apply keeps_length_throw; apply keeps_length_store.
Qed.

Lemma keeps_length_apply_writer (wr : writer) (bn : bool) (v : value) (o : Z)
    (na : bool) : keeps_length (apply_writer wr bn v o na).
Proof.
  destruct wr as [p|double fle|signed le|sz|sz]; simpl.
  - apply keeps_length_write_int.
  - apply keeps_length_write_float.
  - unfold writeInt64.
    assert (Hhl : forall hi lo, keeps_length
      (if le
       then bind (Buffer.write_int (Buffer.UInt32 true) (VNumber (Fin hi)) (o + 4))
                 (fun _ => Buffer.write_int (Buffer.UInt32 true) (VNumber (Fin lo)) (o + 0))
       else bind (Buffer.write_int (Buffer.UInt32 false) (VNumber (Fin hi)) (o + 0))
                 (fun _ => Buffer.write_int (Buffer.UInt32 false) (VNumber (Fin lo)) (o + 4)))).
    { intros hi lo. destruct le; apply keeps_length_bind;
        try (intros; apply keeps_length_write_int); apply keeps_length_write_int. }
    destruct v; try apply keeps_length_ret.
    + destruct bn; [apply Hhl|apply keeps_length_throw].
    + destruct (negb (Buffer.len b =? 8)); [apply keeps_length_throw|apply keeps_length_copy].
    + destruct bn; [|apply keeps_length_ret].
      destruct (z <? 0); [apply keeps_length_throw|apply Hhl].
  - unfold writeString. destruct v; try apply keeps_length_ret.
    + apply keeps_length_bind; [apply keeps_length_fill0|intros; apply keeps_length_write].
    + destruct (negb (Buffer.len b =? sz)); [apply keeps_length_throw|apply keeps_length_copy].
  - unfold writebuffer. destruct v; try apply keeps_length_ret.
    destruct (negb (Buffer.len b =? sz)); [apply keeps_length_throw|apply keeps_length_copy].
Qed.

Lemma keeps_length_forEach {A} (l : list A) (cb : A -> M Buffer.t unit) :
  (forall x, keeps_length (cb x)) -> keeps_length (forEach l cb).
Proof.
  intros Hcb. induction l as [|x l IH]; simpl.
  - apply keeps_length_ret.
  - apply keeps_length_bind; [apply Hcb|intros; exact IH].
Qed.

Lemma keeps_length_write_fields (pick : field -> value) (bn : bool) (o : Z)
    (na : bool) (fs : list field) : keeps_length (write_fields pick bn o na fs).
Proof.
  apply keeps_length_forEach. intros f.
  destruct (f_write f); [apply keeps_length_apply_writer|apply keeps_length_ret].
Qed.

Lemma forEach_ext {S A} (l : list A) (cb cb' : A -> M S unit) :
  (forall x s, cb x s = cb' x s) -> forall s, forEach l cb s = forEach l cb' s.
Proof.
  intros H. induction l as [|x l IH]; intros s; simpl; [reflexivity|].
  unfold bind. rewrite H. destruct (cb' x s) as [[u|e] s1]; [apply IH|reflexivity].
Qed.

(** The value that [pack] hands to a writer is the selected value, and the
    number 0 in its place when the selected value is falsy. *)
Lemma field_value_selected (data : record) (f : field) :
  field_value data f = or0 (selected data f).
Proof.
  unfold field_value, selected.
  destruct (data !! key (f_name f)); [reflexivity|].
  destruct (f_value f); reflexivity.
Qed.

Lemma pack_pack_with (data : option record) (buf : option Buffer.t)
    (offset : option Z) (noAssert_ : option bool) (w : world) :
  pack data buf offset noAssert_ w
  = pack_with (fun d f => or0 (selected d f)) data buf offset noAssert_ w.
Proof.
  unfold pack, pack_with.
  destruct (resolveForPack _ w) as [[[]|e] w1]; [|reflexivity].
  destruct (match buf with Some b => Ok b | None => _ end) as [b|e]; [|reflexivity].
  unfold write_fields.
  rewrite (forEach_ext _ _ (fun f =>
             match f_write f with
             | Some wr => apply_writer wr (BigNumber w1)
                            (or0 (selected (match data with Some d => d | None => ∅ end) f))
                            (match offset with Some z => z | None => 0 end + f_offset f)
                            (match noAssert_ with Some b0 => b0 | None => noAssert (def w1) end)
             | None => ret tt
             end)); [reflexivity|].
  intros f s. unfold writeField. rewrite field_value_selected. reflexivity.
Qed.

Lemma resolveForPack_idempotent_static (data : record) (w w' : world) :
  resolveForPack data w = (Ok tt, w') -> staticSized (def w) = true -> w' = w.
Proof.
  unfold resolveForPack, bind, get. intros H Hs. rewrite Hs in H.
  injection H as <-. reflexivity.
Qed.

(** C6, as the code has it: [pack] is the pack of section 4.4 with the number
    0 written in place of a falsy selected value.  Without a destination
    buffer it allocates a zero-initialised buffer of the resolved size plus
    the offset; it writes every field in declaration order with [data[name]]
    when the key is present, else with the declared default, else with zero,
    where a value that is falsy counts as zero; it returns the buffer it
    used, whose length no write changes. *)
Theorem pack_allocates_writes_returns (data : option record) (buf : option Buffer.t)
    (offset : option Z) (noAssert_ : option bool) (w : world) :
  pack data buf offset noAssert_ w
  = pack_with (fun d f => or0 (selected d f)) data buf offset noAssert_ w /\
  (forall d f, truthy (selected d f) = true -> or0 (selected d f) = selected d f) /\
  (forall d f, truthy (selected d f) = false -> or0 (selected d f) = VNumber (Fin 0)) /\
  forall (r : result Buffer.t) (w' : world) (ob : option Buffer.t),
    pack data buf offset noAssert_ w = (r, (w', ob)) ->
    (forall b, r = Ok b -> ob = Some b) /\
    (forall b0 b, buf = Some b0 -> ob = Some b -> length b = length b0) /\
    (forall b, buf = None -> ob = Some b ->
       Buffer.len b = size (def w') + match offset with Some z => z | None => 0 end /\
       pack data (Some (repeat x00 (length b))) offset noAssert_ w = (r, (w', ob))).
Proof.
  split; [apply pack_pack_with|].
  split; [intros d f H; unfold or0; rewrite H; reflexivity|].
  split; [intros d f H; unfold or0; rewrite H; reflexivity|].
  intros r w' ob H. rewrite pack_pack_with in H.
  unfold pack_with in H.
  destruct (resolveForPack _ w) as [[[]|e] w1] eqn:Er.
  2:{ injection H as <- <- <-. repeat split; intros; try discriminate; congruence. }
  destruct buf as [b0|].
  - destruct (write_fields _ _ _ _ _ b0) as [[[]|e] b1] eqn:Ew;
      injection H as <- <- <-; apply keeps_length_write_fields in Ew;
      repeat split; intros; try discriminate; try congruence.
  - unfold Buffer.alloc in *.
    destruct (size (def w1) + match offset with Some z => z | None => 0 end <? 0) eqn:En.
    + injection H as <- <- <-. repeat split; intros; discriminate.
    + apply Z.ltb_ge in En.
      destruct (write_fields _ _ _ _ _ (repeat x00 _)) as [[[]|e] b1] eqn:Ew;
        injection H as <- <- <-; pose proof Ew as El;
        apply keeps_length_write_fields in El; rewrite repeat_length in El;
        (split; [intros; congruence|]); (split; [intros; discriminate|]);
        intros b _ Hb; injection Hb as <-;
        (split; [unfold Buffer.len; lia|]);
        rewrite pack_pack_with; unfold pack_with; rewrite Er, El, Ew; reflexivity.
Qed.

(** C6 as it is worded fails on [def().string('s', 2)] and a destination
    buffer 01 02: with [data = {s: ""}] pack leaves the buffer as it is, where
    writing [data["s"]], the empty text, gives 00 00. *)
Lemma pack_supplied_empty_text :
  exists w,
    build false no_options (text_decls 2) = Ok w /\
    fst (pack (Some {["s"%string := VString ""]}) (Some [x01; x02]) None None w)
    = Ok [x01; x02] /\
    fst (pack_with selected (Some {["s"%string := VString ""]}) (Some [x01; x02])
           None None w)
    = Ok [x00; x00] /\
    pack (Some {["s"%string := VString ""]}) (Some [x01; x02]) None None w
    <> pack_with selected (Some {["s"%string := VString ""]}) (Some [x01; x02])
         None None w.
Proof.
  eexists. split; [vm_compute; reflexivity|].
  split; [vm_compute; reflexivity|].
  split; [vm_compute; reflexivity|].
  intros H. apply (f_equal fst) in H. vm_compute in H. discriminate.
Qed.
(** ** Floats and doubles *)

Lemma lowest_zero (n : nat) : Buffer.lowest 0 n = Fin 0.
Proof. induction n as [|n IH]; simpl; [reflexivity|exact IH]. Qed.

Lemma dyadic_double (m k : Z) : Buffer.dyadic (2 * m) (k - 1) = Buffer.dyadic m k.
Proof.
  unfold Buffer.dyadic.
  assert (Hhalf : 2 * m / 2 = m) by (rewrite Z.mul_comm; apply Z.div_mul; lia).
  assert (Heven : Z.even (2 * m) = true) by (rewrite Z.even_mul; reflexivity).
  destruct (Z.leb_spec 0 (k - 1)).
  - destruct (Z.leb_spec 0 k); [|lia]. f_equal.
    replace k with (Z.succ (k - 1)) at 2 by lia. rewrite Z.pow_succ_r by lia. lia.
  - destruct (Z.leb_spec 0 k).
    + assert (k = 0) by lia. subst k. cbn [Z.sub Z.opp Z.add Z.to_nat Pos.to_nat Pos.iter_op].
      change (Z.to_nat (- (0 - 1))) with 1%nat. cbn [Buffer.lowest].
      rewrite Heven, Hhalf. f_equal. lia.
    + replace (Z.to_nat (- (k - 1))) with (S (Z.to_nat (- k))) by lia.
      cbn [Buffer.lowest]. rewrite Heven, Hhalf. reflexivity.
Qed.

(** A number does not depend on how its value is written. *)
Lemma dyadic_shift (j : Z) (m k : Z) :
  0 <= j -> Buffer.dyadic (m * 2 ^ j) (k - j) = Buffer.dyadic m k.
Proof.
  intros Hj. rewrite <- (Z2Nat.id j Hj). clear Hj.
  induction (Z.to_nat j) as [|n IH] in m, k |- *.
  - simpl. rewrite Z.mul_1_r, Z.sub_0_r. reflexivity.
  - rewrite Nat2Z.inj_succ, Z.pow_succ_r by lia.
    replace (m * (2 * 2 ^ Z.of_nat n)) with (2 * (m * 2 ^ Z.of_nat n)) by lia.
    replace (k - Z.succ (Z.of_nat n)) with (k - Z.of_nat n - 1) by lia.
    rewrite dyadic_double. apply IH.
Qed.

Lemma dyadic_integer (z : Z) : Buffer.dyadic z 0 = Fin z.
Proof. unfold Buffer.dyadic. simpl. rewrite Z.mul_1_r. reflexivity. Qed.

Lemma dyadic_fraction (m : Z) (e : positive) :
  Z.odd m = true -> Buffer.dyadic m (- Z.pos e) = Frac m e.
Proof.
  intros Hodd. unfold Buffer.dyadic.
  destruct (Z.leb_spec 0 (- Z.pos e)); [lia|].
  rewrite Z.opp_involutive, Z2Nat.inj_pos.
  destruct (Pos2Nat.is_succ e) as [n En]. rewrite En. cbn [Buffer.lowest].
  rewrite <- Z.negb_odd, Hodd. simpl. rewrite <- En, Pos2Nat.id. reflexivity.
Qed.

Lemma format_facts (double : bool) :
  0 < Buffer.fraction_bits double /\ 1 < Buffer.exponent_bits double /\
  Buffer.fraction_bits double <= Buffer.bias double /\
  Buffer.fraction_bits double + Buffer.exponent_bits double + 1
  = 8 * Z.of_nat (Buffer.float_bytes double).
Proof. destruct double; vm_compute; repeat split; discriminate. Qed.

Lemma div_mod_parts (x e f P : Z) :
  0 <= f < P -> x = e * P + f -> x / P = e /\ x mod P = f.
Proof.
  intros Hf ->. split.
  - symmetry. apply (Z.div_unique_pos _ _ e f); lia.
  - symmetry. apply (Z.mod_unique_pos _ _ e f); lia.
Qed.

Lemma round_half_even_exact (a s : Z) :
  0 < s -> a mod 2 ^ s = 0 -> Buffer.round_half_even a s = a / 2 ^ s.
Proof.
  intros Hs Hr. unfold Buffer.round_half_even. rewrite Hr.
  assert (0 < 2 ^ s) by (apply Z.pow_pos_nonneg; lia).
  destruct (Z.ltb_spec (2 * 0) (2 ^ s)); [reflexivity|lia].
Qed.

(** The magnitude [a * 2^k] in a format of [F] fraction bits and [Eb]
    exponent bits, with bias [B], exponent [ex], last place [q] and
    significand [S]. *)
Section Magnitude.

Variables (F Eb a k B ex q S : Z).
Hypothesis (HF : 0 < F) (HE : 1 < Eb) (Ha : 0 < a).
Hypothesis (EB : B = 2 ^ (Eb - 1) - 1).
Hypothesis (Eex : ex = Z.max (Z.log2 a + k) (1 - B)).
Hypothesis (Eq : q = ex - F).
Hypothesis (Hmax : Z.log2 a + k <= B).
Hypothesis (HS : scaled a k q S).

Lemma bias_pos : 0 < B.
Proof.
  rewrite EB. assert (2 ^ 1 <= 2 ^ (Eb - 1)) by (apply Z.pow_le_mono_r; lia).
  change (2 ^ 1) with 2 in *. lia.
Qed.

Lemma significand_below : 0 <= S < 2 ^ (F + 1).
Proof.
  pose proof (Z.log2_spec a Ha) as [Hlo Hhi].
  assert (Hex : Z.log2 a + k <= ex) by lia.
  destruct HS as [[Hq ->]|[Hq Ea]].
  - assert (0 < 2 ^ (k - q)) by (apply Z.pow_pos_nonneg; lia).
    split; [nia|].
    apply Z.lt_le_trans with (2 ^ Z.succ (Z.log2 a) * 2 ^ (k - q)); [nia|].
    rewrite <- Z.pow_add_r by (pose proof (Z.log2_nonneg a); lia).
    apply Z.pow_le_mono_r; lia.
  - assert (HP : 0 < 2 ^ (q - k)) by (apply Z.pow_pos_nonneg; lia).
    split; [nia|].
    apply (Z.mul_lt_mono_pos_r (2 ^ (q - k))); [exact HP|].
    rewrite <- Ea, <- Z.pow_add_r by lia.
    apply Z.lt_le_trans with (2 ^ Z.succ (Z.log2 a)); [exact Hhi|].
    apply Z.pow_le_mono_r; lia.
Qed.

Lemma significand_normal : 1 - B <= Z.log2 a + k -> 2 ^ F <= S.
Proof.
  intros Hn. pose proof (Z.log2_spec a Ha) as [Hlo Hhi].
  pose proof (Z.log2_nonneg a) as HL.
  assert (Hex : ex = Z.log2 a + k) by lia.
  destruct HS as [[Hq ->]|[Hq Ea]].
  - assert (0 < 2 ^ (k - q)) by (apply Z.pow_pos_nonneg; lia).
    apply Z.le_trans with (2 ^ Z.log2 a * 2 ^ (k - q)); [|nia].
    rewrite <- Z.pow_add_r by lia.
    apply Z.pow_le_mono_r; lia.
  - assert (HP : 0 < 2 ^ (q - k)) by (apply Z.pow_pos_nonneg; lia).
    apply (Z.mul_le_mono_pos_r _ _ (2 ^ (q - k))); [exact HP|].
    rewrite <- Ea, <- Z.pow_add_r by lia.
    apply Z.le_trans with (2 ^ Z.log2 a); [|exact Hlo].
    apply Z.pow_le_mono_r; lia.
Qed.

Lemma significand_subnormal : Z.log2 a + k < 1 - B -> S < 2 ^ F.
Proof.
  intros Hn. pose proof (Z.log2_spec a Ha) as [Hlo Hhi].
  pose proof (Z.log2_nonneg a) as HL.
  assert (Hex : ex = 1 - B) by lia.
  destruct HS as [[Hq ->]|[Hq Ea]].
  - assert (0 < 2 ^ (k - q)) by (apply Z.pow_pos_nonneg; lia).
    apply Z.lt_le_trans with (2 ^ Z.succ (Z.log2 a) * 2 ^ (k - q)); [nia|].
    rewrite <- Z.pow_add_r by lia.
    apply Z.pow_le_mono_r; lia.
  - assert (HP : 0 < 2 ^ (q - k)) by (apply Z.pow_pos_nonneg; lia).
    apply (Z.mul_lt_mono_pos_r (2 ^ (q - k))); [exact HP|].
    rewrite <- Ea, <- Z.pow_add_r by lia.
    apply Z.lt_le_trans with (2 ^ Z.succ (Z.log2 a)); [exact Hhi|].
    apply Z.pow_le_mono_r; lia.
Qed.

(** The exponent and fraction fields of the magnitude, and what they decode
    to. *)
Lemma magnitude_fields :
  let mag := (ex - (1 - B)) * 2 ^ F + S in
  let fraction := mag mod 2 ^ F in
  let exponent := mag / 2 ^ F in
  0 <= mag /\ 0 <= exponent < 2 ^ Eb - 1 /\
  (if exponent =? 0 then fraction else 2 ^ F + fraction) = S /\
  (if exponent =? 0 then 1 else exponent) - B - F = q.
Proof.
  pose proof significand_below as [HS0 HS1].
  pose proof bias_pos as HB.
  assert (HP : 0 < 2 ^ F) by (apply Z.pow_pos_nonneg; lia).
  assert (HP1 : 2 ^ (F + 1) = 2 * 2 ^ F) by (rewrite Z.pow_add_r by lia; lia).
  assert (HEb : 2 ^ Eb = 2 * (B + 1)).
  { rewrite EB. replace Eb with (Z.succ (Eb - 1)) at 1 by lia.
    rewrite Z.pow_succ_r by lia. lia. }
  cbv zeta.
  destruct (Z.le_gt_cases (1 - B) (Z.log2 a + k)) as [Hn|Hn].
  - pose proof (significand_normal Hn) as HSn.
    assert (Hex : ex = Z.log2 a + k) by lia.
    destruct (div_mod_parts ((ex - (1 - B)) * 2 ^ F + S)
                (ex - (1 - B) + 1) (S - 2 ^ F) (2 ^ F) ltac:(lia) ltac:(lia)) as [-> ->].
    destruct (Z.eqb_spec (ex - (1 - B) + 1) 0); [lia|].
    repeat split; try lia. nia.
  - pose proof (significand_subnormal Hn) as HSn.
    assert (Hex : ex = 1 - B) by lia.
    destruct (div_mod_parts ((ex - (1 - B)) * 2 ^ F + S) 0 S (2 ^ F)
                ltac:(lia) ltac:(rewrite Hex; lia)) as [-> ->].
    simpl. repeat split; lia.
Qed.

End Magnitude.

Lemma scaled_exact (a k q : Z) :
  0 < a -> q <= k \/ a mod 2 ^ (q - k) = 0 ->
  scaled a k q (if q <=? k then a * 2 ^ (k - q)
                else Buffer.round_half_even a (q - k)).
Proof.
  intros Ha H. unfold scaled. destruct (Z.leb_spec q k); [left; split; [lia|reflexivity]|].
  right. split; [lia|]. destruct H as [H|H]; [lia|].
  rewrite round_half_even_exact by lia.
  assert (0 < 2 ^ (q - k)) by (apply Z.pow_pos_nonneg; lia).
  pose proof (Z.div_mod a (2 ^ (q - k)) ltac:(lia)). lia.
Qed.

(** The pattern of a number of the format decodes to the number. *)
Lemma float_value_bits (double : bool) (m k : Z) :
  float_exact double m k ->
  0 <= Buffer.float_bits double m k
     < 2 ^ (8 * Z.of_nat (Buffer.float_bytes double)) /\
  Buffer.float_value double (Buffer.float_bits double m k) = Buffer.dyadic m k.
Proof.
  intros Hex. destruct (format_facts double) as (HF & HE & HFB & Hbytes).
  rewrite <- Hbytes.
  set (F := Buffer.fraction_bits double) in *.
  set (Eb := Buffer.exponent_bits double) in *.
  assert (HP : 0 < 2 ^ F) by (apply Z.pow_pos_nonneg; lia).
  assert (HPE : 0 < 2 ^ Eb) by (apply Z.pow_pos_nonneg; lia).
  assert (Htop : 2 ^ (F + Eb) = 2 ^ Eb * 2 ^ F) by (rewrite Z.pow_add_r by lia; lia).
  assert (Hall : 2 ^ (F + Eb + 1) = 2 * 2 ^ (F + Eb)) by (rewrite Z.pow_add_r by lia; lia).
  destruct (Z.eq_dec m 0) as [->|Hm].
  - (* zero *)
    unfold Buffer.float_bits, Buffer.magnitude_bits. simpl Z.abs. simpl Z.eqb.
    cbv iota. simpl Z.ltb. cbv iota. rewrite Z.add_0_r.
    split; [lia|].
    unfold Buffer.float_value. fold F Eb.
    rewrite Zdiv_0_l, !Zmod_0_l.
    destruct (Z.eqb_spec 0 (2 ^ Eb - 1)) as [E|_].
    { assert (2 ^ 1 <= 2 ^ Eb) by (apply Z.pow_le_mono_r; lia).
      change (2 ^ 1) with 2 in *. lia. }
    destruct (Z.leb_spec (2 ^ (F + Eb)) 0); [lia|]. simpl Z.eqb. cbv iota.
    unfold Buffer.dyadic.
    destruct (0 <=? 1 - Buffer.bias double - F); [|rewrite lowest_zero];
      destruct (0 <=? k); rewrite ?lowest_zero; reflexivity.
  - destruct Hex as [Hex|[Hmax Hexact]]; [contradiction|].
    assert (Ha : 0 < Z.abs m) by lia.
    set (a := Z.abs m) in *.
    pose proof (scaled_exact a k _ Ha Hexact) as Hsc.
    pose proof (magnitude_fields F Eb a k _ _ _ _ HF HE Ha eq_refl eq_refl eq_refl
                  Hmax Hsc) as Hf.
    cbv zeta in Hf.
    unfold Buffer.float_bits, Buffer.magnitude_bits. fold a.
    destruct (Z.eqb_spec a 0) as [|_]; [lia|].
    unfold Buffer.bias in *. fold F Eb in Hf, Hsc |- *.
    set (ex := Z.max (Z.log2 a + k) (1 - (2 ^ (Eb - 1) - 1))) in *.
    set (S := if ex - F <=? k then a * 2 ^ (k - (ex - F))
              else Buffer.round_half_even a (ex - F - k)) in *.
    set (mag := (ex - (1 - (2 ^ (Eb - 1) - 1))) * 2 ^ F + S) in *.
    destruct Hf as (Hmag & Hexp & Hsig & Hq).
    assert (Hlt : mag < 2 ^ (F + Eb)).
    { rewrite Htop. pose proof (Z.mod_pos_bound mag (2 ^ F) HP).
      pose proof (Z.div_mod mag (2 ^ F) ltac:(lia)). nia. }
    set (sgn := if m <? 0 then 2 ^ (F + Eb) else 0).
    assert (Hsgn : sgn = (if m <? 0 then 1 else 0) * 2 ^ Eb * 2 ^ F)
      by (subst sgn; destruct (m <? 0); lia).
    split; [subst sgn; destruct (m <? 0); lia|].
    unfold Buffer.float_value. fold F Eb.
    assert (Efr : (mag + sgn) mod 2 ^ F = mag mod 2 ^ F)
      by (rewrite Hsgn; apply Z.mod_add; lia).
    assert (Eex : ((mag + sgn) / 2 ^ F) mod 2 ^ Eb = mag / 2 ^ F).
    { rewrite Hsgn, Z.div_add by lia. rewrite Z.mod_add by lia.
      apply Z.mod_small. lia. }
    rewrite Efr, Eex.
    destruct (Z.eqb_spec (mag / 2 ^ F) (2 ^ Eb - 1)); [lia|].
    rewrite Hsig. unfold Buffer.bias. fold Eb. rewrite Hq.
    assert (Eneg : (2 ^ (F + Eb) <=? mag + sgn) = (m <? 0)).
    { subst sgn. destruct (Z.ltb_spec m 0).
      - destruct (Z.leb_spec (2 ^ (F + Eb)) (mag + 2 ^ (F + Eb))); [reflexivity|lia].
      - destruct (Z.leb_spec (2 ^ (F + Eb)) (mag + 0)); [lia|reflexivity]. }
    rewrite Eneg.
    assert (Em : m = (if m <? 0 then - a else a))
      by (subst a; destruct (Z.ltb_spec m 0); lia).
    destruct Hsc as [[Hle ES]|[Hgt Ea]].
    + rewrite <- (dyadic_shift (k - (ex - F)) m k) by lia.
      replace (k - (k - (ex - F))) with (ex - F) by lia. f_equal.
      rewrite ES. destruct (m <? 0); lia.
    + rewrite <- (dyadic_shift (ex - F - k) (if m <? 0 then - S else S) (ex - F)) by lia.
      replace (ex - F - (ex - F - k)) with k by lia. f_equal.
      clear Em Eneg Hsgn Efr Eex. subst sgn.
      destruct (Z.ltb_spec m 0); subst a; lia.
Qed.

(** A number of the format is not beyond the largest one. *)
Lemma float_exact_not_too_large (double : bool) (m k : Z) :
  float_exact double m k -> Buffer.too_large double (Z.abs m) k = false.
Proof.
  intros Hex. destruct (format_facts double) as (HF & HE & HFB & Hbytes).
  unfold Buffer.too_large. unfold float_exact in Hex. unfold Buffer.bias in *.
  set (F := Buffer.fraction_bits double) in *.
  set (B := 2 ^ (Buffer.exponent_bits double - 1) - 1) in *.
  assert (HP1 : 0 < 2 ^ (F + 1)) by (apply Z.pow_pos_nonneg; lia).
  destruct (Z.eq_dec m 0) as [->|Hm].
  - simpl Z.abs.
    assert (0 <= (2 ^ (F + 1) - 1) * 2 ^ (B - F)) by (apply Z.mul_nonneg_nonneg; lia).
    assert (0 <= (2 ^ (F + 1) - 1) * 2 ^ (B - F - k)) by (apply Z.mul_nonneg_nonneg; lia).
    destruct (0 <=? k);
      match goal with |- (?x <? ?y) = false => destruct (Z.ltb_spec x y) end;
      try reflexivity; lia.
  - destruct Hex as [Hex|[Hmax Hexact]]; [contradiction|].
    assert (Ha : 0 < Z.abs m) by lia.
    set (a := Z.abs m) in *.
    pose proof (scaled_exact a k _ Ha Hexact) as Hsc.
    pose proof (significand_below F (Buffer.exponent_bits double) a k B _ _ _ HF HE Ha
                  eq_refl eq_refl Hsc) as [HS0 HS1].
    fold B F in Hsc, HS0, HS1.
    set (ex := Z.max (Z.log2 a + k) (1 - B)) in *.
    set (S := if ex - F <=? k then a * 2 ^ (k - (ex - F))
              else Buffer.round_half_even a (ex - F - k)) in *.
    assert (Hq : ex - F <= B - F) by lia.
    set (q := ex - F) in *. set (top := 2 ^ (F + 1) - 1) in *.
    assert (HStop : S <= top) by lia.
    destruct (Z.leb_spec 0 k) as [Hk|Hk];
      match goal with |- (?x <? ?y) = false => destruct (Z.ltb_spec x y) as [Hlt|]; [exfalso|reflexivity] end.
    + (* 0 <= k *)
      destruct Hsc as [[Hle ES]|[Hgt Ea]].
      * destruct (Z.le_gt_cases 0 q).
        -- assert (Ev : a * 2 ^ k = S * 2 ^ q).
           { rewrite ES. replace k with ((k - q) + q) at 1 by lia.
             rewrite Z.pow_add_r by lia. lia. }
           assert (2 ^ q <= 2 ^ (B - F)) by (apply Z.pow_le_mono_r; lia).
           assert (0 < 2 ^ q) by (apply Z.pow_pos_nonneg; lia). nia.
        -- assert (2 ^ k <= 2 ^ (k - q)) by (apply Z.pow_le_mono_r; lia).
           assert (1 <= 2 ^ (B - F)) by (apply (Z.pow_le_mono_r 2 0); lia).
           nia.
      * assert (Ev : a * 2 ^ k = S * 2 ^ q).
        { rewrite Ea. replace q with ((q - k) + k) at 2 by lia.
          rewrite Z.pow_add_r by lia. lia. }
        assert (2 ^ q <= 2 ^ (B - F)) by (apply Z.pow_le_mono_r; lia).
        assert (0 < 2 ^ q) by (apply Z.pow_pos_nonneg; lia). nia.
    + destruct Hsc as [[Hle ES]|[Hgt Ea]].
      * assert (1 <= 2 ^ (k - q)) by (apply (Z.pow_le_mono_r 2 0); lia).
        assert (1 <= 2 ^ (B - F - k)) by (apply (Z.pow_le_mono_r 2 0); lia).
        nia.
      * assert (2 ^ (q - k) <= 2 ^ (B - F - k)) by (apply Z.pow_le_mono_r; lia).
        assert (0 < 2 ^ (q - k)) by (apply Z.pow_pos_nonneg; lia). nia.
Qed.

(** ** Round trip through pack and unpack *)

(** *** Integers and their bytes *)

Lemma decode_be_app (l : list byte) (b : byte) :
  decode_be (l ++ [b]) = decode_be l * 256 + byte_val b.
Proof. unfold decode_be. rewrite fold_left_app. reflexivity. Qed.

Lemma decode_le_cons (b : byte) (l : list byte) :
  decode_le (b :: l) = byte_val b + 256 * decode_le l.
Proof. unfold decode_le. simpl rev. rewrite decode_be_app. lia. Qed.

Lemma decode_le_encode_le (n : nat) (z : Z) :
  decode_le (encode_le n z) = z mod 256 ^ Z.of_nat n.
Proof.
  revert z. induction n as [|n IH]; intros z.
  - simpl. rewrite Z.mod_1_r. reflexivity.
  - simpl encode_le. rewrite decode_le_cons, IH, byte_val_of.
    rewrite Nat2Z.inj_succ, Z.pow_succ_r by lia.
    rewrite Z.rem_mul_r; [reflexivity|lia|]. apply Z.pow_pos_nonneg; lia.
Qed.

Lemma decode_be_encode_be (n : nat) (z : Z) :
  decode_be (encode_be n z) = z mod 256 ^ Z.of_nat n.
Proof. apply decode_le_encode_le. Qed.

Lemma pow256 (n : nat) : 256 ^ Z.of_nat n = 2 ^ (8 * Z.of_nat n).
Proof. rewrite Z.pow_mul_r by lia. reflexivity. Qed.

(** An integer within the range of a fixed-width type is read back from its
    bytes. *)
Lemma prim_value_read_back (n : nat) (signed le : bool) (z : Z) :
  (0 < n)%nat ->
  Buffer.p_min (Buffer.Prim n signed le) <= z <= Buffer.p_max (Buffer.Prim n signed le) ->
  (let u := z mod 256 ^ Z.of_nat n in
   if signed && (2 ^ (8 * Z.of_nat n - 1) <=? u) then u - 2 ^ (8 * Z.of_nat n) else u) = z.
Proof.
  unfold Buffer.p_min, Buffer.p_max, Buffer.width. simpl Buffer.p_bytes.
  simpl Buffer.p_signed. intros Hn Hz. rewrite pow256.
  set (P := 2 ^ (8 * Z.of_nat n - 1)) in *.
  assert (HP : 0 < P) by (apply Z.pow_pos_nonneg; lia).
  assert (E : 2 ^ (8 * Z.of_nat n) = 2 * P).
  { replace (8 * Z.of_nat n) with (Z.succ (8 * Z.of_nat n - 1)) by lia.
    rewrite Z.pow_succ_r by lia. reflexivity. }
  rewrite E in *. cbv zeta.
  destruct signed; simpl andb.
  - destruct (Z.le_gt_cases 0 z).
    + rewrite Z.mod_small by lia.
      destruct (Z.leb_spec P z); lia.
    + assert (Em : z mod (2 * P) = z + 2 * P).
      { symmetry. apply (Z.mod_unique z (2 * P) (-1)); lia. }
      rewrite Em. destruct (Z.leb_spec P (z + 2 * P)); lia.
  - rewrite Z.mod_small by lia. reflexivity.
Qed.

Lemma zero_in_prim_range (n : nat) (signed le : bool) :
  (0 < n)%nat ->
  Buffer.p_min (Buffer.Prim n signed le) <= 0 <= Buffer.p_max (Buffer.Prim n signed le).
Proof.
  unfold Buffer.p_min, Buffer.p_max, Buffer.width. simpl. intros Hn.
  assert (0 < 2 ^ (8 * Z.of_nat n - 1)) by (apply Z.pow_pos_nonneg; lia).
  assert (0 < 2 ^ (8 * Z.of_nat n)) by (apply Z.pow_pos_nonneg; lia).
  destruct signed; lia.
Qed.

(** *** Buffers cut in three *)

Lemma len_app (a b : Buffer.t) : Buffer.len (a ++ b) = Buffer.len a + Buffer.len b.
Proof. unfold Buffer.len. rewrite length_app. lia. Qed.

Lemma len_nonneg (a : Buffer.t) : 0 <= Buffer.len a.
Proof. unfold Buffer.len. lia. Qed.

Lemma len_zeros (n : Z) : 0 <= n -> Buffer.len (zeros n) = n.
Proof. intros H. unfold Buffer.len, zeros. rewrite repeat_length. lia. Qed.

Lemma length_zeros (n : Z) : length (zeros n) = Z.to_nat n.
Proof. apply repeat_length. Qed.

Lemma zeros_add (a b : Z) : 0 <= a -> 0 <= b -> zeros (a + b) = zeros a ++ zeros b.
Proof.
  intros Ha Hb. unfold zeros. rewrite Z2Nat.inj_add by lia. apply repeat_app.
Qed.

Lemma drop_zeros (k : nat) (n : Z) :
  Z.of_nat k <= n -> drop k (zeros n) = zeros (n - Z.of_nat k).
Proof.
  intros H. unfold zeros.
  replace (Z.to_nat n) with (k + Z.to_nat (n - Z.of_nat k))%nat by lia.
  rewrite repeat_app. apply drop_app_length'. rewrite repeat_length. reflexivity.
Qed.

Lemma splice_mid (pre mid post bs : list byte) (o : Z) :
  Buffer.len pre = o -> (length bs <= length mid)%nat ->
  Buffer.splice (pre ++ mid ++ post) o bs = pre ++ bs ++ drop (length bs) mid ++ post.
Proof.
  unfold Buffer.splice, Buffer.len. intros Ho Hl.
  replace (Z.to_nat o) with (length pre) by lia.
  rewrite take_app_length, drop_app_add, drop_app_le by exact Hl. reflexivity.
Qed.

Lemma sub_mid (pre mid post : list byte) (o : Z) (k : nat) :
  Buffer.len pre = o -> (k <= length mid)%nat ->
  Buffer.sub (pre ++ mid ++ post) o (o + Z.of_nat k) = take k mid.
Proof.
  unfold Buffer.sub, Buffer.len. intros Ho Hl.
  replace (Z.to_nat o) with (length pre) by lia.
  replace (Z.to_nat (o + Z.of_nat k - o)) with k by lia.
  rewrite drop_app_length, take_app_le by exact Hl. reflexivity.
Qed.

Lemma length_list_byte_of_string (t : string) :
  length (list_byte_of_string t) = String.length t.
Proof. induction t as [|a t IH]; simpl; [|rewrite <- IH]; reflexivity. Qed.

(** *** The primitives within bounds *)

Lemma write_int_in_range (p : Buffer.prim) (z o : Z) (b : Buffer.t) :
  Buffer.p_min p <= z <= Buffer.p_max p ->
  0 <= o -> o + Buffer.width p <= Buffer.len b ->
  Buffer.write_int p (VNumber (Fin z)) o b
  = (Ok tt, Buffer.splice b o (if Buffer.p_le p then encode_le (Buffer.p_bytes p) z
                               else encode_be (Buffer.p_bytes p) z)).
Proof.
  intros Hz Ho Hb. unfold Buffer.write_int. cbn [Buffer.ToNumber].
  destruct (Z.ltb_spec z (Buffer.p_min p)); [lia|].
  destruct (Z.ltb_spec (Buffer.p_max p) z); [lia|].
  cbn [orb]. unfold Buffer.store.
  destruct (Z.ltb_spec o 0); [lia|].
  destruct (Z.ltb_spec (Buffer.len b) (o + Buffer.width p)); [lia|].
  reflexivity.
Qed.

Lemma read_in_bounds (p : Buffer.prim) (o : Z) (b : Buffer.t) :
  0 <= o -> o + Buffer.width p <= Buffer.len b ->
  Buffer.read p b o
  = Ok (let bs := Buffer.sub b o (o + Buffer.width p) in
        let u := if Buffer.p_le p then decode_le bs else decode_be bs in
        if Buffer.p_signed p && (2 ^ (8 * Buffer.width p - 1) <=? u)
        then u - 2 ^ (8 * Buffer.width p) else u).
Proof.
  intros Ho Hb. unfold Buffer.read.
  destruct (Z.ltb_spec o 0); [lia|].
  destruct (Z.ltb_spec (Buffer.len b) (o + Buffer.width p)); [lia|].
  reflexivity.
Qed.

Lemma fill0_in_bounds (s e : Z) (b : Buffer.t) :
  0 <= s -> s <= e -> e <= Buffer.len b ->
  Buffer.fill0 s e b = (Ok tt, Buffer.splice b s (zeros (e - s))).
Proof.
  intros Hs He Hb. unfold Buffer.fill0.
  destruct (Z.ltb_spec s 0); [lia|].
  destruct (Z.ltb_spec e 0); [lia|].
  destruct (Z.ltb_spec (Buffer.len b) e); [lia|].
  cbn [orb]. destruct (Z.leb_spec e s); [|reflexivity].
  replace (e - s) with 0 by lia. unfold Buffer.splice, zeros. simpl.
  rewrite Nat.add_0_r, take_drop. reflexivity.
Qed.

Lemma write_in_bounds (t : string) (o : Z) (b : Buffer.t) :
  0 <= o -> o + Z.of_nat (String.length t) <= Buffer.len b ->
  Buffer.write t o b = (Ok tt, Buffer.splice b o (list_byte_of_string t)).
Proof.
  intros Ho Hb. unfold Buffer.write.
  destruct (Z.ltb_spec o 0); [lia|].
  destruct (Z.ltb_spec (Buffer.len b) o); [lia|].
  cbn [orb]. rewrite whole_chars_fits by (rewrite length_list_byte_of_string; lia).
  reflexivity.
Qed.

Lemma copy_in_bounds (src : Buffer.t) (o : Z) (b : Buffer.t) :
  0 <= o -> o + Buffer.len src <= Buffer.len b ->
  Buffer.copy src o b = (Ok tt, Buffer.splice b o src).
Proof.
  intros Ho Hb. unfold Buffer.copy.
  destruct (Z.ltb_spec o 0); [lia|].
  destruct (Z.leb_spec (Buffer.len b) o).
  - pose proof (len_nonneg src). assert (Hs : Buffer.len src = 0) by lia.
    unfold Buffer.len in Hs. destruct src; [|simpl in Hs; lia].
    unfold Buffer.splice. simpl. rewrite Nat.add_0_r, take_drop. reflexivity.
  - unfold Buffer.len in *. rewrite take_ge by lia. reflexivity.
Qed.

(** A number of the format is written without rounding and read back. *)
Lemma float_number_bits (double : bool) (n : number) :
  float_number double n ->
  0 <= number_bits double n < 2 ^ (8 * Z.of_nat (Buffer.float_bytes double)) /\
  Buffer.float_value double (number_bits double n) = n.
Proof.
  destruct n as [z|m e| | |]; simpl; try contradiction.
  - intros H. destruct (float_value_bits double z 0 H) as [Hr Hv].
    split; [exact Hr|]. rewrite Hv. apply dyadic_integer.
  - intros [Hodd H]. destruct (float_value_bits double m (- Z.pos e) H) as [Hr Hv].
    split; [exact Hr|]. rewrite Hv. apply dyadic_fraction. exact Hodd.
Qed.

Lemma write_float_exact (double le : bool) (n : number) (o : Z) (b : Buffer.t) :
  float_number double n ->
  0 <= o -> o + Z.of_nat (Buffer.float_bytes double) <= Buffer.len b ->
  Buffer.write_float double le (VNumber n) o b
  = (Ok tt, Buffer.splice b o
              (if le then encode_le (Buffer.float_bytes double) (number_bits double n)
               else encode_be (Buffer.float_bytes double) (number_bits double n))).
Proof.
  intros Hn Ho Hb. unfold Buffer.write_float. cbn [Buffer.ToNumber].
  assert (Hstore : forall z,
    Buffer.store (Buffer.float_prim double le) z o b
    = (Ok tt, Buffer.splice b o
                (if le then encode_le (Buffer.float_bytes double) z
                 else encode_be (Buffer.float_bytes double) z))).
  { intros z. unfold Buffer.store, Buffer.float_prim, Buffer.width.
    cbn [Buffer.p_bytes Buffer.p_le].
    destruct (Z.ltb_spec o 0); [lia|].
    destruct (Z.ltb_spec (Buffer.len b) (o + Z.of_nat (Buffer.float_bytes double))); [lia|].
    reflexivity. }
  destruct n as [z|m e| | |]; simpl in Hn; try contradiction.
  - rewrite float_exact_not_too_large by exact Hn. apply Hstore.
  - destruct Hn as [_ Hn]. rewrite float_exact_not_too_large by exact Hn. apply Hstore.
Qed.

Lemma read_float_in_bounds (double le : bool) (o : Z) (b : Buffer.t) :
  0 <= o -> o + Z.of_nat (Buffer.float_bytes double) <= Buffer.len b ->
  Buffer.read_float double le b o
  = Ok (Buffer.float_value double
          (let bs := Buffer.sub b o (o + Z.of_nat (Buffer.float_bytes double)) in
           if le then decode_le bs else decode_be bs)).
Proof.
  intros Ho Hb. unfold Buffer.read_float.
  rewrite read_in_bounds by (unfold Buffer.float_prim, Buffer.width; simpl; lia).
  reflexivity.
Qed.

(** *** One field: what is written and what is read back *)

Lemma len_image (f : field) (v : value) :
  fixed_size f -> writable f v -> Buffer.len (image f v) = f_size f.
Proof.
  intros (_ & Hs & Ht) Hw. unfold image, writable, representable in *.
  destruct (f_type f) as [n s le|double le| |].
  - destruct Ht as [Hn Hle].
    destruct v as [| | |[z|? ?| | |]| | |]; try (apply len_zeros; exact Hs).
    rewrite len_app, len_zeros by lia. unfold Buffer.len.
    destruct le; rewrite ?length_encode_le, ?length_encode_be; lia.
  - destruct v as [| | |n| | |]; try (apply len_zeros; exact Hs).
    rewrite len_app, len_zeros by lia. unfold Buffer.len.
    destruct le; rewrite ?length_encode_le, ?length_encode_be; lia.
  - destruct v as [| | |[z|? ?| | |]|t| |]; try (apply len_zeros; exact Hs).
    destruct Hw as [Hlen|Hw]; [|discriminate].
    rewrite len_app, len_zeros by lia. unfold Buffer.len.
    rewrite length_list_byte_of_string. lia.
  - destruct v as [| | |[z|? ?| | |]| |b|]; try (apply len_zeros; exact Hs).
    destruct Hw as [Hlen|Hw]; [exact Hlen|discriminate].
Qed.

Lemma image_or0 (f : field) (v : value) :
  representable f v -> image f (or0 v) = image f v.
Proof.
  unfold representable, or0, image. intros H.
  destruct (f_type f) as [n s le|double le| |];
    destruct v as [| | |[z|m e| | |]|t|b|]; try contradiction; simpl.
  - destruct (Z.eqb_spec z 0) as [->|]; reflexivity.
  - destruct (Z.eqb_spec z 0) as [->|]; reflexivity.
  - destruct (Z.eqb_spec m 0) as [->|]; [|reflexivity].
    destruct H as [H _]. discriminate.
  - destruct t; simpl; [|reflexivity]. rewrite Z.sub_0_r. reflexivity.
  - reflexivity.
Qed.

Lemma representable_writable_or0 (f : field) (v : value) :
  representable f v -> writable f (or0 v).
Proof.
  intros H. unfold or0. destruct (truthy v); [left; exact H|right; reflexivity].
Qed.

(** Writing the value of a field into its span of zeros. *)
Lemma writeField_image (data : record) (bn : bool) (off : Z) (na : bool)
    (f : field) (pre post : list byte) :
  fixed_size f -> codec_ok f -> writable f (field_value data f) ->
  Buffer.len pre = off + f_offset f ->
  writeField data bn off na f (pre ++ zeros (f_size f) ++ post)
  = (Ok tt, pre ++ image f (field_value data f) ++ post).
Proof.
  intros Hsup Hc Hw Hpre.
  destruct Hsup as (Hfix & Hs & Ht). specialize (Hc Hfix).
  unfold writeField. set (v := field_value data f) in *.
  pose proof (len_nonneg pre) as Hpre0. pose proof (len_nonneg post) as Hpost0.
  assert (Hbuf : Buffer.len (pre ++ zeros (f_size f) ++ post)
                 = off + f_offset f + f_size f + Buffer.len post)
    by (rewrite !len_app, len_zeros by lia; lia).
  assert (Hlz : length (zeros (f_size f)) = Z.to_nat (f_size f))
    by (unfold zeros; apply repeat_length).
  unfold image, writable, representable in *.
  destruct (f_type f) as [n s le|double le| |].
  - (* integer *)
    destruct Ht as [Hn Hle]. destruct (Hc ltac:(lia)) as [_ ->].
    assert (Hz : exists z, v = VNumber (Fin z) /\
                 Buffer.p_min (Buffer.Prim n s le) <= z <= Buffer.p_max (Buffer.Prim n s le)).
    { destruct Hw as [Hw| ->].
      - destruct v as [| | |[z|? ?| | |]| | |]; try contradiction.
        exists z. split; [reflexivity|exact Hw].
      - exists 0. split; [reflexivity|]. apply zero_in_prim_range. lia. }
    destruct Hz as (z & -> & Hz). cbn [apply_writer].
    rewrite write_int_in_range;
      [|exact Hz|lia|rewrite Hbuf; unfold Buffer.width; cbn [Buffer.p_bytes]; lia].
    cbn [Buffer.p_le Buffer.p_bytes].
    assert (Hl : length (if le then encode_le n z else encode_be n z) = n)
      by (destruct le; [apply length_encode_le|apply length_encode_be]).
    rewrite (splice_mid pre _ post _ _ Hpre) by lia.
    rewrite Hl, drop_zeros by lia. rewrite <- app_assoc. reflexivity.
  - (* float *)
    destruct Hc as [_ ->].
    assert (Hn : exists n, v = VNumber n /\ float_number double n).
    { destruct Hw as [Hw| ->].
      - destruct v as [| | |n| | |]; try contradiction.
        exists n. split; [reflexivity|exact Hw].
      - exists (Fin 0). split; [reflexivity|]. left. reflexivity. }
    destruct Hn as (n & -> & Hn). cbn [apply_writer].
    rewrite write_float_exact; [|exact Hn|lia|rewrite Hbuf; lia].
    set (bs := if le then encode_le (Buffer.float_bytes double) (number_bits double n)
               else encode_be (Buffer.float_bytes double) (number_bits double n)).
    assert (Hl : length bs = Buffer.float_bytes double)
      by (subst bs; destruct le; [apply length_encode_le|apply length_encode_be]).
    rewrite (splice_mid pre _ post _ _ Hpre) by lia.
    rewrite Hl, drop_zeros by lia. rewrite <- app_assoc. reflexivity.
  - (* text *)
    destruct Hc as [_ ->]. cbn [apply_writer]. unfold writeString.
    destruct v as [| | |[z|? ?| | |]|t|b|]; try reflexivity;
      try (destruct Hw as [[]|Hw]; discriminate).
    destruct Hw as [Ht'|Hw]; [|discriminate].
    unfold bind.
    rewrite fill0_in_bounds by lia.
    replace (off + f_offset f + f_size f - (off + f_offset f)) with (f_size f) by lia.
    rewrite (splice_mid pre _ post _ _ Hpre) by lia.
    rewrite drop_all, app_nil_l.
    rewrite write_in_bounds by lia.
    rewrite (splice_mid pre _ post _ _ Hpre)
      by (rewrite length_list_byte_of_string; lia).
    rewrite length_list_byte_of_string, drop_zeros by lia.
    rewrite <- app_assoc. reflexivity.
  - (* block *)
    destruct Hc as [_ ->]. cbn [apply_writer]. unfold writebuffer.
    destruct v as [| | |[z|? ?| | |]|t|b|]; try reflexivity;
      try (destruct Hw as [[]|Hw]; discriminate).
    destruct Hw as [Hb|Hw]; [|discriminate].
    rewrite Hb, Z.eqb_refl. cbn [negb].
    rewrite copy_in_bounds by lia.
    unfold Buffer.len in Hb.
    rewrite (splice_mid pre _ post _ _ Hpre) by lia.
    rewrite drop_zeros by lia.
    replace (f_size f - Z.of_nat (length b)) with 0 by lia. reflexivity.
Qed.

(** Reading a field back from the bytes that writing left. *)
Lemma apply_reader_image (f : field) (v : value) (r : reader) (pre post : list byte)
    (o : Z) (na : bool) (m1 m2 : option int64mode) (bn : bool) :
  fixed_size f -> codec_ok f -> representable f v -> f_read f = Some r ->
  Buffer.len pre = o ->
  apply_reader r (pre ++ image f v ++ post) o na m1 m2 bn = (Ok (decode_value f v), bn).
Proof.
  intros Hsup Hc Hv Hr Hpre.
  pose proof (len_image f v Hsup (or_introl Hv)) as Hlen.
  destruct Hsup as (Hfix & Hs & Ht). specialize (Hc Hfix).
  pose proof (len_nonneg pre) as Hpre0. pose proof (len_nonneg post) as Hpost0.
  assert (Hbuf : Buffer.len (pre ++ image f v ++ post) = o + f_size f + Buffer.len post)
    by (rewrite !len_app; lia).
  revert Hlen Hbuf. unfold image, representable, decode_value in *.
  destruct (f_type f) as [n s le|double le| |].
  - destruct Ht as [Hn Hle]. destruct (Hc ltac:(lia)) as [Er _].
    rewrite Er in Hr. injection Hr as <-.
    destruct v as [| | |[z|? ?| | |]| | |]; try contradiction. intros Hlen Hbuf.
    cbn [apply_reader]. unfold lift.
    rewrite read_in_bounds;
      [|lia|rewrite Hbuf; unfold Buffer.width; cbn [Buffer.p_bytes]; lia].
    unfold Buffer.width. cbn [Buffer.p_bytes Buffer.p_le Buffer.p_signed].
    assert (Hl : length (if le then encode_le n z else encode_be n z) = n)
      by (destruct le; [apply length_encode_le|apply length_encode_be]).
    rewrite (sub_mid pre _ post o n Hpre) by (rewrite length_app; lia).
    rewrite take_app_length' by (symmetry; exact Hl).
    replace (if le then decode_le (if le then encode_le n z else encode_be n z)
             else decode_be (if le then encode_le n z else encode_be n z))
      with (z mod 256 ^ Z.of_nat n)
      by (destruct le; [rewrite decode_le_encode_le|rewrite decode_be_encode_be]; reflexivity).
    pose proof (prim_value_read_back n s le z ltac:(lia) Hv) as Hrb.
    cbv zeta in Hrb |- *. rewrite Hrb. reflexivity.
  - destruct Hc as [Er _]. rewrite Er in Hr. injection Hr as <-.
    destruct v as [| | |n| | |]; try contradiction. intros Hlen Hbuf.
    cbn [apply_reader]. unfold lift.
    rewrite read_float_in_bounds by lia. cbv zeta.
    set (bs := if le then encode_le (Buffer.float_bytes double) (number_bits double n)
               else encode_be (Buffer.float_bytes double) (number_bits double n)) in *.
    assert (Hl : length bs = Buffer.float_bytes double)
      by (subst bs; destruct le; [apply length_encode_le|apply length_encode_be]).
    rewrite (sub_mid pre _ post o _ Hpre) by (rewrite length_app; lia).
    rewrite take_app_length' by (symmetry; exact Hl).
    destruct (float_number_bits double n Hv) as [Hrange Hvalue].
    replace (if le then decode_le bs else decode_be bs) with (number_bits double n).
    + rewrite Hvalue. reflexivity.
    + subst bs. destruct le; [rewrite decode_le_encode_le|rewrite decode_be_encode_be];
        rewrite pow256; symmetry; apply Z.mod_small; exact Hrange.
  - destruct Hc as [Er _]. rewrite Er in Hr. injection Hr as <-.
    destruct v as [| | |[z|? ?| | |]|t| |]; try contradiction. intros Hlen Hbuf.
    pose proof Hv as Ht'.
    cbn [apply_reader]. unfold lift, readString.
    destruct (Z.ltb_spec (Buffer.len (pre ++ (list_byte_of_string t
                ++ zeros (f_size f - Z.of_nat (String.length t))) ++ post))
                (o + f_size f)); [lia|].
    rewrite andb_false_r. unfold Buffer.toString. rewrite Hbuf.
    rewrite Z.max_l, Z.min_l by lia.
    destruct (Z.leb_spec (o + f_size f) o).
    + assert (Hz : String.length t = 0%nat) by lia.
      destruct t; [|discriminate]. unfold pad. replace (f_size f) with 0 by lia.
      reflexivity.
    + replace (o + f_size f) with (o + Z.of_nat (Z.to_nat (f_size f))) by lia.
      unfold Buffer.len in Hlen.
      rewrite (sub_mid pre _ post o _ Hpre) by lia.
      rewrite take_ge by lia. reflexivity.
  - destruct Hc as [Er _]. rewrite Er in Hr. injection Hr as <-.
    destruct v as [| | |[z|? ?| | |]| |b|]; try contradiction. intros Hlen Hbuf.
    cbn [apply_reader]. unfold lift, readbuffer.
    destruct (Z.ltb_spec (Buffer.len (pre ++ b ++ post)) (o + f_size f)); [lia|].
    rewrite andb_false_r. unfold Buffer.slice. rewrite Hbuf.
    destruct (Z.ltb_spec o 0); [lia|].
    destruct (Z.ltb_spec (o + f_size f) 0); [lia|].
    rewrite !Z.min_l by lia.
    replace (o + f_size f) with (o + Z.of_nat (length b)) by (unfold Buffer.len in Hv; lia).
    rewrite (sub_mid pre _ post o _ Hpre) by lia.
    rewrite take_ge by lia. reflexivity.
Qed.

(** Reading a field of fixed size within bounds succeeds. *)
Lemma apply_reader_total (f : field) (r : reader) (pre mid post : list byte)
    (o : Z) (na : bool) (m1 m2 : option int64mode) (bn : bool) :
  fixed_size f -> codec_ok f -> f_read f = Some r ->
  Buffer.len pre = o -> Buffer.len mid = f_size f ->
  exists val, apply_reader r (pre ++ mid ++ post) o na m1 m2 bn = (Ok val, bn).
Proof.
  intros (Hfix & Hs & Ht) Hc Hr Hpre Hmid. specialize (Hc Hfix).
  pose proof (len_nonneg pre) as Hpre0. pose proof (len_nonneg post) as Hpost0.
  assert (Hbuf : Buffer.len (pre ++ mid ++ post) = o + f_size f + Buffer.len post)
    by (rewrite !len_app; lia).
  destruct (f_type f) as [n s le|double le| |].
  - destruct Ht as [Hn Hle]. destruct (Hc ltac:(lia)) as [Er _].
    rewrite Er in Hr. injection Hr as <-. cbn [apply_reader]. unfold lift.
    rewrite read_in_bounds;
      [|lia|rewrite Hbuf; unfold Buffer.width; cbn [Buffer.p_bytes]; lia].
    eexists. reflexivity.
  - destruct Hc as [Er _]. rewrite Er in Hr. injection Hr as <-.
    cbn [apply_reader]. unfold lift.
    rewrite read_float_in_bounds by lia. eexists. reflexivity.
  - destruct Hc as [Er _]. rewrite Er in Hr. injection Hr as <-.
    cbn [apply_reader]. unfold lift, readString.
    destruct (Z.ltb_spec (Buffer.len (pre ++ mid ++ post)) (o + f_size f)); [lia|].
    rewrite andb_false_r. eexists. reflexivity.
  - destruct Hc as [Er _]. rewrite Er in Hr. injection Hr as <-.
    cbn [apply_reader]. unfold lift, readbuffer.
    destruct (Z.ltb_spec (Buffer.len (pre ++ mid ++ post)) (o + f_size f)); [lia|].
    rewrite andb_false_r. eexists. reflexivity.
Qed.

(** *** All fields *)

Lemma sum_sizes_nonneg (fs : list field) :
  Forall fixed_size fs -> 0 <= sum_sizes fs.
Proof.
  induction 1 as [|f fs (_ & Hs & _) _ IH]; simpl; lia.
Qed.

Lemma field_ready_fixed_size (data : record) (fs : list field) :
  Forall (field_ready data) fs -> Forall fixed_size fs.
Proof. intros H. eapply Forall_impl; [exact H|]. intros f (Hs & _). exact Hs. Qed.

(** The write pass of [pack] on a zero-initialised span. *)
Lemma forEach_writeField_images (data : record) (bn : bool) (off : Z) (na : bool)
    (fs : list field) :
  forall (pre post : list byte) (o : Z),
    consecutive o fs -> Forall (field_ready data) fs ->
    Buffer.len pre = off + o ->
    forEach fs (writeField data bn off na) (pre ++ zeros (sum_sizes fs) ++ post)
    = (Ok tt, pre ++ images data fs ++ post).
Proof.
  induction fs as [|f fs IH]; intros pre post o Hc Hr Hpre.
  - reflexivity.
  - destruct Hc as [Ho Hc]. inversion Hr as [|? ? Hf Hr']; subst.
    pose proof (sum_sizes_nonneg fs (field_ready_fixed_size _ _ Hr')) as Hsum.
    destruct Hf as (Hsup & Hcodec & Hw).
    pose proof (len_image f _ Hsup Hw) as Hlen.
    destruct Hsup as (Hfix & Hs & Ht).
    simpl sum_sizes. rewrite zeros_add by lia. rewrite <- app_assoc.
    simpl forEach. unfold bind.
    rewrite writeField_image; try assumption; [|repeat split; assumption].
    unfold images. simpl flat_map. fold (images data fs).
    replace (pre ++ image f (field_value data f) ++ zeros (sum_sizes fs) ++ post)
      with ((pre ++ image f (field_value data f)) ++ zeros (sum_sizes fs) ++ post)
      by (rewrite <- app_assoc; reflexivity).
    rewrite (IH _ post (f_offset f + f_size f) Hc Hr').
    + rewrite <- !app_assoc. reflexivity.
    + rewrite len_app. lia.
Qed.

(** The read pass of [unpack] on the bytes that [pack] wrote. *)
Lemma readFields_images (values : record) (off : Z) (na : bool) (fs : list field) :
  forall (pre post : list byte) (o : Z) (data : record) (i : nat) (w : world),
    consecutive o fs -> Forall (field_ready values) fs ->
    Forall (field_holds values) fs ->
    Buffer.len pre = off + o ->
    readFields (pre ++ images values fs ++ post) off na data i fs w
    = (Ok (fold_left (collect values) fs data), w).
Proof.
  induction fs as [|f fs IH]; intros pre post o data i w Hc Hr Hh Hpre.
  - reflexivity.
  - destruct Hc as [Ho Hc]. inversion Hr as [|? ? Hf Hr']; subst.
    inversion Hh as [|? ? Hhf Hh']; subst.
    destruct Hf as (Hsup & Hcodec & Hw).
    pose proof (len_image f _ Hsup Hw) as Hlen.
    assert (Hread : exists r, f_read f = Some r).
    { destruct Hsup as (Hfix & _ & Ht). specialize (Hcodec Hfix).
      destruct (f_type f); [destruct Hcodec as [-> _]; [lia|]|destruct Hcodec as [-> _]..];
        eexists; reflexivity. }
    destruct Hread as [r Er].
    unfold images. simpl flat_map. fold (images values fs).
    rewrite <- app_assoc.
    assert (Hstep : readField (pre ++ image f (field_value values f)
                                 ++ images values fs ++ post) off na data i f w
                    = (Ok (collect values data f), w)).
    { unfold readField, bind, get, onBigNumber, ret.
      destruct Hsup as (Hfix & Hs & Ht). rewrite Hfix, Er.
      unfold field_holds, collect in *. destruct w as [bn d]. simpl.
      destruct (f_name f) as [s|n] eqn:En.
      - destruct Hhf as (v & Hv & Hin). rewrite Hv.
        assert (Ei : image f (field_value values f) = image f v).
        { unfold field_value. rewrite En. simpl key. rewrite Hv. apply image_or0. exact Hin. }
        rewrite Ei.
        rewrite (apply_reader_image f v r pre _ (off + f_offset f) na _ _ bn);
          try assumption; [reflexivity|repeat split; assumption].
      - destruct (apply_reader_total f r pre (image f (field_value values f))
                    (images values fs ++ post) (off + f_offset f) na
                    (Some (def_int64mode d)) (f_int64mode f) bn) as [val Hval];
          try assumption; [repeat split; assumption|].
        rewrite Hval. reflexivity. }
    simpl readFields. unfold bind. rewrite Hstep.
    replace (pre ++ image f (field_value values f) ++ images values fs ++ post)
      with ((pre ++ image f (field_value values f)) ++ images values fs ++ post)
      by (rewrite <- app_assoc; reflexivity).
    rewrite (IH _ post (f_offset f + f_size f) _ _ _ Hc Hr' Hh').
    + reflexivity.
    + rewrite len_app. lia.
Qed.

(** *** Names and keys *)

Lemma fixed_size_not_configurable (f : field) : fixed_size f -> configurable f = false.
Proof. intros (H & _). unfold configurable. rewrite H. reflexivity. Qed.

Lemma fixed_keys_all (fs : list field) :
  Forall fixed_size fs -> fixed_keys fs = map field_key fs.
Proof.
  unfold fixed_keys. induction 1 as [|f fs Hf _ IH]; simpl; [reflexivity|].
  rewrite (fixed_size_not_configurable f Hf). simpl. rewrite IH. reflexivity.
Qed.

Lemma key_unique (fs : list field) (f g : field) :
  NoDup (map field_key fs) -> In f fs -> In g fs -> field_key f = field_key g -> f = g.
Proof.
  induction fs as [|h fs IH]; intros Hn Hf Hg Hk; [contradiction|].
  simpl in Hn. apply NoDup_cons in Hn. destruct Hn as [Hh Hn].
  assert (Hnot : forall x, In x fs -> field_key x <> field_key h).
  { intros x Hx Heq. apply Hh. apply list_elem_of_In. rewrite <- Heq.
    apply in_map. exact Hx. }
  destruct Hf as [<-|Hf], Hg as [<-|Hg].
  - reflexivity.
  - exfalso. apply (Hnot g Hg). symmetry. exact Hk.
  - exfalso. apply (Hnot f Hf). exact Hk.
  - apply IH; assumption.
Qed.

Lemma find_field_unique (fs : list field) (f : field) :
  NoDup (map field_key fs) -> In f fs -> find_field (f_name f) fs = Some f.
Proof.
  intros Hn Hf.
  destruct (find_field (f_name f) fs) as [g|] eqn:E.
  - apply find_field_Some in E. destruct E as [Hg Hname].
    f_equal. apply (key_unique fs g f Hn Hg Hf). unfold field_key. rewrite Hname. reflexivity.
  - exfalso. apply (find_field_In f fs Hf). exact E.
Qed.

(** The record that the read pass collects, key by key. *)
Lemma collect_lookup (values : record) (fs : list field) :
  NoDup (map field_key fs) ->
  forall (data : record) (k : string),
    fold_left (collect values) fs data !! k
    = match find_field (Named k) fs, values !! k with
      | Some f, Some v => Some (decode_value f v)
      | _, _ => data !! k
      end.
Proof.
  induction fs as [|f fs IH]; intros Hn data k.
  - simpl. destruct (values !! k); reflexivity.
  - simpl in Hn. apply NoDup_cons in Hn. destruct Hn as [Hh Hn].
    simpl fold_left. rewrite (IH Hn). unfold find_field. simpl find.
    fold (find_field (Named k) fs).
    destruct (fname_eqb (f_name f) (Named k)) eqn:Ef.
    + apply fname_eqb_eq in Ef.
      assert (Hnone : find_field (Named k) fs = None).
      { destruct (find_field (Named k) fs) as [g|] eqn:Eg; [|reflexivity].
        apply find_field_Some in Eg. destruct Eg as [Hg Hname].
        exfalso. apply Hh. apply list_elem_of_In.
        replace (field_key f) with (field_key g)
          by (unfold field_key; rewrite Hname, Ef; reflexivity).
        apply in_map. exact Hg. }
      rewrite Hnone. unfold collect. rewrite Ef.
      destruct (values !! k); [apply lookup_insert_eq|reflexivity].
    + assert (Hsame : collect values data f !! k = data !! k).
      { unfold collect. destruct (f_name f) as [s|n]; [|reflexivity].
        destruct (values !! s); [|reflexivity].
        apply lookup_insert_ne. intros ->. simpl in Ef.
        rewrite String.eqb_refl in Ef. discriminate. }
      rewrite Hsame. reflexivity.
Qed.

Lemma collect_padded (values : record) (fs : list field) :
  NoDup (map field_key fs) ->
  assigned fs values ->
  fold_left (collect values) fs ∅ = padded fs values.
Proof.
  intros Hn [_ Hdom]. apply map_eq. intros k.
  rewrite (collect_lookup values fs Hn). unfold padded. rewrite map_lookup_imap.
  destruct (values !! k) as [v|] eqn:Ev; simpl.
  - destruct (find_field (Named k) fs) as [f|] eqn:Ef; [reflexivity|].
    destruct (Hdom k) as (g & Hg & Hname); [rewrite Ev; eexists; reflexivity|].
    exfalso. apply (find_field_In g fs Hg). rewrite Hname. exact Ef.
  - destruct (find_field (Named k) fs); apply lookup_empty.
Qed.

(** *** Text padding *)

Lemma length_string_of_list_byte (l : list byte) :
  String.length (string_of_list_byte l) = length l.
Proof.
  rewrite <- (length_list_byte_of_string (string_of_list_byte l)).
  rewrite list_byte_of_string_of_list_byte. reflexivity.
Qed.

Lemma representable_decode (f : field) (v : value) :
  fixed_size f -> representable f v -> representable f (decode_value f v).
Proof.
  intros (_ & Hs & _). unfold representable, decode_value.
  destruct (f_type f); try tauto.
  destruct v as [| | |[z|? ?| | |]|t| |]; try tauto. intros Hlen.
  unfold pad.
  rewrite length_string_of_list_byte.
  rewrite length_app, length_list_byte_of_string. unfold zeros.
  rewrite repeat_length. lia.
Qed.

Lemma image_decode (f : field) (v : value) :
  representable f v -> image f (decode_value f v) = image f v.
Proof.
  unfold representable, decode_value, image.
  destruct (f_type f); try reflexivity.
  destruct v as [| | |[z|? ?| | |]|t| |]; try reflexivity. intros Hlen.
  unfold pad. rewrite length_string_of_list_byte, list_byte_of_string_of_list_byte.
  rewrite length_app, length_list_byte_of_string, length_zeros.
  replace (f_size f - Z.of_nat (String.length t
             + Z.to_nat (f_size f - Z.of_nat (String.length t)))) with 0 by lia.
  apply app_nil_r.
Qed.

Lemma padded_fills (fs : list field) (values : record) :
  texts_fill fs values -> padded fs values = values.
Proof.
  intros Hfill. apply map_eq. intros k. unfold padded. rewrite map_lookup_imap.
  destruct (values !! k) as [v|] eqn:Ev; simpl; [|reflexivity].
  destruct (find_field (Named k) fs) as [f|] eqn:Ef; [|reflexivity].
  apply find_field_Some in Ef. destruct Ef as [Hf Hname].
  f_equal. unfold decode_value.
  destruct (f_type f); try reflexivity.
  destruct v as [| | |[z|? ?| | |]|t| |]; try reflexivity.
  rewrite <- (Hfill f k t Hf Hname Ev). unfold pad.
  rewrite Z.sub_diag. unfold zeros. simpl. rewrite app_nil_r.
  rewrite string_of_list_byte_of_string. reflexivity.
Qed.

(** *** From the assigned to the fields *)

Lemma field_value_cases (values : record) (fs : list field) (f : field) :
  NoDup (map field_key fs) -> assigned fs values -> In f fs ->
  (exists s v, f_name f = Named s /\ values !! s = Some v /\ representable f v /\
               field_value values f = or0 v) \/
  (exists n, f_name f = Positional n /\ values !! key (f_name f) = None /\
             (field_value values f = VNumber (Fin 0) \/
              exists d, f_value f = Some d /\ representable f d /\
                        field_value values f = or0 d)).
Proof.
  intros Hn [Hval Hdom] Hf. specialize (Hval f Hf).
  destruct (f_name f) as [s|n] eqn:En.
  - left. destruct Hval as (v & Hv & Hin). exists s, v.
    repeat split; try assumption. unfold field_value. rewrite En. simpl key.
    rewrite Hv. reflexivity.
  - right. exists n. split; [reflexivity|].
    assert (Hnone : values !! key (Positional n) = None).
    { destruct (values !! key (Positional n)) as [v|] eqn:Ev; [|reflexivity].
      destruct (Hdom (key (Positional n))) as (g & Hg & Hname);
        [rewrite Ev; eexists; reflexivity|].
      assert (g = f).
      { apply (key_unique fs g f Hn Hg Hf). unfold field_key. rewrite Hname, En. reflexivity. }
      subst g. rewrite En in Hname. discriminate. }
    split; [exact Hnone|].
    unfold field_value. rewrite En, Hnone.
    destruct (f_value f) as [d|] eqn:Ed.
    + right. exists d. repeat split. apply Hval. reflexivity.
    + left. reflexivity.
Qed.

Lemma assigned_ready (values : record) (fs : list field) :
  NoDup (map field_key fs) -> Forall fixed_size fs -> Forall codec_ok fs ->
  assigned fs values ->
  Forall (field_ready values) fs /\ Forall (field_holds values) fs.
Proof.
  intros Hn Hsup Hcodec Ha.
  rewrite Forall_forall in Hsup, Hcodec.
  split; apply Forall_forall; intros f Hf; apply list_elem_of_In in Hf.
  - split; [apply Hsup; apply list_elem_of_In; exact Hf|].
    split; [apply Hcodec; apply list_elem_of_In; exact Hf|].
    destruct (field_value_cases values fs f Hn Ha Hf)
      as [(s & v & _ & _ & Hin & ->)|(n & _ & _ & [->|(d & _ & Hin & ->)])].
    + apply representable_writable_or0. exact Hin.
    + right. reflexivity.
    + apply representable_writable_or0. exact Hin.
  - unfold field_holds.
    destruct (field_value_cases values fs f Hn Ha Hf)
      as [(s & v & -> & Hv & Hin & _)|(n & -> & _)]; [|exact I].
    exists v. split; assumption.
Qed.

Lemma padded_field_value (values : record) (fs : list field) (f : field) :
  NoDup (map field_key fs) -> Forall fixed_size fs -> assigned fs values -> In f fs ->
  writable f (field_value (padded fs values) f) /\
  image f (field_value (padded fs values) f) = image f (field_value values f).
Proof.
  intros Hn Hsup Ha Hf.
  assert (Hs : fixed_size f).
  { rewrite Forall_forall in Hsup. apply Hsup. apply list_elem_of_In. exact Hf. }
  destruct (field_value_cases values fs f Hn Ha Hf)
    as [(s & v & En & Hv & Hin & Efv)|(n & En & Hnone & Hcase)].
  - assert (Ep : field_value (padded fs values) f = or0 (decode_value f v)).
    { unfold field_value, padded. rewrite En. simpl key. rewrite map_lookup_imap, Hv.
      simpl. rewrite <- En, (find_field_unique fs f Hn Hf). reflexivity. }
    rewrite Ep, Efv. pose proof (representable_decode f v Hs Hin) as Hd. split.
    + apply representable_writable_or0. exact Hd.
    + rewrite (image_or0 f _ Hd), (image_or0 f v Hin). apply image_decode. exact Hin.
  - assert (Ep : field_value (padded fs values) f = field_value values f).
    { unfold field_value, padded. rewrite map_lookup_imap, Hnone. reflexivity. }
    rewrite Ep. split; [|reflexivity].
    destruct Hcase as [->|(d & _ & Hin & ->)].
    + right. reflexivity.
    + apply representable_writable_or0. exact Hin.
Qed.

Lemma padded_ready (values : record) (fs : list field) :
  NoDup (map field_key fs) -> Forall fixed_size fs -> Forall codec_ok fs ->
  assigned fs values ->
  Forall (field_ready (padded fs values)) fs /\
  forall l, incl l fs -> images (padded fs values) l = images values l.
Proof.
  intros Hn Hsup Hcodec Ha. split.
  - apply Forall_forall. intros f Hf.
    split; [rewrite Forall_forall in Hsup; apply Hsup; exact Hf|].
    split; [rewrite Forall_forall in Hcodec; apply Hcodec; exact Hf|].
    apply list_elem_of_In in Hf.
    apply (padded_field_value values fs f Hn Hsup Ha Hf).
  - induction l as [|f l IH]; intros Hl; [reflexivity|].
    unfold images in *. simpl.
    rewrite IH by (intros x Hx; apply Hl; right; exact Hx).
    f_equal. apply (padded_field_value values fs f Hn Hsup Ha). apply Hl. left. reflexivity.
Qed.

(** [pack] without a destination buffer on a static schema. *)
Lemma pack_static_images (data : record) (offset : option Z) (na : option bool)
    (w : world) :
  staticSized (def w) = true ->
  consecutive 0 (fields (def w)) ->
  size (def w) = sum_sizes (fields (def w)) ->
  Forall (field_ready data) (fields (def w)) ->
  0 <= match offset with Some z => z | None => 0 end ->
  pack (Some data) None offset na w
  = (Ok (zeros (match offset with Some z => z | None => 0 end)
         ++ images data (fields (def w))),
     (w, Some (zeros (match offset with Some z => z | None => 0 end)
               ++ images data (fields (def w))))).
Proof.
  intros Hst Hl Hsz Hr Hoff.
  pose proof (sum_sizes_nonneg _ (field_ready_fixed_size _ _ Hr)) as Hsum.
  unfold pack, resolveForPack, bind, get. rewrite Hst. unfold ret.
  set (off := match offset with Some z => z | None => 0 end) in *.
  unfold Buffer.alloc. rewrite Hsz.
  destruct (Z.ltb_spec (sum_sizes (fields (def w)) + off) 0); [lia|].
  change (repeat x00 (Z.to_nat (sum_sizes (fields (def w)) + off)))
    with (zeros (sum_sizes (fields (def w)) + off)).
  rewrite Z.add_comm, zeros_add by lia.
  rewrite <- (app_nil_r (zeros (sum_sizes (fields (def w))))).
  rewrite (forEach_writeField_images data (BigNumber w) off _ (fields (def w))
             (zeros off) [] 0 Hl Hr)
    by (rewrite len_zeros by lia; lia).
  rewrite app_nil_r. reflexivity.
Qed.

(** *** The narrower field kinds *)

Lemma supported_fixed_size (f : field) : supported f -> fixed_size f.
Proof.
  intros (Hfix & Hs & Ht). repeat split; try assumption.
  destruct (f_type f); tauto.
Qed.

Lemma in_range_representable (f : field) (v : value) :
  in_range f v -> representable f v.
Proof.
  unfold in_range, representable.
  destruct (f_type f); try tauto.
  destruct v; try tauto.
Qed.

Lemma assignment_assigned (fs : list field) (values : record) :
  assignment fs values -> assigned fs values.
Proof.
  intros [Hval Hdom]. split; [|exact Hdom].
  intros f Hf. specialize (Hval f Hf). destruct (f_name f) as [s|n].
  - destruct Hval as (v & Hv & Hin). exists v. split; [exact Hv|].
    apply in_range_representable. exact Hin.
  - intros d Hd. apply in_range_representable. apply Hval. exact Hd.
Qed.

Lemma Forall_supported_fixed_size (fs : list field) :
  Forall supported fs -> Forall fixed_size fs.
Proof. intros H. eapply Forall_impl; [exact H|]. exact supported_fixed_size. Qed.

(** C1, as the code has it: for a declared schema of static size whose
    fields are 8-, 16- or 32-bit integer, float, double, text or block
    fields, none of a negative size or narrower than its number type, and
    values that give every named field, and nothing else, a value that the
    field represents (an integer within its range, a number that the float
    or double holds without rounding, a text whose UTF-8 encoding is no
    longer than the field, a block of the size of the field), the unnamed
    fields having no default or one that they represent, and for any
    non-negative offset: [pack] succeeds; [unpack] of the packed buffer
    returns the values with every text right-padded with NUL characters to
    the size of its field, so the values themselves when every text fills
    its field; and packing what [unpack] returned gives the same bytes. *)
Theorem fixed_size_round_trip (bn : bool) (opts : option options) (ds : list decl)
    (w : world) (values : record) (offset : option Z) (na : option bool) :
  build bn opts ds = Ok w ->
  staticSized (def w) = true ->
  Forall fixed_size (fields (def w)) ->
  assigned (fields (def w)) values ->
  0 <= match offset with Some z => z | None => 0 end ->
  exists b : Buffer.t,
    pack (Some values) None offset na w = (Ok b, (w, Some b)) /\
    unpack b offset na w = (Ok (padded (fields (def w)) values), w) /\
    pack (Some (padded (fields (def w)) values)) None offset na w = (Ok b, (w, Some b)) /\
    (texts_fill (fields (def w)) values -> padded (fields (def w)) values = values).
Proof.
  intros Hb Hst Hsup Ha Hoff.
  destruct (build_schema_ok _ _ _ _ Hb) as [Hl Hsz Hcodec _ Hnd].
  rewrite (fixed_keys_all _ Hsup) in Hnd.
  destruct (assigned_ready values _ Hnd Hsup Hcodec Ha) as [Hready Hholds].
  destruct (padded_ready values _ Hnd Hsup Hcodec Ha) as [Hpready Himages].
  eexists. split; [apply pack_static_images; assumption|]. split; [|split].
  - unfold unpack, bind, get.
    rewrite <- (app_nil_r (images values (fields (def w)))).
    rewrite (readFields_images values _ _ (fields (def w)) _ [] 0 ∅ 0%nat w Hl Hready Hholds)
      by (rewrite len_zeros by lia; lia).
    rewrite (collect_padded values _ Hnd Ha). reflexivity.
  - rewrite pack_static_images by assumption.
    rewrite (Himages _ (incl_refl _)). reflexivity.
  - apply padded_fills.
Qed.

Lemma fixed_size_round_trip_witness :
  exists (w : world) (b : Buffer.t),
    build false no_options all_kinds_decls = Ok w /\
    pack (Some all_kinds_values) None None None w = (Ok b, (w, Some b)) /\
    unpack b None None w = (Ok (padded (fields (def w)) all_kinds_values), w).
Proof.
  eexists.
  match goal with
  | |- exists b, build _ _ _ = Ok ?w /\ _ =>
      assert (Hb : build false no_options all_kinds_decls = Ok w) by (vm_compute; reflexivity)
  end.
  destruct (fixed_size_round_trip false no_options all_kinds_decls _ all_kinds_values
              None None Hb) as (b & Hp & Hu & _).
  - vm_compute. reflexivity.
  - repeat (apply List.Forall_cons; [repeat split; simpl; try reflexivity; lia|]).
    apply List.Forall_nil.
  - split.
    + intros f Hf. simpl in Hf.
      destruct Hf as [<-|[<-|[<-|[<-|[<-|[<-|[]]]]]]]; simpl.
      * eexists. split; [vm_compute; reflexivity|].
        vm_compute. split; intro; discriminate.
      * eexists. split; [vm_compute; reflexivity|].
        split; [reflexivity|].
        right. split; [vm_compute; discriminate|left; vm_compute; discriminate].
      * eexists. split; [vm_compute; reflexivity|].
        split; [reflexivity|].
        right. split; [vm_compute; discriminate|left; vm_compute; discriminate].
      * eexists. split; [vm_compute; reflexivity|]. vm_compute. discriminate.
      * eexists. split; [vm_compute; reflexivity|]. vm_compute. reflexivity.
      * intros d Hd. discriminate.
    + intros k [v Hk]. unfold all_kinds_values in Hk.
      rewrite !lookup_insert in Hk.
      repeat case_decide; subst; simpl.
      * eexists. split; [left; reflexivity|reflexivity].
      * eexists. split; [right; left; reflexivity|reflexivity].
      * eexists. split; [right; right; left; reflexivity|reflexivity].
      * eexists. split; [right; right; right; left; reflexivity|reflexivity].
      * eexists. split; [right; right; right; right; left; reflexivity|reflexivity].
      * rewrite lookup_empty in Hk. discriminate.
  - simpl. lia.
  - exists b. split; [exact Hb|]. split; assumption.
Defined.

(** C1 as it is worded fails on [def().string('s', 5)] and the value
    {s: "hi"}: the text comes back as "hi" followed by three NUL characters. *)
Lemma short_text_not_read_back :
  exists (w w' : world) (b : Buffer.t) (r : record),
    build false no_options (text_decls 5) = Ok w /\
    pack (Some {["s"%string := VString "hi"]}) None None None w = (Ok b, (w, Some b)) /\
    unpack b None None w = (Ok r, w') /\
    r <> {["s"%string := VString "hi"]}.
Proof.
  do 4 eexists. split; [vm_compute; reflexivity|].
  split; [vm_compute; reflexivity|].
  split; [vm_compute; reflexivity|].
  intros H. apply (f_equal (fun m : record => m !! "s"%string)) in H.
  vm_compute in H. discriminate.
Qed.

(** A float field holds 24 significant bits: [def().floatbe('x')] packs
    16777217 = 2^24 + 1, which is within the range of a float, as 4B 80 00
    00 and reads 16777216 back. *)
Lemma float_value_rounded :
  exists (w : world) (b : Buffer.t),
    build false no_options float_decls = Ok w /\
    pack (Some {["x"%string := VNumber (Fin 16777217)]}) None None None w
    = (Ok b, (w, Some b)) /\
    b = [x4b; x80; x00; x00] /\
    unpack b None None w = (Ok {["x"%string := VNumber (Fin 16777216)]}, w).
Proof.
  do 2 eexists. split; [vm_compute; reflexivity|].
  split; [vm_compute; reflexivity|].
  split; [vm_compute; reflexivity|]. vm_compute. reflexivity.
Qed.

(** The default of an unnamed field is written like a value:
    [def().uint8(300).pack({})] throws. *)
Lemma filler_default_out_of_range :
  exists w : world,
    build false no_options filler_300_decls = Ok w /\
    fst (pack (Some ∅) None None None w) = Throw RangeError.
Proof. eexists. split; [vm_compute; reflexivity|]. vm_compute. reflexivity. Qed.

(** A number field whose size is overridden to less than the width of its
    type shares bytes with the next field:
    [def().uint16be('a', {size: 1}).uint8('b')] packs {a: 258, b: 3} as
    01 03 and reads a = 259 back. *)
Lemma narrow_field_overlaps :
  exists (w : world) (b : Buffer.t),
    build false no_options narrow_decls = Ok w /\
    pack (Some (<["a"%string := VNumber (Fin 258)]>
                  {["b"%string := VNumber (Fin 3)]})) None None None w
    = (Ok b, (w, Some b)) /\
    b = [x01; x03] /\
    unpack b None None w
    = (Ok (<["a"%string := VNumber (Fin 259)]> {["b"%string := VNumber (Fin 3)]}), w).
Proof.
  do 2 eexists. split; [vm_compute; reflexivity|].
  split; [vm_compute; reflexivity|].
  split; [vm_compute; reflexivity|]. vm_compute. reflexivity.
Qed.

(** A field of negative size shortens the buffer that [pack] allocates:
    [def().uint8('a').buffer(7, -1).pack({a: 5})] throws. *)
Lemma negative_size_not_packed :
  exists w : world,
    build false no_options negative_size_decls = Ok w /\
    size (def w) = 0 /\
    fst (pack (Some {["a"%string := VNumber (Fin 5)]}) None None None w)
    = Throw RangeError.
Proof.
  eexists. split; [vm_compute; reflexivity|].
  split; [vm_compute; reflexivity|]. vm_compute. reflexivity.
Qed.

(** A 64-bit field is not covered by the round trip.  While bignumber.js is
    not loaded, packing a number into [def().uint64be('x')] throws a
    TypeError; once it is loaded, the number 2^20 is packed with both halves
    equal to its low 32 bits, and strict decoding refuses the result. *)
Lemma uint64_field_not_read_back :
  exists (w : world) (b : Buffer.t),
    build false no_options uint64_decls = Ok w /\
    fst (pack (Some {["x"%string := VNumber (Fin (2 ^ 20))]}) None None None w)
    = Throw TypeError /\
    fst (pack (Some {["x"%string := VNumber (Fin (2 ^ 20))]}) None None None
           (World true (def w)))
    = Ok b /\
    b = [x00; x10; x00; x00; x00; x10; x00; x00] /\
    fst (unpack b None None (World true (def w))) = Throw OverflowError.
Proof.
  do 2 eexists. split; [vm_compute; reflexivity|].
  split; [vm_compute; reflexivity|].
  split; [vm_compute; reflexivity|].
  split; [vm_compute; reflexivity|]. vm_compute. reflexivity.
Qed.

(** ** More on the 64-bit reader *)

Lemma decode_be_range (l : list byte) :
  0 <= decode_be l < 256 ^ Z.of_nat (length l).
Proof.
  induction l as [|b l IH] using rev_ind.
  - vm_compute. split; [discriminate | reflexivity].
  - rewrite decode_be_app, length_app. simpl length.
    pose proof (byte_val_range b).
    replace (Z.of_nat (length l + 1)) with (Z.succ (Z.of_nat (length l))) by lia.
    rewrite Z.pow_succ_r by lia. nia.
Qed.

Lemma decode_le_range (l : list byte) :
  0 <= decode_le l < 256 ^ Z.of_nat (length l).
Proof.
  unfold decode_le. rewrite <- (length_rev l). apply decode_be_range.
Qed.

Lemma read_uint32_range (le : bool) (buf : Buffer.t) (o hi : Z) :
  Buffer.read (Buffer.UInt32 le) buf o = Ok hi -> 0 <= hi < 2 ^ 32.
Proof.
  unfold Buffer.read, Buffer.UInt32, Buffer.width. cbn [Buffer.p_bytes Buffer.p_le Buffer.p_signed].
  destruct ((o <? 0) || (Buffer.len buf <? o + Z.of_nat 4)) eqn:E; [discriminate|].
  cbn [andb]. intros H. injection H as <-.
  assert (Hl : (length (Buffer.sub buf o (o + Z.of_nat 4)) <= 4)%nat).
  { unfold Buffer.sub. rewrite length_take. lia. }
  assert (Hp : 256 ^ Z.of_nat (length (Buffer.sub buf o (o + Z.of_nat 4))) <= 2 ^ 32).
  { change (2 ^ 32) with (256 ^ 4). apply Z.pow_le_mono_r; lia. }
  destruct le.
  - pose proof (decode_le_range (Buffer.sub buf o (o + Z.of_nat 4))). lia.
  - pose proof (decode_be_range (Buffer.sub buf o (o + Z.of_nat 4))). lia.
Qed.

Lemma ToInt32_idem (z : Z) : ToInt32 (ToInt32 z) = ToInt32 z.
Proof.
  pose proof (ToInt32_range z). unfold ToInt32 at 1.
  destruct (Z.le_gt_cases 0 (ToInt32 z)).
  - rewrite Z.mod_small by lia. destruct (Z.ltb_spec (ToInt32 z) (2 ^ 31)); lia.
  - replace (ToInt32 z mod 2 ^ 32) with (ToInt32 z + 2 ^ 32)
      by (apply (Z.mod_unique _ _ (-1)); lia).
    destruct (Z.ltb_spec (ToInt32 z + 2 ^ 32) (2 ^ 31)); lia.
Qed.

(** The number assembled from an accepted pair of halves. *)
Lemma assembled_number (hi lo : Z) :
  0 <= hi < 2 ^ 20 ->
  bitor (shl (bitand hi 2097151) 32) (bitand lo 4294967295)
  = Z.lor hi (ToInt32 lo).
Proof.
  intros Hr.
  assert (Ehh : ToInt32 hi = hi).
  { rewrite (ToInt32_uint32 hi) by lia. destruct (Z.ltb_spec hi (2 ^ 31)); lia. }
  unfold bitor, shl, bitand. change (32 mod 32) with 0. rewrite Z.shiftl_0_r.
  change (ToInt32 4294967295) with (-1). rewrite Z.land_m1_r.
  change (ToInt32 2097151) with (Z.ones 21).
  rewrite Ehh, Z.land_ones by lia.
  rewrite (Z.mod_small hi) by lia.
  rewrite !Ehh, ToInt32_idem. reflexivity.
Qed.

(** What the strict and the lossy reader do with the two halves. *)
Lemma readInt64_number_modes (signed le na : bool) (buf : Buffer.t) (o : Z)
    (dm fm : option int64mode) (bn : bool) (hi lo : Z) :
  o + 8 <= Buffer.len buf ->
  select_mode fm dm = strict \/ select_mode fm dm = lossy ->
  Buffer.read (Buffer.UInt32 le) buf (if le then o + 4 else o + 0) = Ok hi ->
  Buffer.read (Buffer.UInt32 le) buf (if le then o + 0 else o + 4) = Ok lo ->
  readInt64AsNumber signed le buf o na dm fm bn
  = (if hi <? 2 ^ 20
     then Ok (VNumber (Fin (Z.lor hi (ToInt32 lo))))
     else match select_mode fm dm with
          | strict => Throw OverflowError
          | _ => Ok (VNumber (if signed && (2 ^ 31 <=? hi) then NegInfinity
                              else PosInfinity))
          end,
     bn).
Proof.
  intros H8 Hmode Ehi Elo.
  pose proof (read_uint32_range _ _ _ _ Ehi) as Hr.
  unfold readInt64AsNumber.
  replace (Buffer.len buf <? o + 8) with false by (symmetry; apply Z.ltb_ge; lia).
  rewrite andb_false_r.
  destruct (lostBits_spec hi Hr) as (L1 & L2 & L3).
  destruct Hmode as [-> | ->]; rewrite Ehi, Elo;
    unfold bind, validateInt64Mode, ret, lift, throw;
    rewrite ?L1, ?L2, ?L3;
    (destruct (Z.ltb_spec hi (2 ^ 20)) as [Hlt|Hge]; cbn [negb andb orb]).
  - rewrite assembled_number by lia. reflexivity.
  - destruct signed; reflexivity.
  - rewrite assembled_number by lia. reflexivity.
  - destruct signed; cbn [negb andb orb].
    + destruct (Z.ltb_spec hi (2 ^ 31)), (Z.leb_spec (2 ^ 31) hi); try lia; reflexivity.
    + reflexivity.
Qed.

(** The two 32-bit halves of an 8-byte pattern inside the buffer. *)
Lemma pattern_halves (le : bool) (buf : Buffer.t) (o : Z) :
  0 <= o -> o + 8 <= Buffer.len buf ->
  exists hi lo : Z,
    Buffer.read (Buffer.UInt32 le) buf (if le then o + 4 else o + 0) = Ok hi /\
    Buffer.read (Buffer.UInt32 le) buf (if le then o + 0 else o + 4) = Ok lo /\
    0 <= hi < 2 ^ 32 /\ 0 <= lo < 2 ^ 32 /\
    int64_value false le (Buffer.sub buf o (o + 8)) = hi * 2 ^ 32 + lo.
Proof.
  intros H0 H8.
  destruct (sub_eight buf o H0 H8)
    as (b0 & b1 & b2 & b3 & b4 & b5 & b6 & b7 & E8 & Elow & Ehigh).
  unfold int64_value. cbn [andb]. rewrite E8.
  destruct le.
  - exists (decode_le [b4; b5; b6; b7]), (decode_le [b0; b1; b2; b3]).
    rewrite Z.add_0_r, !read_uint32 by lia. rewrite Elow, Ehigh.
    pose proof (decode_le_range [b4; b5; b6; b7]) as R1.
    pose proof (decode_le_range [b0; b1; b2; b3]) as R2.
    change (256 ^ Z.of_nat (length [b4; b5; b6; b7])) with (2 ^ 32) in R1.
    change (256 ^ Z.of_nat (length [b0; b1; b2; b3])) with (2 ^ 32) in R2.
    repeat split; try lia.
    unfold decode_le, decode_be. simpl. lia.
  - exists (decode_be [b0; b1; b2; b3]), (decode_be [b4; b5; b6; b7]).
    rewrite Z.add_0_r, !read_uint32 by lia. rewrite Elow, Ehigh.
    pose proof (decode_be_range [b0; b1; b2; b3]) as R1.
    pose proof (decode_be_range [b4; b5; b6; b7]) as R2.
    change (256 ^ Z.of_nat (length [b0; b1; b2; b3])) with (2 ^ 32) in R1.
    change (256 ^ Z.of_nat (length [b4; b5; b6; b7])) with (2 ^ 32) in R2.
    repeat split; try lia.
    unfold decode_be. simpl. lia.
Qed.

(** The strict and the lossy reader in terms of the unsigned value [u] of
    the pattern they decode. *)
Lemma readInt64_pattern (signed le na : bool) (buf : Buffer.t) (o : Z)
    (dm fm : option int64mode) (bn : bool) :
  0 <= o -> o + 8 <= Buffer.len buf ->
  select_mode fm dm = strict \/ select_mode fm dm = lossy ->
  let u := int64_value false le (Buffer.sub buf o (o + 8)) in
  readInt64AsNumber signed le buf o na dm fm bn
  = (if u <? 2 ^ 52
     then Ok (VNumber (Fin (Z.lor (u / 2 ^ 32) (ToInt32 (u mod 2 ^ 32)))))
     else match select_mode fm dm with
          | strict => Throw OverflowError
          | _ => Ok (VNumber (if signed && (2 ^ 63 <=? u) then NegInfinity
                              else PosInfinity))
          end,
     bn).
Proof.
  intros H0 H8 Hmode u.
  destruct (pattern_halves le buf o H0 H8) as (hi & lo & Ehi & Elo & Rhi & Rlo & Eu).
  fold u in Eu.
  rewrite (readInt64_number_modes signed le na buf o dm fm bn hi lo H8 Hmode Ehi Elo).
  assert (Ediv : u / 2 ^ 32 = hi).
  { rewrite Eu. symmetry. apply (Z.div_unique _ _ _ lo); lia. }
  assert (Emod : u mod 2 ^ 32 = lo).
  { rewrite Eu. symmetry. apply (Z.mod_unique _ _ hi); lia. }
  rewrite Ediv, Emod.
  replace (u <? 2 ^ 52) with (hi <? 2 ^ 20)
    by (destruct (Z.ltb_spec hi (2 ^ 20)), (Z.ltb_spec u (2 ^ 52)); lia).
  replace (2 ^ 63 <=? u) with (2 ^ 31 <=? hi)
    by (destruct (Z.leb_spec (2 ^ 31) hi), (Z.leb_spec (2 ^ 63) u); lia).
  reflexivity.
Qed.

Lemma int64_value_unsigned_range (le : bool) (buf : Buffer.t) (o : Z) :
  0 <= int64_value false le (Buffer.sub buf o (o + 8)) < 2 ^ 64.
Proof.
  unfold int64_value. cbn [andb].
  assert (Hl : (length (Buffer.sub buf o (o + 8)) <= 8)%nat).
  { unfold Buffer.sub. rewrite length_take. lia. }
  assert (Hp : 256 ^ Z.of_nat (length (Buffer.sub buf o (o + 8))) <= 2 ^ 64).
  { change (2 ^ 64) with (256 ^ 8). apply Z.pow_le_mono_r; lia. }
  destruct le.
  - pose proof (decode_le_range (Buffer.sub buf o (o + 8))). lia.
  - pose proof (decode_be_range (Buffer.sub buf o (o + 8))). lia.
Qed.

Lemma int64_value_signed (le : bool) (bs : list byte) :
  int64_value true le bs
  = let u := int64_value false le bs in if 2 ^ 63 <=? u then u - 2 ^ 64 else u.
Proof. reflexivity. Qed.

(** X1: on every buffer and offset the strict reader of a 64-bit field
    throws an overflow error exactly where the lossy reader answers
    +Infinity or -Infinity; everywhere else the two return the same result
    (the same number or the same error). *)
Theorem strict_throws_where_lossy_saturates (signed le na : bool) (buf : Buffer.t)
    (o : Z) (dm : option int64mode) (bn : bool) :
  let lossy_result := readInt64AsNumber signed le buf o na dm (Some lossy) bn in
  let strict_result := readInt64AsNumber signed le buf o na dm (Some strict) bn in
  match fst lossy_result with
  | Ok (VNumber PosInfinity) | Ok (VNumber NegInfinity) =>
      strict_result = (Throw OverflowError, bn)
  | _ => strict_result = lossy_result
  end.
Proof.
  unfold readInt64AsNumber. cbn [select_mode].
  destruct (negb na && (Buffer.len buf <? o + 8)); [reflexivity|].
  unfold bind, validateInt64Mode, ret, lift, throw.
  destruct (Buffer.read (Buffer.UInt32 le) buf (if le then o + 4 else o + 0)) as [hi|e];
    [|reflexivity].
  destruct (Buffer.read (Buffer.UInt32 le) buf (if le then o + 0 else o + 4)) as [lo|e];
    [|reflexivity].
  destruct (negb (bitand hi 4293918720 =? 0)
            && (negb signed || negb (bitand hi 4293918720 =? 4293918720)));
    [|reflexivity].
  destruct (negb signed || (bitand hi 2147483648 =? 0)); reflexivity.
Qed.

(** X2: in strict mode the reader of a signed 64-bit field and the reader
    of an unsigned one return the same result on every buffer: the test
    [lostBits !== 0xFFF00000] that should let small negative values through
    compares a signed 32-bit result with a positive constant and never
    fails. *)
Theorem strict_ignores_signedness (signed le na : bool) (buf : Buffer.t) (o : Z)
    (dm fm : option int64mode) (bn : bool) :
  select_mode fm dm = strict ->
  readInt64AsNumber signed le buf o na dm fm bn
  = readInt64AsNumber (negb signed) le buf o na dm fm bn.
Proof.
  intros Hmode. unfold readInt64AsNumber. rewrite Hmode.
  destruct (negb na && (Buffer.len buf <? o + 8)); [reflexivity|].
  unfold bind, validateInt64Mode, ret, lift, throw.
  destruct (Buffer.read (Buffer.UInt32 le) buf (if le then o + 4 else o + 0))
    as [hi|e] eqn:Ehi; [|reflexivity].
  destruct (Buffer.read (Buffer.UInt32 le) buf (if le then o + 0 else o + 4)) as [lo|e];
    [|reflexivity].
  destruct (lostBits_spec hi (read_uint32_range _ _ _ _ Ehi)) as (_ & L2 & _).
  rewrite L2. destruct signed; cbn [negb orb]; reflexivity.
Qed.

Lemma strict_ignores_signedness_witness :
  readInt64AsNumber true false (int64_bytes false (-1)) 0 false None None false
  = readInt64AsNumber false false (int64_bytes false (-1)) 0 false None None false.
Proof. apply (strict_ignores_signedness true). reflexivity. Defined.

(** X3: a signed 64-bit field never decodes a negative value as a number:
    every 8-byte pattern that stands for a negative value, -1 included, is
    refused with an overflow error in strict mode and decodes to -Infinity
    in lossy mode. *)
Theorem negative_int64_never_decoded (le na : bool) (buf : Buffer.t) (o : Z)
    (dm fm : option int64mode) (bn : bool) :
  0 <= o -> o + 8 <= Buffer.len buf ->
  int64_value true le (Buffer.sub buf o (o + 8)) < 0 ->
  (select_mode fm dm = strict ->
   readInt64AsNumber true le buf o na dm fm bn = (Throw OverflowError, bn)) /\
  (select_mode fm dm = lossy ->
   readInt64AsNumber true le buf o na dm fm bn = (Ok (VNumber NegInfinity), bn)).
Proof.
  intros H0 H8 Hneg.
  rewrite int64_value_signed in Hneg. cbv zeta in Hneg.
  pose proof (int64_value_unsigned_range le buf o) as Hu.
  destruct (Z.leb_spec (2 ^ 63) (int64_value false le (Buffer.sub buf o (o + 8))))
    as [H63|H63]; [|lia].
  split; intros Hmode.
  - rewrite readInt64_pattern by auto. rewrite Hmode.
    destruct (Z.ltb_spec (int64_value false le (Buffer.sub buf o (o + 8))) (2 ^ 52));
      [lia|reflexivity].
  - rewrite readInt64_pattern by auto. rewrite Hmode.
    destruct (Z.ltb_spec (int64_value false le (Buffer.sub buf o (o + 8))) (2 ^ 52));
      [lia|].
    destruct (Z.leb_spec (2 ^ 63) (int64_value false le (Buffer.sub buf o (o + 8))));
      [reflexivity|lia].
Qed.

Lemma negative_int64_never_decoded_witness :
  readInt64AsNumber true false (int64_bytes false (-1)) 0 false None None false
  = (Throw OverflowError, false) /\
  readInt64AsNumber true false (int64_bytes false (-1)) 0 false None (Some lossy) false
  = (Ok (VNumber NegInfinity), false).
Proof.
  split.
  - apply (negative_int64_never_decoded false false (int64_bytes false (-1)) 0 None None false);
      [lia | vm_compute; discriminate | vm_compute; reflexivity | reflexivity].
  - apply (negative_int64_never_decoded false false (int64_bytes false (-1)) 0 None
             (Some lossy) false);
      [lia | vm_compute; discriminate | vm_compute; reflexivity | reflexivity].
Defined.

Lemma lor_int32_below (a b : Z) :
  0 <= a < 2 ^ 31 -> - 2 ^ 31 <= b < 2 ^ 31 -> Z.lor a b < 2 ^ 31.
Proof.
  intros Ha Hb.
  destruct (Z.le_gt_cases 0 b) as [Hb0|Hb0].
  - destruct (Z.eq_dec (Z.lor a b) 0) as [->|Hnz]; [lia|].
    assert (Hnn : 0 <= Z.lor a b) by (apply Z.lor_nonneg; lia).
    apply Z.log2_lt_pow2; [lia|].
    rewrite Z.log2_lor by lia.
    destruct (Z.eq_dec a 0) as [->|Ha0], (Z.eq_dec b 0) as [->|Hb1];
      try (change (Z.log2 0) with 0);
      repeat match goal with
      | |- context [Z.log2 ?x] =>
          lazymatch goal with
          | _ : Z.log2 x < 31 |- _ => fail
          | _ => assert (Z.log2 x < 31) by (apply Z.log2_lt_pow2; lia)
          end
      end; lia.
  - assert (Z.lor a b < 0) by (apply Z.lor_neg; lia). lia.
Qed.

(** X4: in strict and in lossy mode the reader of a 64-bit field returns
    the value that the 8-byte pattern stands for exactly when that value
    lies in [0, 2^31): the number is assembled with 32-bit operators. *)
Theorem int64_exact_below_2_31 (signed le na : bool) (buf : Buffer.t) (o : Z)
    (dm fm : option int64mode) (bn : bool) :
  0 <= o -> o + 8 <= Buffer.len buf ->
  select_mode fm dm = strict \/ select_mode fm dm = lossy ->
  let v := int64_value signed le (Buffer.sub buf o (o + 8)) in
  readInt64AsNumber signed le buf o na dm fm bn = (Ok (VNumber (Fin v)), bn)
  <-> 0 <= v < 2 ^ 31.
Proof.
  intros H0 H8 Hmode v.
  rewrite readInt64_pattern by auto. cbv zeta.
  pose proof (int64_value_unsigned_range le buf o) as Hu.
  set (u := int64_value false le (Buffer.sub buf o (o + 8))) in *.
  assert (Ev : v = if signed && (2 ^ 63 <=? u) then u - 2 ^ 64 else u) by reflexivity.
  clearbody v u.
  assert (Hhi : 0 <= u / 2 ^ 32) by (apply Z.div_pos; lia).
  pose proof (Z.mod_pos_bound u (2 ^ 32) ltac:(lia)) as Hlo.
  pose proof (Z.div_mod u (2 ^ 32) ltac:(lia)) as Hdm.
  pose proof (ToInt32_range (u mod 2 ^ 32)) as Hr.
  split.
  - intros E.
    destruct (Z.ltb_spec u (2 ^ 52)) as [H52|H52].
    + assert (Hhi20 : u / 2 ^ 32 < 2 ^ 20) by (apply Z.div_lt_upper_bound; lia).
      assert (Hv : v = Z.lor (u / 2 ^ 32) (ToInt32 (u mod 2 ^ 32))) by congruence.
      pose proof (lor_int32_below (u / 2 ^ 32) (ToInt32 (u mod 2 ^ 32)) ltac:(lia) Hr).
      destruct (signed && (2 ^ 63 <=? u)) eqn:Es.
      * apply andb_true_iff in Es as [_ Es]. apply Z.leb_le in Es. lia.
      * lia.
    + destruct Hmode as [Hm | Hm]; rewrite Hm in E; [discriminate|].
      destruct (signed && (2 ^ 63 <=? u)); discriminate.
  - intros Hv.
    assert (Evu : v = u).
    { destruct (signed && (2 ^ 63 <=? u)) eqn:Es; [|exact Ev].
      apply andb_true_iff in Es as [_ Es]. apply Z.leb_le in Es. lia. }
    subst v. rewrite Evu in *.
    destruct (Z.ltb_spec u (2 ^ 52)); [|lia].
    rewrite Z.div_small, Z.mod_small by lia.
    rewrite ToInt32_uint32 by lia.
    destruct (Z.ltb_spec u (2 ^ 31)); [|lia].
    rewrite Z.lor_0_l. reflexivity.
Qed.

Lemma int64_exact_below_2_31_witness :
  readInt64AsNumber false false (int64_bytes false 1000) 0 false None None false
  = (Ok (VNumber (Fin (int64_value false false
                         (Buffer.sub (int64_bytes false 1000) 0 (0 + 8))))), false)
  <-> 0 <= int64_value false false (Buffer.sub (int64_bytes false 1000) 0 (0 + 8)) < 2 ^ 31.
Proof.
  apply (int64_exact_below_2_31 false false false (int64_bytes false 1000) 0 None None false);
    [lia | vm_compute; discriminate | left; reflexivity].
Defined.

(** X5: in strict mode the reader of a 64-bit field returns a number for
    every pattern whose unsigned value is below 2^52 and throws an overflow
    error for every other pattern, whatever the signedness. *)
Theorem strict_accepts_below_2_52 (signed le na : bool) (buf : Buffer.t) (o : Z)
    (dm fm : option int64mode) (bn : bool) :
  0 <= o -> o + 8 <= Buffer.len buf ->
  select_mode fm dm = strict ->
  let u := int64_value false le (Buffer.sub buf o (o + 8)) in
  (u < 2 ^ 52 ->
   exists n, readInt64AsNumber signed le buf o na dm fm bn = (Ok (VNumber (Fin n)), bn)) /\
  (2 ^ 52 <= u ->
   readInt64AsNumber signed le buf o na dm fm bn = (Throw OverflowError, bn)).
Proof.
  intros H0 H8 Hmode u.
  rewrite readInt64_pattern by auto. cbv zeta. fold u. rewrite Hmode.
  split; intros H52.
  - destruct (Z.ltb_spec u (2 ^ 52)); [|lia]. eexists. reflexivity.
  - destruct (Z.ltb_spec u (2 ^ 52)); [lia|reflexivity].
Qed.

Lemma strict_accepts_below_2_52_witness :
  (int64_value false false (Buffer.sub (int64_bytes false (2 ^ 52)) 0 (0 + 8)) < 2 ^ 52 ->
   exists n, readInt64AsNumber false false (int64_bytes false (2 ^ 52)) 0 false None None
               false = (Ok (VNumber (Fin n)), false)) /\
  (2 ^ 52 <= int64_value false false (Buffer.sub (int64_bytes false (2 ^ 52)) 0 (0 + 8)) ->
   readInt64AsNumber false false (int64_bytes false (2 ^ 52)) 0 false None None false
   = (Throw OverflowError, false)).
Proof.
  apply (strict_accepts_below_2_52 false false false (int64_bytes false (2 ^ 52)) 0
           None None false);
    [lia | vm_compute; discriminate | reflexivity].
Defined.

(** ** The 64-bit writer *)

Lemma byte_of_mod (z : Z) : byte_of (z mod 256) = byte_of z.
Proof. unfold byte_of. rewrite Z.mod_mod by lia. reflexivity. Qed.

Lemma encode_le_split (n m : nat) (z : Z) :
  encode_le (n + m) z = encode_le n z ++ encode_le m (z / 256 ^ Z.of_nat n).
Proof.
  revert z. induction n as [|n IH]; intros z.
  - simpl. rewrite Z.div_1_r. reflexivity.
  - cbn [Nat.add encode_le app]. rewrite IH. f_equal. f_equal. f_equal.
    rewrite Nat2Z.inj_succ, Z.pow_succ_r by lia.
    rewrite Z.div_div by lia. reflexivity.
Qed.

Lemma encode_le_mod (n : nat) (z : Z) :
  encode_le n (z mod 256 ^ Z.of_nat n) = encode_le n z.
Proof.
  revert z. induction n as [|n IH]; intros z.
  - reflexivity.
  - cbn [encode_le]. rewrite Nat2Z.inj_succ, Z.pow_succ_r by lia.
    assert (Hp : 0 < 256 ^ Z.of_nat n) by (apply Z.pow_pos_nonneg; lia).
    f_equal.
    + rewrite <- byte_of_mod, <- (byte_of_mod z). f_equal.
      rewrite Z.rem_mul_r by lia.
      rewrite (Z.mul_comm 256), Z.mod_add by lia. apply Z.mod_mod. lia.
    + rewrite <- IH, <- (IH (z / 256)). f_equal.
      rewrite Z.rem_mul_r by lia.
      rewrite (Z.mul_comm 256), Z.div_add by lia.
      rewrite (Z.div_small (z mod 256)) by (apply Z.mod_pos_bound; lia).
      rewrite Z.add_0_l. apply Z.mod_mod. lia.
Qed.

(** The 8-byte pattern in terms of its halves. *)
Lemma int64_bytes_halves (le : bool) (hi lo : Z) :
  0 <= lo < 2 ^ 32 ->
  int64_bytes le (hi * 2 ^ 32 + lo)
  = if le then encode_le 4 lo ++ encode_le 4 hi
    else encode_be 4 hi ++ encode_be 4 lo.
Proof.
  intros Hlo.
  assert (E : encode_le 8 (hi * 2 ^ 32 + lo) = encode_le 4 lo ++ encode_le 4 hi).
  { rewrite (encode_le_split 4 4). f_equal.
    - rewrite <- encode_le_mod. change (256 ^ Z.of_nat 4) with (2 ^ 32).
      rewrite Z.add_comm, Z.mod_add, Z.mod_small by lia. reflexivity.
    - change (256 ^ Z.of_nat 4) with (2 ^ 32).
      rewrite Z.add_comm, Z.div_add, Z.div_small by lia. reflexivity. }
  unfold int64_bytes, encode_be. rewrite E. destruct le; [reflexivity|].
  apply rev_app_distr.
Qed.

Lemma length_int64_bytes (le : bool) (z : Z) : length (int64_bytes le z) = 8%nat.
Proof.
  unfold int64_bytes, encode_be. destruct le; [|rewrite length_rev]; apply length_encode_le.
Qed.

Lemma int64_value_bytes (le : bool) (z : Z) :
  int64_value false le (int64_bytes le z) = z mod 2 ^ 64.
Proof.
  unfold int64_value, int64_bytes. cbn [andb]. destruct le.
  - apply (decode_le_encode_le 8).
  - apply (decode_be_encode_be 8).
Qed.

(** Goals on the lengths of concatenated buffers. *)
Ltac len_solve :=
  unfold Buffer.len in *;
  rewrite ?length_app, ?length_encode_le, ?length_encode_be;
  simpl length; lia.

(** Two unsigned 32-bit stores, in the order of the writer, put the pattern
    of [hi * 2^32 + lo] into the span of the field. *)
Lemma store_halves (le : bool) (hi lo o : Z) (pre mid post : list byte) :
  0 <= hi < 2 ^ 32 -> 0 <= lo < 2 ^ 32 ->
  Buffer.len pre = o -> length mid = 8%nat ->
  (if le
   then Buffer.write_int (Buffer.UInt32 true) (VNumber (Fin hi)) (o + 4) ;;;
        Buffer.write_int (Buffer.UInt32 true) (VNumber (Fin lo)) (o + 0)
   else Buffer.write_int (Buffer.UInt32 false) (VNumber (Fin hi)) (o + 0) ;;;
        Buffer.write_int (Buffer.UInt32 false) (VNumber (Fin lo)) (o + 4))%js
    (pre ++ mid ++ post)
  = (Ok tt, pre ++ int64_bytes le (hi * 2 ^ 32 + lo) ++ post).
Proof.
  intros Hhi Hlo Ho Hm.
  destruct mid as [|m0 [|m1 [|m2 [|m3 [|m4 [|m5 [|m6 [|m7 [|]]]]]]]]]; try discriminate.
  rewrite int64_bytes_halves by lia.
  pose proof (len_nonneg pre) as Hp.
  assert (Hlen : forall l : list byte, length l = 8%nat ->
            Buffer.len (pre ++ l ++ post) = o + 8 + Buffer.len post).
  { intros l Hl. rewrite !len_app. unfold Buffer.len at 2. rewrite Hl. lia. }
  pose proof (len_nonneg post) as Hq.
  assert (Hrange : forall z b, 0 <= z < 2 ^ 32 ->
            Buffer.p_min (Buffer.UInt32 b) <= z <= Buffer.p_max (Buffer.UInt32 b)).
  { intros z b Hz. unfold Buffer.p_min, Buffer.p_max, Buffer.UInt32, Buffer.width.
    cbn [Buffer.p_signed Buffer.p_bytes]. change (2 ^ (8 * Z.of_nat 4)) with (2 ^ 32). lia. }
  assert (Hw : forall b, Buffer.width (Buffer.UInt32 b) = 4) by reflexivity.
  destruct le; unfold bind.
  - rewrite write_int_in_range; [| apply Hrange; lia | lia | rewrite Hw; len_solve].
    cbn [Buffer.p_le Buffer.p_bytes Buffer.UInt32].
    change (pre ++ [m0; m1; m2; m3; m4; m5; m6; m7] ++ post)
      with (pre ++ [m0; m1; m2; m3] ++ [m4; m5; m6; m7] ++ post).
    rewrite (app_assoc pre [m0; m1; m2; m3]).
    rewrite (splice_mid (pre ++ [m0; m1; m2; m3]) [m4; m5; m6; m7] post (encode_le 4 hi) (o + 4));
      [| len_solve | rewrite length_encode_le; simpl; lia].
    rewrite length_encode_le.
    change (drop 4 [m4; m5; m6; m7]) with (@nil byte). rewrite app_nil_l.
    rewrite <- app_assoc.
    rewrite write_int_in_range; [| apply Hrange; lia | lia | rewrite Hw; len_solve].
    cbn [Buffer.p_le Buffer.p_bytes Buffer.UInt32].
    rewrite (splice_mid pre [m0; m1; m2; m3] (encode_le 4 hi ++ post) (encode_le 4 lo) (o + 0));
      [| lia | rewrite length_encode_le; simpl; lia].
    rewrite length_encode_le. cbn [drop app].
    rewrite <- !app_assoc. reflexivity.
  - rewrite write_int_in_range; [| apply Hrange; lia | lia | rewrite Hw; len_solve].
    cbn [Buffer.p_le Buffer.p_bytes Buffer.UInt32].
    rewrite (splice_mid pre [m0; m1; m2; m3; m4; m5; m6; m7] post (encode_be 4 hi) (o + 0));
      [| lia | rewrite length_encode_be; simpl; lia].
    rewrite length_encode_be.
    change (drop 4 [m0; m1; m2; m3; m4; m5; m6; m7]) with [m4; m5; m6; m7].
    rewrite write_int_in_range; [| apply Hrange; lia | lia | rewrite Hw; len_solve].
    cbn [Buffer.p_le Buffer.p_bytes Buffer.UInt32].
    rewrite (app_assoc pre (encode_be 4 hi)).
    rewrite (splice_mid (pre ++ encode_be 4 hi) [m4; m5; m6; m7] post (encode_be 4 lo) (o + 4));
      [| len_solve | rewrite length_encode_be; simpl; lia].
    rewrite length_encode_be. cbn [drop app].
    rewrite <- !app_assoc. reflexivity.
Qed.




Lemma len_int64_bytes (le : bool) (z : Z) : Buffer.len (int64_bytes le z) = 8.
Proof. unfold Buffer.len. rewrite length_int64_bytes. reflexivity. Qed.

Lemma sub_pattern (pre bs post : list byte) :
  length bs = 8%nat ->
  Buffer.sub (pre ++ bs ++ post) (Buffer.len pre) (Buffer.len pre + 8) = bs.
Proof.
  intros Hl. change 8 with (Z.of_nat 8).
  rewrite (sub_mid pre bs post (Buffer.len pre) 8) by (reflexivity || lia).
  rewrite <- Hl. apply firstn_all.
Qed.



(** X7: with the big-number library loaded, writing a non-negative big
    number [z] to a 64-bit field stores the pattern of [z mod 2^64] in the
    8 bytes of the field, leaves the bytes around them as they were, and
    reading the field in int64 mode gives [z mod 2^64] back and leaves the
    library loaded. *)
Theorem int64_bignumber_round_trip (s s' le na na' : bool) (z : Z)
    (pre mid post : list byte) (dm fm : option int64mode) (bn : bool) :
  length mid = 8%nat ->
  select_mode fm dm = int64 ->
  0 <= z ->
  let buf' := pre ++ int64_bytes le (z mod 2 ^ 64) ++ post in
  writeInt64 s le true (VBigNumber z) (Buffer.len pre) na (pre ++ mid ++ post)
  = (Ok tt, buf') /\
  readInt64AsNumber s' le buf' (Buffer.len pre) na' dm fm bn
  = (Ok (VBigNumber (z mod 2 ^ 64)), true).
Proof.
  intros Hm Hmode Hz buf'.
  pose proof (Z.mod_pos_bound z (2 ^ 64) ltac:(lia)) as Hu.
  set (u := z mod 2 ^ 64) in *.
  assert (Hhi : 0 <= u / 2 ^ 32 < 2 ^ 32).
  { split; [apply Z.div_pos; lia | apply Z.div_lt_upper_bound; lia]. }
  pose proof (Z.mod_pos_bound u (2 ^ 32) ltac:(lia)) as Hlo.
  assert (Eu : u = u / 2 ^ 32 * 2 ^ 32 + u mod 2 ^ 32).
  { rewrite (Z.div_mod u (2 ^ 32)) at 1 by lia. lia. }
  assert (Elo : z mod 2 ^ 32 = u mod 2 ^ 32).
  { subst u. change (2 ^ 64) with (2 ^ 32 * 2 ^ 32).
    rewrite Z.rem_mul_r by lia.
    rewrite (Z.mul_comm (2 ^ 32)), Z.mod_add by lia. rewrite Z.mod_mod by lia. reflexivity. }
  split.
  - unfold writeInt64.
    replace (z <? 0) with false by (symmetry; apply Z.ltb_ge; lia).
    fold u. rewrite Elo. subst buf'. rewrite Eu at 3.
    apply store_halves; (lia || reflexivity || assumption).
  - pose proof (len_nonneg pre) as Hp. pose proof (len_nonneg post) as Hq.
    assert (Hlen : Buffer.len buf' = Buffer.len pre + 8 + Buffer.len post).
    { subst buf'. rewrite !len_app, len_int64_bytes. lia. }
    destruct (pattern_halves le buf' (Buffer.len pre) ltac:(lia) ltac:(lia))
      as (hi & lo & Ehi & Elo' & Rhi & Rlo & Eval).
    subst buf'. rewrite sub_pattern in Eval by apply length_int64_bytes.
    rewrite int64_value_bytes, Z.mod_small in Eval by lia.
    unfold readInt64AsNumber. rewrite Hmode.
    replace (Buffer.len (pre ++ int64_bytes le u ++ post) <? Buffer.len pre + 8)
      with false by (symmetry; apply Z.ltb_ge; lia).
    rewrite andb_false_r, Ehi, Elo'.
    unfold bind, validateInt64Mode, put, ret, lift.
    f_equal. f_equal. f_equal. lia.
Qed.

Lemma int64_bignumber_round_trip_witness :
  writeInt64 false false true (VBigNumber (2 ^ 63 + 5)) (Buffer.len [x01]) false
    ([x01] ++ zeros 8 ++ [x02])
  = (Ok tt, [x01] ++ int64_bytes false ((2 ^ 63 + 5) mod 2 ^ 64) ++ [x02]) /\
  readInt64AsNumber false false ([x01] ++ int64_bytes false ((2 ^ 63 + 5) mod 2 ^ 64) ++ [x02])
    (Buffer.len [x01]) false None (Some int64) false
  = (Ok (VBigNumber ((2 ^ 63 + 5) mod 2 ^ 64)), true).
Proof.
  apply (int64_bignumber_round_trip false false false false false (2 ^ 63 + 5) [x01]
           (zeros 8) [x02] None (Some int64) false); [reflexivity | reflexivity | lia].
Defined.

(** X8: an 8-byte block written to a 64-bit field replaces the 8 bytes of
    the field, leaves the bytes around them as they were, and is read back
    unchanged in copy and in slice mode, with or without the big-number
    library. *)
Theorem int64_block_round_trip (s s' le na na' bn bn' : bool) (b : Buffer.t)
    (pre mid post : list byte) (dm fm : option int64mode) :
  length mid = 8%nat ->
  length b = 8%nat ->
  select_mode fm dm = copy \/ select_mode fm dm = slice ->
  writeInt64 s le bn (VBuffer b) (Buffer.len pre) na (pre ++ mid ++ post)
  = (Ok tt, pre ++ b ++ post) /\
  readInt64AsNumber s' le (pre ++ b ++ post) (Buffer.len pre) na' dm fm bn'
  = (Ok (VBuffer b), bn').
Proof.
  intros Hm Hb Hmode.
  pose proof (len_nonneg pre) as Hp. pose proof (len_nonneg post) as Hq.
  assert (Hlb : Buffer.len b = 8) by (unfold Buffer.len; lia).
  split.
  - unfold writeInt64. rewrite Hlb. cbn [Z.eqb Pos.eqb negb].
    assert (Hlm : Buffer.len mid = 8) by (unfold Buffer.len; lia).
    rewrite copy_in_bounds; [| lia | rewrite !len_app; lia].
    rewrite splice_mid by (reflexivity || lia).
    rewrite Hb, <- Hm, drop_all. reflexivity.
  - assert (Hlen : Buffer.len (pre ++ b ++ post) = Buffer.len pre + 8 + Buffer.len post)
      by (rewrite !len_app; lia).
    unfold readInt64AsNumber.
    replace (Buffer.len (pre ++ b ++ post) <? Buffer.len pre + 8)
      with false by (symmetry; apply Z.ltb_ge; lia).
    rewrite andb_false_r.
    destruct Hmode as [-> | ->]; unfold bind, validateInt64Mode, ret.
    + replace ((Buffer.len pre <? 0) || (Buffer.len (pre ++ b ++ post) <? Buffer.len pre))
        with false
        by (symmetry; apply orb_false_iff; split; apply Z.ltb_ge; lia).
      rewrite sub_pattern by exact Hb.
      rewrite take_app_length' by (symmetry; exact Hb). reflexivity.
    + unfold Buffer.slice.
      replace (Buffer.len pre <? 0) with false by (symmetry; apply Z.ltb_ge; lia).
      replace (Buffer.len pre + 8 <? 0) with false by (symmetry; apply Z.ltb_ge; lia).
      rewrite !Z.min_l by lia.
      rewrite sub_pattern by exact Hb. reflexivity.
Qed.

Lemma int64_block_round_trip_witness :
  writeInt64 false false false (VBuffer (int64_bytes false (-1))) (Buffer.len [x01]) false
    ([x01] ++ zeros 8 ++ [x02])
  = (Ok tt, [x01] ++ int64_bytes false (-1) ++ [x02]) /\
  readInt64AsNumber false false ([x01] ++ int64_bytes false (-1) ++ [x02])
    (Buffer.len [x01]) false (Some slice) None false
  = (Ok (VBuffer (int64_bytes false (-1))), false).
Proof.
  apply (int64_block_round_trip false false false false false false false
           (int64_bytes false (-1)) [x01] (zeros 8) [x02] (Some slice) None);
    [reflexivity | reflexivity | right; reflexivity].
Defined.

(** ** Declarations only append *)

Lemma defineField_fields (g : field) (w w' : world) (r : result unit) :
  defineField g w = (r, w') ->
  staticSized (def w') = staticSized (def w) /\
  (fields (def w') = fields (def w) \/
   (find_field (f_name g) (fields (def w)) = None /\
    fields (def w') = fields (def w) ++ [with_offset (size (def w)) g] /\
    existsb (String.eqb (key (f_name g))) reserved = false)).
Proof.
  unfold defineField. intros H.
  destruct (existsb (String.eqb (key (f_name g))) reserved) eqn:Eres.
  { injection H as _ <-. split; [reflexivity | left; reflexivity]. }
  assert (Hs : staticSized (register g (def w)) = staticSized (def w)).
  { unfold register. destruct (find_field (f_name g) (fields (def w))); reflexivity. }
  assert (Hf : fields (def w') = fields (register g (def w)) /\
               staticSized (def w') = staticSized (register g (def w))).
  { destruct (defineProperty (key (f_name g)) (configurable g) (register g (def w)))
      as [d'|e] eqn:E.
    - apply defineProperty_Ok in E. destruct E as (_ & E1 & _ & E2 & _).
      injection H as _ <-. simpl. split; assumption.
    - injection H as _ <-. split; reflexivity. }
  destruct Hf as [Hf Hst]. rewrite Hf, Hst, Hs. split; [reflexivity|].
  destruct (register_cases g (def w)) as [_ [[_ E] | (E0 & E1 & _)]].
  - left. rewrite E. reflexivity.
  - right. repeat split; assumption.
Qed.

Lemma declare_step_refl (w : world) : declare_step w w.
Proof. split; [tauto | left; reflexivity]. Qed.

Lemma defineField_step (g : field) (w w' : world) (r : result unit) :
  defineField g w = (r, w') ->
  (f_sizeFieldName g = None -> f_read g <> None) ->
  (f_sizeFieldName g <> None -> staticSized (def w) = false /\ f_size g = 0) ->
  declare_step w w'.
Proof.
  intros H Hr Hd. apply defineField_fields in H.
  destruct H as [Hs [Hf | (Hn & Hf & Hres)]].
  - split; [rewrite Hs; tauto | left; exact Hf].
  - split; [rewrite Hs; tauto|]. right. exists (with_offset (size (def w)) g).
    repeat split; try assumption.
    + rewrite Hs. apply Hd. assumption.
    + apply Hd. assumption.
Qed.

Lemma declare_declare_step (d : decl) (w w' : world) (r : result unit) :
  declare d w = (r, w') -> declare_step w w'.
Proof.
  assert (Hint : forall t z rd wr args w w' r,
            defineIntField t z rd wr args w = (r, w') -> declare_step w w').
  { clear. intros t z rd wr args w w' r. unfold defineIntField, bind, get, lift.
    intros H.
    match type of H with
    | context [int_args args ?f0] => destruct (int_args args f0) as [f|] eqn:E
    end.
    - apply int_args_codec in E. destruct E as (_ & Er & _ & Es). simpl in Er, Es.
      apply (defineField_step f w w' r H).
      + intros _. rewrite Er. discriminate.
      + rewrite Es. intros C. contradiction C. reflexivity.
    - injection H as _ <-. apply declare_step_refl. }
  assert (Hobj : forall o f0 (fixed : field -> field) w w' r,
            (forall f, f_sizeFieldName (fixed f) = f_sizeFieldName f /\
                       f_read (fixed f) <> None) ->
            f_sizeFieldName f0 = None ->
            bind (lift (apply_overrides o f0)) (fun f => defineField (fixed f)) w = (r, w') ->
            declare_step w w').
  { clear. intros o f0 fixed w w' r Hfixed Hs0 H. unfold bind, lift in H.
    destruct (apply_overrides_inv o f0) as [[f' [E (_ & _ & _ & Es & _)]]|E];
      rewrite E in H.
    - destruct (Hfixed f') as [Hs Hr].
      apply (defineField_step _ _ _ _ H).
      + intros _. exact Hr.
      + rewrite Hs, Es, Hs0. intros C. contradiction C. reflexivity.
    - injection H as _ <-. apply declare_step_refl. }
  destruct d as [b signed [le|] args|double [le|] args|n a|n a]; simpl.
  - apply Hint.
  - unfold defineIntFieldDefaultEndian, bind, get. apply Hint.
  - apply Hint.
  - unfold defineIntFieldDefaultEndian, bind, get. apply Hint.
  - unfold defineStringField, bind, get, throw. intros H.
    destruct a as [v|o].
    + destruct v as [| |b|[z|? ?| | |]|s|bs|z];
        try (injection H as _ <-; apply declare_step_refl);
        try (apply (defineField_step _ _ _ _ H); simpl;
             [discriminate | intros C; contradiction C; reflexivity]).
      destruct (find_field (Named s) (fields (def w))).
      * unfold modify_def in H. simpl in H.
        apply defineField_fields in H. simpl in H.
        destruct H as [Hs [Hf | (Hn & Hf & Hres)]].
        -- split; [rewrite Hs; discriminate | left; exact Hf].
        -- split; [rewrite Hs; discriminate|]. right.
           match type of Hf with _ = _ ++ [?g] => exists g end.
           split; [exact Hn|]. split; [exact Hf|]. simpl. split; [discriminate|].
           split; [|exact Hres]. intros _. split; [exact Hs | reflexivity].
      * apply (defineField_step _ _ _ _ H); simpl;
          [discriminate | intros C; contradiction C; reflexivity].
    + refine (Hobj o _ (fun f => with_codec (StringReader (f_size f))
                                   (StringWriter (f_size f)) f) w w' r _ _ H);
        [intros f; split; [reflexivity|discriminate] | reflexivity].
  - unfold defineBufferField, throw. intros H.
    destruct a as [v|o].
    + destruct v as [| |b|[z|? ?| | |]|s|bs|z];
        try (injection H as _ <-; apply declare_step_refl);
        (apply (defineField_step _ _ _ _ H); simpl;
         [discriminate | intros C; contradiction C; reflexivity]).
    + refine (Hobj o _ (fun f => with_codec (BufferReader (f_size f))
                                   (BufferWriter (f_size f)) f) w w' r _ _ H);
        [intros f; split; [reflexivity|discriminate] | reflexivity].
Qed.

Lemma forEach_app {S A} (l1 l2 : list A) (cb : A -> M S unit) (s : S) :
  forEach (l1 ++ l2) cb s
  = match forEach l1 cb s with
    | (Ok _, s') => forEach l2 cb s'
    | (Throw e, s') => (Throw e, s')
    end.
Proof.
  revert s. induction l1 as [|x l1 IH]; intros s; simpl.
  - reflexivity.
  - unfold bind. destruct (cb x s) as [[[]|e] s1]; [apply IH | reflexivity].
Qed.

(** An invariant of the steps holds after any number of declarations. *)
Lemma forEach_declare (P : world -> Prop) (ds : list decl) :
  (forall w w', declare_step w w' -> P w -> P w') ->
  forall w w' r, forEach ds declare w = (r, w') -> P w -> P w'.
Proof.
  intros Hstep. induction ds as [|d ds IH]; intros w w' r H Hw; simpl in H.
  - injection H as _ <-. exact Hw.
  - unfold bind in H. destruct (declare d w) as [[[]|e] w1] eqn:Ed.
    + apply (IH w1 w' r H). apply (Hstep w w1); [|exact Hw].
      apply (declare_declare_step d w w1 _ Ed).
    + injection H as _ <-. apply (Hstep w w1); [|exact Hw].
      apply (declare_declare_step d w w1 _ Ed).
Qed.

Lemma createNewStructDef_empty (opts : option options) (bn bn' : bool) (d : StructDef) :
  createNewStructDef opts bn = (Ok d, bn') ->
  fields d = [] /\ size d = 0 /\ staticSized d = true.
Proof.
  unfold createNewStructDef. intros Ec. destruct opts as [o|].
  - destruct (opt_int64mode o) as [m|].
    + unfold bind in Ec. destruct (validateInt64Mode m bn) as [[[]|] ?]; [|discriminate].
      injection Ec as <- _. repeat split.
    + injection Ec as <- _. repeat split.
  - injection Ec as <- _. repeat split.
Qed.

Lemma build_invariant (P : world -> Prop) (bn : bool) (opts : option options)
    (ds : list decl) (w : world) :
  (forall w0, fields (def w0) = [] -> staticSized (def w0) = true -> P w0) ->
  (forall w w', declare_step w w' -> P w -> P w') ->
  build bn opts ds = Ok w -> P w.
Proof.
  intros Hinit Hstep. unfold build. intros H.
  destruct (createNewStructDef opts bn) as [[d|e] bn'] eqn:Ec; [|discriminate].
  destruct (forEach ds declare (World bn' d)) as [[[]|e] w1] eqn:Ef; [|discriminate].
  injection H as <-.
  apply (forEach_declare P ds Hstep _ _ _ Ef).
  apply createNewStructDef_empty in Ec. apply Hinit; simpl; tauto.
Qed.

Lemma find_field_None (n : fname) (fs : list field) :
  find_field n fs = None -> ~ In n (map f_name fs).
Proof.
  intros Hn Hin. apply in_map_iff in Hin. destruct Hin as (g & <- & Hg).
  exact (find_field_In g fs Hg Hn).
Qed.

(** X9: the fields of a declared schema have pairwise different names: a
    definer call under a name that is already taken adds no field. *)
Theorem declared_names_unique (bn : bool) (opts : option options) (ds : list decl)
    (w : world) :
  build bn opts ds = Ok w -> NoDup (map f_name (fields (def w))).
Proof.
  apply (build_invariant (fun w => NoDup (map f_name (fields (def w))))).
  - intros w0 -> _. apply NoDup_nil_2.
  - intros w1 w2 [_ [-> | (g & Hn & -> & _)]] Hnd; [exact Hnd|].
    rewrite List.map_app. simpl. apply NoDup_app. split; [exact Hnd|].
    split; [|apply NoDup_singleton].
    intros x Hx Hx'. apply list_elem_of_In in Hx.
    apply list_elem_of_singleton in Hx'. subst x.
    exact (find_field_None _ _ Hn Hx).
Qed.

Lemma declared_names_unique_witness :
  exists w, build false no_options mixed_decls = Ok w /\
            NoDup (map f_name (fields (def w))).
Proof.
  eexists. split; [vm_compute; reflexivity|].
  apply (declared_names_unique false no_options mixed_decls). vm_compute; reflexivity.
Defined.

(** X10: declaring more fields never changes the fields declared before:
    the field list of the longer chain of definer calls starts with the
    field list of the shorter one. *)
Theorem declarations_only_append (bn : bool) (opts : option options)
    (ds ds' : list decl) (w w' : world) :
  build bn opts ds = Ok w ->
  build bn opts (ds ++ ds') = Ok w' ->
  exists fs, fields (def w') = fields (def w) ++ fs.
Proof.
  unfold build. intros H H'.
  destruct (createNewStructDef opts bn) as [[d|e] bn'] eqn:Ec; [|discriminate].
  rewrite forEach_app in H'.
  destruct (forEach ds declare (World bn' d)) as [[[]|e] w1] eqn:Ef; [|discriminate].
  injection H as <-.
  destruct (forEach ds' declare w1) as [[[]|e] w2] eqn:Ef'; [|discriminate].
  injection H' as <-.
  apply (forEach_declare (fun x => exists fs, fields (def x) = fields (def w1) ++ fs)
           ds') with (w := w1) (w' := w2) (r := Ok tt); [|exact Ef'|].
  - intros x y [_ [Hf | (g & _ & Hf & _)]] [fs Hfs]; rewrite Hf, Hfs.
    + exists fs. reflexivity.
    + exists (fs ++ [g]). rewrite app_assoc. reflexivity.
  - exists []. rewrite app_nil_r. reflexivity.
Qed.

Lemma declarations_only_append_witness :
  exists w w' fs,
    build false no_options (firstn 2 mixed_decls) = Ok w /\
    build false no_options (firstn 2 mixed_decls ++ skipn 2 mixed_decls) = Ok w' /\
    fields (def w') = fields (def w) ++ fs.
Proof.
  assert (H1 : exists w, build false no_options (firstn 2 mixed_decls) = Ok w)
    by (eexists; vm_compute; reflexivity).
  assert (H2 : exists w', build false no_options
                            (firstn 2 mixed_decls ++ skipn 2 mixed_decls) = Ok w')
    by (eexists; vm_compute; reflexivity).
  destruct H1 as [w H1], H2 as [w' H2].
  destruct (declarations_only_append false no_options (firstn 2 mixed_decls)
              (skipn 2 mixed_decls) w w' H1 H2) as [fs Hfs].
  exists w, w', fs. repeat split; assumption.
Defined.

(** ** Reading one field *)

Lemma readField_split (buf : Buffer.t) (offset : Z) (noAssert_ : bool)
    (data : record) (i : nat) (f : field) :
  readField buf offset noAssert_ data i f
  = bind (resolve_field data i f) (decode_field buf offset noAssert_ data).
Proof. reflexivity. Qed.

Lemma decode_field_spec (buf : Buffer.t) (offset : Z) (noAssert_ : bool)
    (data : record) (f : field) (w w' : world) (r : result record) :
  decode_field buf offset noAssert_ data f w = (r, w') ->
  def w' = def w /\
  forall data', r = Ok data' ->
    (f_read f = None /\ data' = data) \/
    (f_read f <> None /\
     match f_name f with
     | Named s => exists v, data' = <[s := v]> data
     | Positional _ => data' = data
     end).
Proof.
  unfold decode_field, bind, get, onBigNumber, ret. intros H.
  destruct (f_read f) as [rd|].
  - destruct (apply_reader rd buf _ noAssert_ _ _ (BigNumber w)) as [[v|e] b].
    + destruct (f_name f) as [s|n]; injection H as <- <-;
        (split; [reflexivity|]); intros data' [= <-]; right;
        (split; [discriminate|]); [exists v|]; reflexivity.
    + injection H as <- <-. split; [reflexivity|]. discriminate.
  - injection H as <- <-. split; [reflexivity|]. intros data' [= <-]. left. tauto.
Qed.

Lemma resolve_result (i : nat) (f f' : field) (z : Z) (w w' : world) :
  resolve i f z w = (Ok f', w') ->
  f' = with_codec (StringReader z) (StringWriter z) (with_size z f).
Proof.
  unfold resolve, bind, modify_def, ret. intros H.
  match type of H with
  | context [defineField ?g ?s] => destruct (defineField g s) as [[[]|e] w1]
  end; [|discriminate].
  injection H as <- _. reflexivity.
Qed.

Lemma resolve_field_spec (data : record) (i : nat) (f f' : field) (w w' : world) :
  resolve_field data i f w = (Ok f', w') ->
  f_name f' = f_name f /\
  (f_sizeFieldName f = None -> f' = f /\ w' = w) /\
  (f_sizeFieldName f <> None -> f_sizeFieldName f <> Some ""%string -> f_read f' <> None).
Proof.
  unfold resolve_field. intros H.
  destruct (f_sizeFieldName f) as [s|] eqn:Es.
  - destruct (String.eqb_spec s "") as [->|Hs].
    + injection H as <- <-. split; [reflexivity|]. split; [discriminate|].
      intros _ C. contradiction C. reflexivity.
    + destruct (data !! s) as [[| | |[z|? ?| | |]| | |]|]; try discriminate.
      apply resolve_result in H. subst f'. simpl.
      split; [reflexivity|]. split; [discriminate|]. intros _ _. discriminate.
  - injection H as <- <-. split; [reflexivity|]. split; [tauto|].
    intros C. contradiction C. reflexivity.
Qed.

(** ** A static schema is never modified *)

Lemma static_no_deferred (bn : bool) (opts : option options) (ds : list decl)
    (w : world) :
  build bn opts ds = Ok w ->
  staticSized (def w) = true ->
  Forall (fun f => f_sizeFieldName f = None) (fields (def w)).
Proof.
  apply (build_invariant
           (fun w => staticSized (def w) = true ->
                     Forall (fun f => f_sizeFieldName f = None) (fields (def w)))).
  - intros w0 -> _ _. constructor.
  - intros w1 w2 [Hs [-> | (g & _ & -> & _ & Hg & _)]] IH Hst; [auto|].
    apply Forall_app. split; [auto|].
    constructor; [|constructor].
    destruct (f_sizeFieldName g) eqn:E; [|reflexivity].
    destruct Hg as [Hg _]; [discriminate|]. congruence.
Qed.

Lemma readFields_fixed (buf : Buffer.t) (offset : Z) (noAssert_ : bool)
    (fs : list field) :
  Forall (fun f => f_sizeFieldName f = None) fs ->
  forall (data : record) (i : nat) (w w' : world) (r : result record),
    readFields buf offset noAssert_ data i fs w = (r, w') -> def w' = def w.
Proof.
  induction 1 as [|f fs Hf _ IH]; intros data i w w' r H; simpl in H.
  - injection H as _ <-. reflexivity.
  - rewrite readField_split in H. unfold bind at 1 2 in H.
    unfold resolve_field in H. rewrite Hf in H. unfold ret at 1 in H.
    destruct (decode_field buf offset noAssert_ data f w) as [[data1|e] w1] eqn:Ed.
    + apply decode_field_spec in Ed. destruct Ed as [Ed _].
      rewrite (IH _ _ _ _ _ H). exact Ed.
    + apply decode_field_spec in Ed. destruct Ed as [Ed _].
      injection H as _ <-. exact Ed.
Qed.

(** X11: a schema that is still marked static after its declaration (by
    definer calls whose override objects carry no other key than name,
    size, value and int64mode) has no length-dependent field, and neither
    pack nor unpack modifies it, whether they succeed or throw. *)
Theorem static_schema_unchanged (bn : bool) (opts : option options) (ds : list decl)
    (w : world) :
  build bn opts ds = Ok w ->
  staticSized (def w) = true ->
  Forall (fun f => f_sizeFieldName f = None) (fields (def w)) /\
  (forall data buf offset noAssert_ r w' ob,
     pack data buf offset noAssert_ w = (r, (w', ob)) -> w' = w) /\
  (forall buf offset noAssert_ r w',
     unpack buf offset noAssert_ w = (r, w') -> def w' = def w).
Proof.
  intros Hb Hs. split; [exact (static_no_deferred _ _ _ _ Hb Hs)|]. split.
  - intros data buf offset noAssert_ r w' ob H.
    apply pack_world in H. destruct H as [r0 H].
    unfold resolveForPack, bind, get in H. rewrite Hs in H.
    injection H as _ <-. reflexivity.
  - intros buf offset noAssert_ r w' H. unfold unpack, bind, get in H.
    apply (readFields_fixed _ _ _ _ (static_no_deferred _ _ _ _ Hb Hs) _ _ _ _ _ H).
Qed.

Lemma static_schema_unchanged_witness :
  exists w,
    build false no_options mixed_decls = Ok w /\
    Forall (fun f => f_sizeFieldName f = None) (fields (def w)) /\
    (forall data buf offset noAssert_ r w' ob,
       pack data buf offset noAssert_ w = (r, (w', ob)) -> w' = w) /\
    (forall buf offset noAssert_ r w',
       unpack buf offset noAssert_ w = (r, w') -> def w' = def w).
Proof.
  eexists. split; [vm_compute; reflexivity|].
  apply (static_schema_unchanged false no_options mixed_decls);
    vm_compute; reflexivity.
Defined.

(** ** The keys of an unpacked record *)

Lemma fields_readable (bn : bool) (opts : option options) (ds : list decl) (w : world) :
  build bn opts ds = Ok w ->
  Forall (fun f => f_sizeFieldName f = None -> f_read f <> None) (fields (def w)).
Proof.
  apply (build_invariant
           (fun w => Forall (fun f => f_sizeFieldName f = None -> f_read f <> None)
                       (fields (def w)))).
  - intros w0 -> _. constructor.
  - intros w1 w2 [_ [-> | (g & _ & -> & Hg & _)]] IH; [exact IH|].
    apply Forall_app. split; [exact IH|]. constructor; [exact Hg|constructor].
Qed.

Lemma readFields_keys (buf : Buffer.t) (offset : Z) (noAssert_ : bool)
    (fs : list field) :
  Forall (fun f => f_sizeFieldName f = None -> f_read f <> None) fs ->
  forall (data r : record) (i : nat) (w w' : world),
    readFields buf offset noAssert_ data i fs w = (Ok r, w') ->
    (forall k, is_Some (r !! k) ->
               is_Some (data !! k) \/ exists f, In f fs /\ f_name f = Named k) /\
    (forall k, is_Some (data !! k) -> is_Some (r !! k)) /\
    (forall f k, In f fs -> f_name f = Named k ->
                 f_sizeFieldName f <> Some ""%string -> is_Some (r !! k)).
Proof.
  induction 1 as [|f fs Hf _ IH]; intros data r i w w' H; simpl in H.
  - injection H as <- _. repeat split; try tauto. intros f k [].
  - rewrite readField_split in H. unfold bind at 1 2 in H.
    destruct (resolve_field data i f w) as [[f1|e] w1] eqn:Er; [|discriminate].
    destruct (decode_field buf offset noAssert_ data f1 w1) as [[data1|e] w2] eqn:Ed;
      [|discriminate].
    apply resolve_field_spec in Er. destruct Er as (En & Efix & Edef).
    apply decode_field_spec in Ed. destruct Ed as [_ Ed]. specialize (Ed data1 eq_refl).
    rewrite En in Ed.
    destruct (IH _ _ _ _ _ H) as (IH1 & IH2 & IH3).
    assert (Hgrow : forall k, is_Some (data !! k) -> is_Some (data1 !! k)).
    { intros k Hk. destruct Ed as [[_ ->] | [_ Ed]]; [exact Hk|].
      destruct (f_name f) as [s|n]; [|subst; exact Hk].
      destruct Ed as [v ->]. destruct (decide (s = k)) as [->|Hne].
      - rewrite lookup_insert_eq. eauto.
      - rewrite lookup_insert_ne by exact Hne. exact Hk. }
    assert (Hnew : forall k, is_Some (data1 !! k) ->
                             is_Some (data !! k) \/ f_name f = Named k).
    { intros k Hk. destruct Ed as [[_ ->] | [_ Ed]]; [left; exact Hk|].
      destruct (f_name f) as [s|n]; [|subst; left; exact Hk].
      destruct Ed as [v ->]. destruct (decide (s = k)) as [->|Hne].
      - right. reflexivity.
      - rewrite lookup_insert_ne in Hk by exact Hne. left. exact Hk. }
    repeat split.
    + intros k Hk. destruct (IH1 k Hk) as [Hd | (g & Hg & Hgn)].
      * destruct (Hnew k Hd) as [Hd' | Hname]; [left; exact Hd'|].
        right. exists f. split; [left; reflexivity | exact Hname].
      * right. exists g. split; [right; exact Hg | exact Hgn].
    + intros k Hk. apply IH2, Hgrow, Hk.
    + intros g k [<- | Hg] Hname Hs.
      * apply IH2.
        assert (Hrd : f_read f1 <> None).
        { destruct (f_sizeFieldName f) eqn:Es.
          - apply Edef; [discriminate | exact Hs].
          - destruct (Efix eq_refl) as [-> _]. apply Hf. reflexivity. }
        destruct Ed as [[C _] | [_ Ed]]; [contradiction|].
        rewrite Hname in Ed. destruct Ed as [v ->].
        rewrite lookup_insert_eq. eauto.
      * apply (IH3 g k Hg Hname Hs).
Qed.

(** X12: every key of the record that unpack returns is the name of a
    named field of the schema, so a filler field never shows up; and every
    named field has its key in the record, unless its size reference is the
    empty string. *)
Theorem unpack_keys_are_field_names (bn : bool) (opts : option options)
    (ds : list decl) (w w' : world) (buf : Buffer.t) (offset : option Z)
    (noAssert_ : option bool) (r : record) :
  build bn opts ds = Ok w ->
  unpack buf offset noAssert_ w = (Ok r, w') ->
  (forall k, is_Some (r !! k) ->
             exists f, In f (fields (def w)) /\ f_name f = Named k) /\
  (forall f k, In f (fields (def w)) -> f_name f = Named k ->
               f_sizeFieldName f <> Some ""%string -> is_Some (r !! k)).
Proof.
  intros Hb H. unfold unpack, bind, get in H.
  destruct (readFields_keys _ _ _ _ (fields_readable _ _ _ _ Hb) _ _ _ _ _ H)
    as (H1 & _ & H3).
  split; [|exact H3].
  intros k Hk. destruct (H1 k Hk) as [Hd | Hf]; [|exact Hf].
  rewrite lookup_empty in Hd. destruct Hd as [? Hd]. discriminate.
Qed.

Lemma unpack_keys_are_field_names_witness :
  exists (w w' : world) (r : record),
    build false no_options mixed_decls = Ok w /\
    unpack [x02; x01; x68; x69; x00; x01; x02; x00] None None w = (Ok r, w') /\
    (forall k, is_Some (r !! k) ->
               exists f, In f (fields (def w)) /\ f_name f = Named k).
Proof.
  assert (Hb : exists w, build false no_options mixed_decls = Ok w)
    by (eexists; vm_compute; reflexivity).
  destruct Hb as [w Hb].
  assert (Hu : exists r w', unpack [x02; x01; x68; x69; x00; x01; x02; x00] None None w
                            = (Ok r, w')).
  { vm_compute in Hb. injection Hb as <-. do 2 eexists. vm_compute. reflexivity. }
  destruct Hu as (r & w' & Hu).
  exists w, w', r. split; [exact Hb|]. split; [exact Hu|].
  apply (unpack_keys_are_field_names false no_options mixed_decls w w' _ None None r Hb Hu).
Defined.

(** ** 64-bit fields without the big-number library *)

Lemma forEach_throws {S A} (l : list A) (cb : A -> M S unit) (x : A) :
  In x l ->
  (forall s, exists e s', cb x s = (Throw e, s')) ->
  forall s, exists e s', forEach l cb s = (Throw e, s').
Proof.
  intros Hin Hx. induction l as [|y l IH]; [destruct Hin|]. intros s. simpl. unfold bind.
  destruct Hin as [->|Hin].
  - destruct (Hx s) as (e & s' & ->). eauto.
  - destruct (cb y s) as [[[]|e] s1]; [apply (IH Hin)|eauto].
Qed.

(** Resolving the length-dependent field keeps the module variable and
    every fixed-size field. *)
Lemma resolveForPack_keeps (data : record) (w w' : world) (r : result unit) :
  resolveForPack data w = (r, w') ->
  BigNumber w' = BigNumber w /\
  forall f, In f (fields (def w)) -> f_sizeFieldName f = None -> In f (fields (def w')).
Proof.
  unfold resolveForPack, bind, get, throw, ret. intros H.
  destruct (staticSized (def w)); [injection H as _ <-; tauto|].
  destruct (find_deferred 0 (fields (def w))) as [[[i t] s]|] eqn:Ed;
    [|injection H as _ <-; tauto].
  destruct (find_field (Named s) (fields (def w))) as [g|];
    [|injection H as _ <-; tauto].
  destruct (field_value data g) as [| | |[z|? ?| | |]| | |];
    try (injection H as _ <-; tauto).
  apply find_deferred_spec in Ed. destruct Ed as (j & -> & Hj & Hs).
  assert (Hres : forall r1 w1, resolve (0 + j) t z w = (r1, w1) ->
            BigNumber w1 = BigNumber w /\
            forall f, In f (fields (def w)) -> f_sizeFieldName f = None ->
                      In f (fields (def w1))).
  { intros r1 w1 Er. apply resolve_fields in Er; [|exact Hj].
    destruct Er as (-> & _ & _ & Hbn & _). split; [exact Hbn|].
    intros f Hf Hfix. apply list_elem_of_In in Hf.
    apply list_elem_of_lookup in Hf. destruct Hf as [k Hk].
    apply list_elem_of_In. apply (list_elem_of_lookup_2 _ k).
    rewrite list_lookup_insert_ne; [exact Hk|].
    intros E. simpl in E. subst k. rewrite Hj in Hk. injection Hk as <-. congruence. }
  destruct (resolve (0 + j) t z w) as [[f1|e] w1] eqn:Er;
    injection H as _ <-; apply (Hres _ _ eq_refl).
Qed.

(** X13: while the big-number library is not loaded, pack throws for
    every schema that has a fixed-size 64-bit integer field whose selected
    value is a number (a missing value counts as the number 0): the writer
    tests [val instanceof BigNumber] with [BigNumber] still null. *)
Theorem number_in_int64_field_needs_bignumber (data : option record)
    (buf : option Buffer.t) (offset : option Z) (noAssert_ : option bool) (w : world)
    (f : field) (signed le : bool) (n : number) :
  BigNumber w = false ->
  In f (fields (def w)) ->
  f_sizeFieldName f = None ->
  f_write f = Some (Int64Writer signed le) ->
  field_value (match data with Some d => d | None => ∅ end) f = VNumber n ->
  exists e, fst (pack data buf offset noAssert_ w) = Throw e.
Proof.
  intros Hbn Hin Hfix Hw Hv. unfold pack.
  destruct (resolveForPack _ w) as [[[]|e] w'] eqn:Er; [|eauto].
  apply resolveForPack_keeps in Er. destruct Er as [Hbn' Hkeep].
  destruct (match buf with Some b => Ok b | None => _ end) as [b|e]; [|eauto].
  match goal with
  | |- context [forEach ?l ?cb b] =>
      destruct (forEach_throws l cb f (Hkeep f Hin Hfix)) with (s := b) as (e & b' & ->)
  end; [|eauto].
  intros s. unfold writeField. rewrite Hw, Hv, Hbn', Hbn. cbn [apply_writer writeInt64].
  unfold throw. eauto.
Qed.

Lemma number_in_int64_field_needs_bignumber_witness :
  exists w e,
    build false no_options uint64_decls = Ok w /\
    fst (pack (Some {["x"%string := VNumber (Fin 5)]}) None None None w) = Throw e.
Proof.
  assert (Hb : exists w, build false no_options uint64_decls = Ok w)
    by (eexists; vm_compute; reflexivity).
  destruct Hb as [w Hb].
  assert (Hf : exists f, In f (fields (def w)) /\ BigNumber w = false /\
                         f_sizeFieldName f = None /\
                         f_write f = Some (Int64Writer false false) /\
                         field_value {["x"%string := VNumber (Fin 5)]} f = VNumber (Fin 5)).
  { vm_compute in Hb. injection Hb as <-. eexists. split; [left; reflexivity|].
    repeat split. }
  destruct Hf as (f & Hin & Hbn & Hfix & Hw & Hv).
  destruct (number_in_int64_field_needs_bignumber
              (Some {["x"%string := VNumber (Fin 5)]}) None None None w f false false
              (Fin 5) Hbn Hin Hfix Hw Hv) as [e He].
  exists w, e. split; [exact Hb | exact He].
Defined.

(** ** The size check *)

(** X14: checkSize(n) succeeds exactly when [n] is the sum of the sizes
    of the declared fields, and throws an assertion error otherwise. *)
Theorem checkSize_sum_of_sizes (bn : bool) (opts : option options) (ds : list decl)
    (w : world) (n : Z) :
  build bn opts ds = Ok w ->
  checkSize n (def w)
  = if n =? sum_sizes (fields (def w)) then Ok tt else Throw AssertionError.
Proof.
  intros Hb. apply build_schema_ok in Hb. destruct Hb as [_ Hsz _ _ _].
  unfold checkSize. rewrite Hsz. destruct (n =? sum_sizes (fields (def w))); reflexivity.
Qed.

Lemma checkSize_sum_of_sizes_witness :
  exists w, build false no_options mixed_decls = Ok w /\
            checkSize 8 (def w)
            = if 8 =? sum_sizes (fields (def w)) then Ok tt else Throw AssertionError.
Proof.
  eexists. split; [vm_compute; reflexivity|].
  apply (checkSize_sum_of_sizes false no_options mixed_decls). vm_compute; reflexivity.
Defined.

(** ** Redeclaring a name *)




(** ** Writing into a buffer that already holds data *)

Lemma length_overwrite (f : field) (v : value) (mid : list byte) :
  fixed_size f -> writable f v -> Buffer.len mid = f_size f ->
  length (overwrite f v mid) = length mid.
Proof.
  intros Hsup Hv Hmid.
  pose proof (len_image f v Hsup Hv) as Hl.
  destruct Hsup as (_ & Hs & Ht).
  unfold overwrite, writable, representable, image, Buffer.len in *.
  destruct (f_type f) as [n s le|double le| |].
  - assert (He : forall z, length ((if le then encode_le n z else encode_be n z)
                                    ++ drop n mid) = length mid).
    { intros z. rewrite length_app, length_drop.
      assert (length (if le then encode_le n z else encode_be n z) = n)
        by (destruct le; [apply length_encode_le|apply length_encode_be]).
      lia. }
    destruct Hv as [Hv | ->]; [|apply He].
    destruct v as [| | |[z|? ?| | |]| | |]; try contradiction. apply He.
  - assert (He : forall z, length ((if le then encode_le (Buffer.float_bytes double) z
                                    else encode_be (Buffer.float_bytes double) z)
                                   ++ drop (Buffer.float_bytes double) mid) = length mid).
    { intros z. rewrite length_app, length_drop.
      assert (length (if le then encode_le (Buffer.float_bytes double) z
                      else encode_be (Buffer.float_bytes double) z)
              = Buffer.float_bytes double)
        by (destruct le; [apply length_encode_le|apply length_encode_be]).
      lia. }
    destruct Hv as [Hv | ->]; [|apply He].
    destruct v as [| | |n| | |]; try contradiction. apply He.
  - destruct Hv as [Hv | ->]; [|reflexivity].
    destruct v as [| | |[z|? ?| | |]|t| |]; try contradiction. lia.
  - destruct Hv as [Hv | ->]; [|reflexivity].
    destruct v as [| | |[z|? ?| | |]| |b|]; try contradiction. lia.
Qed.

Lemma apply_writer_span (f : field) (v : value) (wr : writer) (bn na : bool)
    (pre mid post : list byte) (o : Z) :
  fixed_size f -> codec_ok f -> writable f v -> f_write f = Some wr ->
  Buffer.len pre = o -> Buffer.len mid = f_size f ->
  apply_writer wr bn v o na (pre ++ mid ++ post)
  = (Ok tt, pre ++ overwrite f v mid ++ post).
Proof.
  intros Hsup Hc Hv Hw Hpre Hmid.
  destruct Hsup as (Hfix & Hs & Ht). specialize (Hc Hfix).
  pose proof (len_nonneg pre) as Hpre0. pose proof (len_nonneg post) as Hpost0.
  assert (Hbuf : Buffer.len (pre ++ mid ++ post) = o + f_size f + Buffer.len post)
    by (rewrite !len_app; lia).
  assert (Hlm : length mid = Z.to_nat (f_size f)) by (unfold Buffer.len in Hmid; lia).
  unfold overwrite, writable, representable in *.
  destruct (f_type f) as [n s le|double le| |]; [|shelve| |].
  - destruct Ht as [Hn Hle]. destruct (Hc ltac:(lia)) as [_ Ew].
    rewrite Ew in Hw. injection Hw as <-.
    assert (Hz : exists z, v = VNumber (Fin z) /\
                 Buffer.p_min (Buffer.Prim n s le) <= z <= Buffer.p_max (Buffer.Prim n s le)).
    { destruct Hv as [Hv| ->].
      - destruct v as [| | |[z|? ?| | |]| | |]; try contradiction.
        exists z. split; [reflexivity|exact Hv].
      - exists 0. split; [reflexivity|]. apply zero_in_prim_range. lia. }
    destruct Hz as (z & -> & Hz).
    cbn [apply_writer].
    rewrite write_int_in_range;
      [|exact Hz|lia|rewrite Hbuf; unfold Buffer.width; cbn [Buffer.p_bytes]; lia].
    cbn [Buffer.p_le Buffer.p_bytes].
    assert (Hl : length (if le then encode_le n z else encode_be n z) = n)
      by (destruct le; [apply length_encode_le|apply length_encode_be]).
    rewrite (splice_mid pre _ post _ _ Hpre) by lia.
    rewrite Hl, <- app_assoc. reflexivity.
  - destruct Hc as [_ Ew]. rewrite Ew in Hw. injection Hw as <-.
    cbn [apply_writer]. unfold writeString.
    destruct v as [| | |[z|? ?| | |]|t|b|]; try reflexivity;
      try (destruct Hv as [[]|Hv]; discriminate).
    destruct Hv as [Ht'|Hv]; [|discriminate].
    unfold bind.
    rewrite fill0_in_bounds by lia.
    replace (o + f_size f - o) with (f_size f) by lia.
    rewrite (splice_mid pre _ post _ _ Hpre) by (rewrite length_zeros; lia).
    rewrite length_zeros, <- Hlm, drop_all, app_nil_l.
    rewrite write_in_bounds by (rewrite ?len_app, ?len_zeros by lia; lia).
    rewrite (splice_mid pre _ post _ _ Hpre)
      by (rewrite length_list_byte_of_string, length_zeros; lia).
    rewrite length_list_byte_of_string, drop_zeros by lia.
    rewrite <- app_assoc. reflexivity.
  - destruct Hc as [_ Ew]. rewrite Ew in Hw. injection Hw as <-.
    cbn [apply_writer]. unfold writebuffer.
    destruct v as [| | |[z|? ?| | |]|t|b|]; try reflexivity;
      try (destruct Hv as [[]|Hv]; discriminate).
    destruct Hv as [Hv|Hv]; [|discriminate].
    rewrite Hv, Z.eqb_refl. cbn [negb].
    rewrite copy_in_bounds by lia.
    unfold Buffer.len in Hv.
    rewrite (splice_mid pre _ post _ _ Hpre) by lia.
    replace (length b) with (length mid) by lia.
    rewrite drop_all, app_nil_l. reflexivity.
  Unshelve.
  destruct Hc as [_ Ew]. rewrite Ew in Hw. injection Hw as <-.
  assert (Hn : exists n, v = VNumber n /\ float_number double n).
  { destruct Hv as [Hv| ->].
    - destruct v as [| | |n| | |]; try contradiction.
      exists n. split; [reflexivity|exact Hv].
    - exists (Fin 0). split; [reflexivity|]. left. reflexivity. }
  destruct Hn as (n & -> & Hn). cbn [apply_writer].
  rewrite write_float_exact; [|exact Hn|lia|rewrite Hbuf; lia].
  set (bs := if le then encode_le (Buffer.float_bytes double) (number_bits double n)
             else encode_be (Buffer.float_bytes double) (number_bits double n)).
  assert (Hl : length bs = Buffer.float_bytes double)
    by (subst bs; destruct le; [apply length_encode_le|apply length_encode_be]).
  rewrite (splice_mid pre _ post _ _ Hpre) by lia.
  rewrite Hl, <- app_assoc. reflexivity.
Qed.

Lemma apply_reader_span (f : field) (v : value) (r : reader) (na : bool)
    (pre mid post : list byte) (o : Z) (m1 m2 : option int64mode) (bn : bool) :
  fixed_size f -> codec_ok f -> representable f v -> f_read f = Some r ->
  Buffer.len pre = o -> Buffer.len mid = f_size f ->
  apply_reader r (pre ++ overwrite f v mid ++ post) o na m1 m2 bn
  = (Ok (decode_value f v), bn).
Proof.
  intros Hsup Hc Hv Hr Hpre Hmid.
  destruct (f_type f) as [n s le|double le| |] eqn:Et; [|shelve| |].
  - (* an integer is read from its own bytes only *)
    destruct v as [| | |[z|? ?| | |]| | |];
      try (unfold representable in Hv; rewrite Et in Hv; contradiction).
    set (g := with_size (Z.of_nat n) f).
    assert (Hsg : fixed_size g).
    { destruct Hsup as (Hfix & Hs & Ht). rewrite Et in Ht.
      unfold fixed_size, g. simpl. rewrite Et. repeat split; try assumption; lia. }
    assert (Hcg : codec_ok g).
    { unfold codec_ok, g in *. simpl. rewrite Et in *. exact Hc. }
    assert (Hvg : representable g (VNumber (Fin z))).
    { unfold representable, g in *. simpl. rewrite Et in *. exact Hv. }
    pose proof (apply_reader_image g (VNumber (Fin z)) r pre (drop n mid ++ post) o na
                  m1 m2 bn Hsg Hcg Hvg Hr Hpre) as H.
    unfold image, decode_value, g in H. simpl in H. rewrite Et in H.
    rewrite Z.sub_diag in H. change (zeros 0) with (@nil byte) in H.
    rewrite app_nil_r in H.
    unfold overwrite, decode_value. rewrite Et. rewrite <- app_assoc. exact H.
  - replace (overwrite f v mid) with (image f v).
    + apply apply_reader_image; assumption.
    + unfold overwrite, image, representable in *. rewrite Et in *.
      destruct v as [| | |[z|? ?| | |]|t| |]; try contradiction. reflexivity.
  - replace (overwrite f v mid) with (image f v).
    + apply apply_reader_image; assumption.
    + unfold overwrite, image, representable in *. rewrite Et in *.
      destruct v as [| | |[z|? ?| | |]| |b|]; try contradiction. reflexivity.
  Unshelve.
  (* a float is read from its own bytes only *)
  destruct v as [| | |n| | |];
    try (unfold representable in Hv; rewrite Et in Hv; contradiction).
  set (g := with_size (Z.of_nat (Buffer.float_bytes double)) f).
  assert (Hsg : fixed_size g).
  { destruct Hsup as (Hfix & Hs & Ht). rewrite Et in Ht.
    unfold fixed_size, g. simpl. rewrite Et. repeat split; try assumption; lia. }
  assert (Hcg : codec_ok g).
  { unfold codec_ok, g in *. simpl. rewrite Et in *. exact Hc. }
  assert (Hvg : representable g (VNumber n)).
  { unfold representable, g in *. simpl. rewrite Et in *. exact Hv. }
  pose proof (apply_reader_image g (VNumber n) r pre
                (drop (Buffer.float_bytes double) mid ++ post) o na
                m1 m2 bn Hsg Hcg Hvg Hr Hpre) as H.
  unfold image, decode_value, g in H. simpl in H. rewrite Et in H.
  rewrite Z.sub_diag in H. change (zeros 0) with (@nil byte) in H.
  rewrite app_nil_r in H.
  unfold overwrite, decode_value. rewrite Et. rewrite <- app_assoc. exact H.
Qed.

(** X16: through a view on a buffer that holds arbitrary data, setting a
    fixed-size 8-, 16- or 32-bit integer, text or block field to a value in
    range writes inside the span of the field only, keeps the length of
    the buffer, and getting the field afterwards returns the value, a text
    padded with NUL characters to the size of the field. *)
Theorem view_set_then_get (bn0 : bool) (opts : option options) (ds : list decl)
    (w : world) (f : field) (v : value) (pre mid post : list byte) (bn bn' : bool) :
  build bn0 opts ds = Ok w ->
  In f (fields (def w)) ->
  supported f -> in_range f v ->
  Buffer.len pre = f_offset f -> Buffer.len mid = f_size f ->
  let view' := wrap (def w) (pre ++ overwrite f v mid ++ post) in
  wrapper_set bn f v (wrap (def w) (pre ++ mid ++ post)) = (Ok tt, view') /\
  wrapper_get view' f bn' = (Ok (decode_value f v), bn') /\
  length (overwrite f v mid) = length mid.
Proof.
  intros Hb Hin Hsup Hv Hpre Hmid view'.
  pose proof (build_schema_ok _ _ _ _ Hb) as [_ _ Hcodec _ _].
  rewrite List.Forall_forall in Hcodec. specialize (Hcodec f Hin).
  assert (Hrw : exists r wr, f_read f = Some r /\ f_write f = Some wr).
  { destruct Hsup as (Hfix & _ & Ht). specialize (Hcodec Hfix).
    destruct (f_type f) as [n s le|? ?| |]; [|contradiction| |].
    - destruct (Hcodec ltac:(lia)) as [-> ->]. eauto.
    - destruct Hcodec as [-> ->]. eauto.
    - destruct Hcodec as [-> ->]. eauto. }
  destruct Hrw as (r & wr & Er & Ew).
  pose proof (supported_fixed_size f Hsup) as Hfs.
  pose proof (in_range_representable f v Hv) as Hrep.
  repeat split.
  - unfold wrapper_set, wrap. cbn [_buffer _def]. rewrite Ew.
    rewrite (apply_writer_span f v wr bn false pre mid post (f_offset f));
      try assumption; [reflexivity | left; exact Hrep].
  - unfold wrapper_get, view', wrap. cbn [_buffer]. rewrite Er.
    apply (apply_reader_span f v r false pre mid post (f_offset f)); assumption.
  - apply length_overwrite; try assumption. left. exact Hrep.
Qed.

Lemma view_set_then_get_witness :
  exists w f,
    build false no_options mixed_decls = Ok w /\
    In f (fields (def w)) /\
    wrapper_set false f (VString "yo") (wrap (def w) ([x09; x09] ++ [x07; x07; x07] ++ [x08]))
    = (Ok tt, wrap (def w) ([x09; x09] ++ overwrite f (VString "yo") [x07; x07; x07] ++ [x08])) /\
    wrapper_get (wrap (def w) ([x09; x09] ++ overwrite f (VString "yo") [x07; x07; x07] ++ [x08]))
      f false
    = (Ok (decode_value f (VString "yo")), false).
Proof.
  assert (Hb : exists w, build false no_options mixed_decls = Ok w)
    by (eexists; vm_compute; reflexivity).
  destruct Hb as [w Hb].
  assert (Hf : exists f, fields (def w) !! 1%nat = Some f /\ supported f /\
                         in_range f (VString "yo") /\ f_offset f = 2 /\ f_size f = 3).
  { vm_compute in Hb. injection Hb as <-. eexists. split; [reflexivity|].
    split; [|split; [|split; reflexivity]].
    - unfold supported. simpl. repeat split. lia.
    - unfold in_range. simpl. split; [lia|].
      unfold ascii_text. simpl. repeat constructor. }
  destruct Hf as (f & Hf & Hsup & Hv & Ho & Hs).
  assert (Hin : In f (fields (def w))).
  { apply list_elem_of_In. apply (list_elem_of_lookup_2 _ 1%nat). exact Hf. }
  exists w, f. split; [exact Hb|]. split; [exact Hin|].
  destruct (view_set_then_get false no_options mixed_decls w f (VString "yo")
              [x09; x09] [x07; x07; x07] [x08] false false Hb Hin Hsup Hv)
    as (H1 & H2 & _).
  - rewrite Ho. reflexivity.
  - rewrite Hs. reflexivity.
  - split; assumption.
Defined.

(** ** Packing into a supplied buffer *)

Lemma length_overwrite_all (data : record) (fs : list field) :
  forall mid : list byte,
    Forall (field_ready data) fs -> Buffer.len mid = sum_sizes fs ->
    length (overwrite_all data fs mid) = length mid.
Proof.
  induction fs as [|f fs IH]; intros mid Hr Hmid; [reflexivity|].
  inversion Hr as [|? ? Hf Hr']; subst.
  pose proof (sum_sizes_nonneg fs (field_ready_fixed_size _ _ Hr')) as Hsum.
  destruct Hf as (Hsup & _ & Hw).
  assert (Hs : 0 <= f_size f) by (destruct Hsup as (_ & Hs & _); exact Hs).
  simpl in Hmid. unfold Buffer.len in Hmid.
  simpl overwrite_all. rewrite length_app.
  rewrite length_overwrite; [|exact Hsup|exact Hw|unfold Buffer.len; rewrite length_take; lia].
  rewrite IH; [|exact Hr'|unfold Buffer.len; rewrite length_drop; lia].
  rewrite length_take, length_drop. lia.
Qed.

(** The write pass of [pack] on a span that holds arbitrary bytes. *)
Lemma forEach_writeField_span (data : record) (bn : bool) (off : Z) (na : bool)
    (fs : list field) :
  forall (pre mid post : list byte) (o : Z),
    consecutive o fs -> Forall (field_ready data) fs ->
    Buffer.len pre = off + o -> Buffer.len mid = sum_sizes fs ->
    forEach fs (writeField data bn off na) (pre ++ mid ++ post)
    = (Ok tt, pre ++ overwrite_all data fs mid ++ post).
Proof.
  induction fs as [|f fs IH]; intros pre mid post o Hc Hr Hpre Hmid.
  - reflexivity.
  - destruct Hc as [Ho Hc]. inversion Hr as [|? ? Hf Hr']; subst.
    pose proof (sum_sizes_nonneg fs (field_ready_fixed_size _ _ Hr')) as Hsum.
    destruct Hf as (Hsup & Hcodec & Hw).
    assert (Hs : 0 <= f_size f) by (destruct Hsup as (_ & Hs & _); exact Hs).
    simpl in Hmid. unfold Buffer.len in Hmid.
    set (c := take (Z.to_nat (f_size f)) mid).
    set (rest := drop (Z.to_nat (f_size f)) mid).
    assert (Emid : mid = c ++ rest) by (symmetry; apply take_drop).
    assert (Hlc : Buffer.len c = f_size f)
      by (unfold Buffer.len, c; rewrite length_take; lia).
    assert (Hlr : Buffer.len rest = sum_sizes fs)
      by (unfold Buffer.len, rest; rewrite length_drop; lia).
    simpl overwrite_all. fold c rest. rewrite Emid at 1.
    rewrite <- (app_assoc c rest post).
    simpl forEach. unfold bind.
    assert (Hwr : exists wr, f_write f = Some wr).
    { destruct Hsup as (Hfix & _ & Ht). specialize (Hcodec Hfix).
      destruct (f_type f); [destruct Hcodec as [_ ->]; [lia|]|destruct Hcodec as [_ ->]..];
        eexists; reflexivity. }
    destruct Hwr as [wr Ewr].
    unfold writeField at 1. rewrite Ewr.
    rewrite (apply_writer_span f _ wr bn na pre c (rest ++ post) (off + f_offset f));
      try assumption.
    replace (pre ++ overwrite f (field_value data f) c ++ rest ++ post)
      with ((pre ++ overwrite f (field_value data f) c) ++ rest ++ post)
      by (rewrite <- app_assoc; reflexivity).
    rewrite (IH _ rest post (f_offset f + f_size f) Hc Hr').
    + rewrite <- !app_assoc. reflexivity.
    + rewrite len_app. unfold Buffer.len at 2.
      rewrite length_overwrite by assumption. unfold Buffer.len in Hlc. lia.
    + exact Hlr.
Qed.

Lemma or0_representable (f : field) (v : value) :
  representable f v -> v <> VString "" -> or0 v = v.
Proof.
  unfold representable, or0. intros Hv Hne.
  destruct (f_type f), v as [| | |[z|m e| | |]|t|b|]; try contradiction; simpl.
  - destruct (Z.eqb_spec z 0) as [->|]; reflexivity.
  - destruct (Z.eqb_spec z 0) as [->|]; reflexivity.
  - destruct (Z.eqb_spec m 0) as [->|]; [|reflexivity].
    destruct Hv as [Hv _]. discriminate.
  - destruct t; [contradiction Hne|]; reflexivity.
  - reflexivity.
Qed.

(** The read pass of [unpack] on the bytes that the write pass left. *)
Lemma readFields_span (values : record) (off : Z) (na : bool) (fs : list field) :
  forall (pre mid post : list byte) (o : Z) (data : record) (i : nat) (w : world),
    consecutive o fs -> Forall (field_ready values) fs ->
    Forall (field_kept values) fs ->
    Buffer.len pre = off + o -> Buffer.len mid = sum_sizes fs ->
    readFields (pre ++ overwrite_all values fs mid ++ post) off na data i fs w
    = (Ok (fold_left (collect values) fs data), w).
Proof.
  induction fs as [|f fs IH]; intros pre mid post o data i w Hc Hr Hh Hpre Hmid.
  - reflexivity.
  - destruct Hc as [Ho Hc]. inversion Hr as [|? ? Hf Hr']; subst.
    inversion Hh as [|? ? Hhf Hh']; subst.
    pose proof (sum_sizes_nonneg fs (field_ready_fixed_size _ _ Hr')) as Hsum.
    destruct Hf as (Hsup & Hcodec & Hw).
    assert (Hs : 0 <= f_size f) by (destruct Hsup as (_ & Hs & _); exact Hs).
    simpl in Hmid. unfold Buffer.len in Hmid.
    set (c := take (Z.to_nat (f_size f)) mid).
    set (rest := drop (Z.to_nat (f_size f)) mid).
    assert (Hlc : Buffer.len c = f_size f)
      by (unfold Buffer.len, c; rewrite length_take; lia).
    assert (Hlr : Buffer.len rest = sum_sizes fs)
      by (unfold Buffer.len, rest; rewrite length_drop; lia).
    assert (Hread : exists r, f_read f = Some r).
    { destruct Hsup as (Hfix & _ & Ht). specialize (Hcodec Hfix).
      destruct (f_type f); [destruct Hcodec as [-> _]; [lia|]|destruct Hcodec as [-> _]..];
        eexists; reflexivity. }
    destruct Hread as [r Er].
    simpl overwrite_all. fold c rest. rewrite <- app_assoc.
    assert (Hlo : Buffer.len (overwrite f (field_value values f) c) = f_size f).
    { unfold Buffer.len. rewrite length_overwrite by assumption.
      unfold Buffer.len in Hlc. exact Hlc. }
    assert (Hstep : readField (pre ++ overwrite f (field_value values f) c
                                 ++ overwrite_all values fs rest ++ post) off na data i f w
                    = (Ok (collect values data f), w)).
    { unfold readField, bind, get, onBigNumber, ret.
      pose proof Hsup as (Hfix & _ & _). rewrite Hfix, Er.
      unfold field_kept, collect in *. destruct w as [bn d]. simpl.
      destruct (f_name f) as [s|n] eqn:En.
      - destruct Hhf as (v & Hv & Hin & Efv). rewrite Hv, Efv.
        rewrite (apply_reader_span f v r na pre c _ (off + f_offset f) _ _ bn);
          try assumption. reflexivity.
      - destruct (apply_reader_total f r pre (overwrite f (field_value values f) c)
                    (overwrite_all values fs rest ++ post) (off + f_offset f) na
                    (Some (def_int64mode d)) (f_int64mode f) bn) as [val Hval];
          try assumption.
        rewrite Hval. reflexivity. }
    simpl readFields. unfold bind. rewrite Hstep.
    replace (pre ++ overwrite f (field_value values f) c
               ++ overwrite_all values fs rest ++ post)
      with ((pre ++ overwrite f (field_value values f) c)
              ++ overwrite_all values fs rest ++ post)
      by (rewrite <- app_assoc; reflexivity).
    rewrite (IH _ rest post (f_offset f + f_size f) _ _ _ Hc Hr' Hh').
    + reflexivity.
    + rewrite len_app. lia.
    + exact Hlr.
Qed.

Lemma assignment_kept (values : record) (fs : list field) :
  NoDup (map field_key fs) -> assigned fs values -> nonempty_texts values ->
  Forall (field_kept values) fs.
Proof.
  intros Hn Ha Hne. apply List.Forall_forall. intros f Hf. unfold field_kept.
  destruct (field_value_cases values fs f Hn Ha Hf)
    as [(s & v & -> & Hv & Hin & Efv)|(n & -> & _)]; [|exact I].
  exists v. split; [exact Hv|]. split; [exact Hin|].
  rewrite Efv. apply (or0_representable f); [exact Hin|].
  intros ->. exact (Hne s Hv).
Qed.

(** X17: packing into a supplied buffer that holds arbitrary data, at any
    offset: for a static schema of 8-, 16- or 32-bit integer, text and block
    fields and values in range none of which is the empty text, pack
    succeeds, changes no byte before the offset or after the span of the
    schema, keeps the length of the buffer, and unpack at the same offset
    returns the values, the texts padded to the size of their field. *)
Theorem pack_into_supplied_buffer (bn : bool) (opts : option options) (ds : list decl)
    (w : world) (values : record) (offset : option Z) (na : option bool)
    (pre mid post : list byte) :
  build bn opts ds = Ok w ->
  staticSized (def w) = true ->
  Forall supported (fields (def w)) ->
  assignment (fields (def w)) values ->
  nonempty_texts values ->
  Buffer.len pre = match offset with Some z => z | None => 0 end ->
  Buffer.len mid = size (def w) ->
  let b := pre ++ overwrite_all values (fields (def w)) mid ++ post in
  pack (Some values) (Some (pre ++ mid ++ post)) offset na w = (Ok b, (w, Some b)) /\
  length (overwrite_all values (fields (def w)) mid) = length mid /\
  unpack b offset na w = (Ok (padded (fields (def w)) values), w).
Proof.
  intros Hb Hst Hsup Ha Hne Hpre Hmid b.
  apply Forall_supported_fixed_size in Hsup. apply assignment_assigned in Ha.
  destruct (build_schema_ok _ _ _ _ Hb) as [Hl Hsz Hcodec _ Hnd].
  rewrite (fixed_keys_all _ Hsup) in Hnd.
  destruct (assigned_ready values _ Hnd Hsup Hcodec Ha) as [Hready _].
  pose proof (assignment_kept values _ Hnd Ha Hne) as Hkept.
  rewrite Hsz in Hmid.
  split; [|split].
  - unfold pack, resolveForPack, bind, get. rewrite Hst. unfold ret.
    rewrite (forEach_writeField_span values (BigNumber w) _ _ (fields (def w))
               pre mid post 0 Hl Hready) by (assumption || lia).
    reflexivity.
  - apply length_overwrite_all; assumption.
  - unfold unpack, bind, get. subst b.
    rewrite (readFields_span values _ _ (fields (def w)) pre mid post 0 ∅ 0%nat w
               Hl Hready Hkept) by (assumption || lia).
    rewrite (collect_padded values _ Hnd Ha). reflexivity.
Qed.

(** The schema and the values of the examples. *)
Lemma mixed_world_facts (w : world) :
  build false no_options mixed_decls = Ok w ->
  staticSized (def w) = true /\
  Forall supported (fields (def w)) /\
  assignment (fields (def w)) mixed_values /\
  size (def w) = 8.
Proof.
  intros Hb. vm_compute in Hb. injection Hb as <-.
  split; [reflexivity|]. split; [|split; [|reflexivity]].
  - repeat (apply List.Forall_cons; [repeat split; simpl; try reflexivity; lia|]).
    apply List.Forall_nil.
  - split.
    + intros f Hf. simpl in Hf.
      destruct Hf as [<-|[<-|[<-|[<-|[]]]]]; simpl.
      * eexists. split; [vm_compute; reflexivity|].
        vm_compute. split; intro; discriminate.
      * eexists. split; [vm_compute; reflexivity|].
        split; [vm_compute; intro; discriminate|].
        unfold ascii_text. simpl. repeat constructor.
      * eexists. split; [vm_compute; reflexivity|]. vm_compute. reflexivity.
      * intros d Hd. discriminate.
    + intros k [v Hk]. unfold mixed_values in Hk.
      rewrite !lookup_insert in Hk.
      repeat case_decide; subst; simpl.
      * eexists. split; [left; reflexivity|reflexivity].
      * eexists. split; [right; left; reflexivity|reflexivity].
      * eexists. split; [right; right; left; reflexivity|reflexivity].
      * rewrite lookup_empty in Hk. discriminate.
Qed.

Lemma mixed_values_nonempty : nonempty_texts mixed_values.
Proof.
  intros k. unfold mixed_values. rewrite !lookup_insert.
  repeat case_decide; discriminate.
Qed.

Lemma pack_into_supplied_buffer_witness :
  exists (w : world) (b : Buffer.t),
    build false no_options mixed_decls = Ok w /\
    pack (Some mixed_values) (Some ([x09] ++ repeat x07 8 ++ [x08])) (Some 1) None w
    = (Ok b, (w, Some b)) /\
    unpack b (Some 1) None w = (Ok (padded (fields (def w)) mixed_values), w).
Proof.
  assert (Hb : exists w, build false no_options mixed_decls = Ok w)
    by (eexists; vm_compute; reflexivity).
  destruct Hb as [w Hb].
  destruct (mixed_world_facts w Hb) as (Hst & Hsup & Ha & Hsz).
  destruct (pack_into_supplied_buffer false no_options mixed_decls w mixed_values
              (Some 1) None [x09] (repeat x07 8) [x08] Hb Hst Hsup Ha
              mixed_values_nonempty) as (Hp & _ & Hu).
  - reflexivity.
  - rewrite Hsz. reflexivity.
  - eexists w, _. split; [exact Hb|]. split; [exact Hp | exact Hu].
Defined.

(** ** Offsets are fixed at declaration *)

Lemma resolve_offsets (i : nat) (f : field) (z : Z) (w w' : world) (r : result field) :
  resolve i f z w = (r, w') ->
  fields (def w) !! i = Some f ->
  map f_offset (fields (def w')) = map f_offset (fields (def w)).
Proof.
  intros H Hi. apply resolve_fields in H; [|exact Hi]. destruct H as (-> & _).
  change (map f_offset) with (fmap (M := list) f_offset).
  rewrite list_fmap_insert. simpl. apply list_insert_id.
  rewrite list_lookup_fmap, Hi. reflexivity.
Qed.

Lemma resolveForPack_offsets (data : record) (w w' : world) (r : result unit) :
  resolveForPack data w = (r, w') ->
  map f_offset (fields (def w')) = map f_offset (fields (def w)).
Proof.
  unfold resolveForPack, bind, get, throw, ret. intros H.
  destruct (staticSized (def w)); [injection H as _ <-; reflexivity|].
  destruct (find_deferred 0 (fields (def w))) as [[[i f] s]|] eqn:Ed;
    [|injection H as _ <-; reflexivity].
  destruct (find_field (Named s) (fields (def w))) as [g|];
    [|injection H as _ <-; reflexivity].
  destruct (field_value data g) as [| | |[z|? ?| | |]| | |];
    try (injection H as _ <-; reflexivity).
  apply find_deferred_spec in Ed. destruct Ed as (j & -> & Hj & _).
  destruct (resolve (0 + j) f z w) as [[f1|e] w1] eqn:Er.
  - injection H as _ <-. apply (resolve_offsets _ _ _ _ _ _ Er Hj).
  - injection H as _ <-. apply (resolve_offsets _ _ _ _ _ _ Er Hj).
Qed.

Lemma readField_offsets (buf : Buffer.t) (offset : Z) (noAssert_ : bool)
    (data : record) (i : nat) (f : field) (w w' : world) (r : result record) :
  readField buf offset noAssert_ data i f w = (r, w') ->
  fields (def w) !! i = Some f ->
  map f_offset (fields (def w')) = map f_offset (fields (def w)).
Proof.
  rewrite readField_split. unfold bind at 1. intros H Hi.
  assert (Hres : forall r1 w1, resolve_field data i f w = (r1, w1) ->
            map f_offset (fields (def w1)) = map f_offset (fields (def w))).
  { unfold resolve_field, ret, throw. intros r1 w1 H1.
    destruct (f_sizeFieldName f) as [s|]; [|injection H1 as _ <-; reflexivity].
    destruct (String.eqb s ""); [injection H1 as _ <-; reflexivity|].
    destruct (data !! s) as [[| | |[z|? ?| | |]| | |]|];
      try (injection H1 as _ <-; reflexivity).
    apply (resolve_offsets _ _ _ _ _ _ H1 Hi). }
  destruct (resolve_field data i f w) as [[f1|e] w1] eqn:Er.
  - apply decode_field_spec in H. destruct H as [-> _]. apply (Hres _ _ eq_refl).
  - injection H as _ <-. apply (Hres _ _ eq_refl).
Qed.

Lemma readFields_offsets (buf : Buffer.t) (offset : Z) (noAssert_ : bool)
    (fs : list field) :
  forall (data : record) (i : nat) (w w' : world) (r : result record),
    readFields buf offset noAssert_ data i fs w = (r, w') ->
    drop i (fields (def w)) = fs ->
    map f_offset (fields (def w')) = map f_offset (fields (def w)).
Proof.
  induction fs as [|f fs IH]; intros data i w w' r H Hd; simpl in H.
  - injection H as _ <-. reflexivity.
  - apply drop_cons_lookup in Hd. destruct Hd as [Hi Hd].
    unfold bind in H.
    destruct (readField buf offset noAssert_ data i f w) as [[data1|e] w1] eqn:Ef.
    + pose proof (readField_offsets _ _ _ _ _ _ _ _ _ Ef Hi) as Ho.
      apply readField_layout in Ef; [|exact Hi]. destruct Ef as [_ Ed].
      rewrite (IH _ _ _ _ _ H); [exact Ho|]. rewrite Ed. exact Hd.
    + injection H as _ <-. apply (readField_offsets _ _ _ _ _ _ _ _ _ Ef Hi).
Qed.

Lemma deferred_size_zero (bn : bool) (opts : option options) (ds : list decl)
    (w : world) :
  build bn opts ds = Ok w ->
  Forall (fun f => f_sizeFieldName f <> None -> f_size f = 0) (fields (def w)).
Proof.
  apply (build_invariant
           (fun w => Forall (fun f => f_sizeFieldName f <> None -> f_size f = 0)
                       (fields (def w)))).
  - intros w0 -> _. constructor.
  - intros w1 w2 [_ [-> | (g & _ & -> & _ & Hg & _)]] IH; [exact IH|].
    apply Forall_app. split; [exact IH|]. constructor; [|constructor].
    intros Hd. apply Hg. exact Hd.
Qed.

(** X18: offsets are fixed when the fields are declared.  Neither pack nor
    unpack changes the offset of any field, whatever they do to the sizes;
    and in a declared schema the field that follows a length-dependent text
    field starts at the offset of the text itself, so once the text is
    resolved to a positive length the two overlap. *)
Theorem offsets_fixed_at_declaration (bn : bool) (opts : option options)
    (ds : list decl) (w : world) :
  build bn opts ds = Ok w ->
  (forall (i : nat) (t g : field),
     fields (def w) !! i = Some t -> f_sizeFieldName t <> None ->
     fields (def w) !! S i = Some g -> f_offset g = f_offset t) /\
  (forall data buf offset noAssert_ r w' ob,
     pack data buf offset noAssert_ w = (r, (w', ob)) ->
     map f_offset (fields (def w')) = map f_offset (fields (def w))) /\
  (forall buf offset noAssert_ r w',
     unpack buf offset noAssert_ w = (r, w') ->
     map f_offset (fields (def w')) = map f_offset (fields (def w))).
Proof.
  intros Hb. split; [|split].
  - intros i t g Hi Ht Hg.
    pose proof (build_schema_ok _ _ _ _ Hb) as [Hl _ _ _ _].
    pose proof (deferred_size_zero _ _ _ _ Hb) as Hz.
    rewrite List.Forall_forall in Hz.
    assert (Hsize : f_size t = 0).
    { apply Hz; [|exact Ht]. apply list_elem_of_In.
      apply (list_elem_of_lookup_2 _ i). exact Hi. }
    rewrite (consecutive_lookup 0 _ _ _ Hl Hg), (consecutive_lookup 0 _ _ _ Hl Hi).
    rewrite (take_S_r _ _ _ Hi), sum_sizes_app. simpl. lia.
  - intros data buf offset noAssert_ r w' ob H.
    apply pack_world in H. destruct H as [r0 H].
    apply (resolveForPack_offsets _ _ _ _ H).
  - intros buf offset noAssert_ r w' H. unfold unpack, bind, get in H.
    apply (readFields_offsets _ _ _ _ _ _ _ _ _ H). reflexivity.
Qed.

Lemma offsets_fixed_at_declaration_witness :
  exists (w : world) (t g : field),
    build false no_options text_then_tail_decls = Ok w /\
    fields (def w) !! 1%nat = Some t /\ fields (def w) !! 2%nat = Some g /\
    f_offset g = f_offset t.
Proof.
  assert (Hb : exists w, build false no_options text_then_tail_decls = Ok w)
    by (eexists; vm_compute; reflexivity).
  destruct Hb as [w Hb].
  assert (Hf : exists t g, fields (def w) !! 1%nat = Some t /\
                           fields (def w) !! 2%nat = Some g /\
                           f_sizeFieldName t <> None).
  { vm_compute in Hb. injection Hb as <-. do 2 eexists.
    split; [reflexivity|]. split; [reflexivity|]. discriminate. }
  destruct Hf as (t & g & Ht & Hg & Hd).
  destruct (offsets_fixed_at_declaration false no_options text_then_tail_decls w Hb)
    as (H1 & _).
  exists w, t, g. split; [exact Hb|]. split; [exact Ht|]. split; [exact Hg|].
  apply (H1 1%nat t g Ht Hd Hg).
Defined.

(** ** A text field whose length is given by an earlier field *)


Lemma build_snoc (bn : bool) (opts : option options) (ds : list decl) (d : decl)
    (w0 w : world) :
  build bn opts ds = Ok w0 ->
  build bn opts (ds ++ [d]) = Ok w ->
  declare d w0 = (Ok tt, w).
Proof.
  unfold build. intros H0 H.
  destruct (createNewStructDef opts bn) as [[d0|e] bn'] eqn:Ec; [|discriminate].
  rewrite forEach_app in H.
  destruct (forEach ds declare (World bn' d0)) as [[[]|e] w1] eqn:Ef; [|discriminate].
  injection H0 as <-. simpl in H. unfold bind, ret in H.
  destruct (declare d w1) as [[[]|e] w2]; [|discriminate].
  injection H as <-. reflexivity.
Qed.

Lemma find_field_app (n : fname) (fs l : list field) (g : field) :
  find_field n fs = Some g -> find_field n (fs ++ l) = Some g.
Proof.
  unfold find_field. induction fs as [|f fs IH]; simpl; [discriminate|].
  destruct (fname_eqb (f_name f) n); [tauto|exact IH].
Qed.

Lemma find_deferred_last (fs : list field) (t : field) (s : string) :
  Forall (fun f => f_sizeFieldName f = None) fs ->
  f_sizeFieldName t = Some s ->
  forall k, find_deferred k (fs ++ [t]) = Some ((k + length fs)%nat, t, s).
Proof.
  intros Hfs Ht. induction Hfs as [|f fs Hf _ IH]; intros k; simpl.
  - rewrite Ht, Nat.add_0_r. reflexivity.
  - rewrite Hf, IH. simpl. rewrite Nat.add_succ_r. reflexivity.
Qed.

(** The schema after [def.string(tn, s)] on a static schema of fixed-size
    fields one of which is named [s]. *)
Lemma text_last_world (tn s : string) (w0 w : world) :
  schema_ok (def w0) ->
  Forall supported (fields (def w0)) ->
  find_field (Named s) (fields (def w0)) <> None ->
  declare (DString (Named tn) (AValue (VString s))) w0 = (Ok tt, w) ->
  existsb (String.eqb tn) reserved = false /\
  (forall f, In f (fields (def w0)) -> field_key f <> tn) /\
  w = World (BigNumber w0)
        (Def (name (def w0))
             (fields (def w0) ++ [text_field tn s (size (def w0))])
             false (size (def w0) + 0) (littleEndian (def w0)) (noAssert (def w0))
             (def_int64mode (def w0))
             (assoc_set tn true (accessors (def w0)))).
Proof.
  intros Hok Hsup Hs H. simpl in H.
  unfold defineStringField, bind, get in H.
  destruct (find_field (Named s) (fields (def w0))) as [L|] eqn:EL; [|contradiction].
  unfold modify_def, defineField in H.
  cbn [with_sizeFieldName f_name key def BigNumber] in H.
  destruct (existsb (String.eqb tn) reserved) eqn:Eres; [discriminate|].
  split; [reflexivity|].
  match type of H with
  | context [defineProperty tn ?c ?d] =>
      destruct (defineProperty tn c d) as [d'|e] eqn:Ep; [|discriminate]
  end.
  injection H as <-.
  assert (Hkeys : forall f, In f (fields (def w0)) ->
                            assoc (field_key f) (accessors (def w0)) = Some false).
  { intros f Hf. apply (ok_keys _ Hok f Hf). apply fixed_size_not_configurable.
    apply supported_fixed_size.
    rewrite List.Forall_forall in Hsup. apply Hsup. exact Hf. }
  unfold register in Ep. simpl in Ep.
  destruct (find_field (Named tn) (fields (def w0))) as [g|] eqn:Eg.
  - (* the name is taken by a fixed-size field: its accessor cannot be replaced *)
    apply find_field_Some in Eg. destruct Eg as [Hg Hname].
    unfold defineProperty in Ep. simpl in Ep.
    pose proof (Hkeys g Hg) as Hk. unfold field_key in Hk. rewrite Hname in Hk.
    simpl in Hk. rewrite Hk in Ep. discriminate.
  - unfold defineProperty in Ep. simpl in Ep.
    destruct (assoc tn (accessors (def w0))) as [[|]|] eqn:Ea;
      try discriminate; injection Ep as <-;
      (split; [intros f Hf Hk; pose proof (Hkeys f Hf) as Hk'; rewrite Hk in Hk'; congruence
              | reflexivity]).
Qed.

Lemma assoc_set_idem {A} (k : string) (a : A) (l : list (string * A)) :
  assoc_set k a (assoc_set k a l) = assoc_set k a l.
Proof.
  induction l as [|[k' a'] l IH]; simpl.
  - rewrite String.eqb_refl. reflexivity.
  - destruct (String.eqb k k') eqn:E; simpl.
    + rewrite String.eqb_refl. reflexivity.
    + rewrite E, IH. reflexivity.
Qed.

(** Resolving the text field that is registered last, to [z] bytes. *)
Lemma resolve_text_last (tn s : string) (o z0 z : Z) (r0 : option reader)
    (wr0 : option writer) (fs : list field) (bn : bool) (nm : value) (st : bool)
    (sz : Z) (le na : bool) (m : int64mode) (acc : list (string * bool)) :
  existsb (String.eqb tn) reserved = false ->
  resolve (length fs) (Field TString (Named tn) z0 o r0 wr0 None (Some s) None) z
    (World bn (Def nm (fs ++ [Field TString (Named tn) z0 o r0 wr0 None (Some s) None])
                   st sz le na m (assoc_set tn true acc)))
  = (Ok (resolved_text_field tn s o z),
     World bn (Def nm (fs ++ [resolved_text_field tn s o z]) st (sz + (z - z0)) le na m
                   (assoc_set tn true acc))).
Proof.
  intros Hres.
  set (t := Field TString (Named tn) z0 o r0 wr0 None (Some s) None).
  set (t' := resolved_text_field tn s o z).
  set (D := Def nm (fs ++ [t']) st (sz + (z - z0)) le na m (assoc_set tn true acc)).
  assert (Estate : set_field (length fs) t'
                     (add_size (z - f_size t)
                        (Def nm (fs ++ [t]) st sz le na m (assoc_set tn true acc))) = D).
  { unfold set_field, add_size, D. simpl.
    rewrite insert_app_r_alt by lia. rewrite Nat.sub_diag. reflexivity. }
  assert (Edef : defineField t' (World bn D) = (Ok tt, World bn D)).
  { unfold defineField. change (key (f_name t')) with tn. rewrite Hres.
    cbn [def BigNumber].
    assert (Hfind : find_field (f_name t') (fields D) <> None).
    { apply (find_field_In t'). unfold D. simpl. apply in_or_app. right. left. reflexivity. }
    unfold register.
    destruct (find_field (f_name t') (fields D)); [|contradiction].
    unfold defineProperty, D. simpl. rewrite assoc_set_same, assoc_set_idem. reflexivity. }
  unfold resolve, bind, modify_def, ret. cbn [def BigNumber].
  change (with_codec (StringReader z) (StringWriter z) (with_size z t)) with t'.
  rewrite Estate, Edef. reflexivity.
Qed.

Lemma readFields_app (buf : Buffer.t) (offset : Z) (noAssert_ : bool)
    (l1 l2 : list field) :
  forall (data : record) (i : nat) (w : world),
    readFields buf offset noAssert_ data i (l1 ++ l2) w
    = match readFields buf offset noAssert_ data i l1 w with
      | (Ok data', w') => readFields buf offset noAssert_ data' (i + length l1) l2 w'
      | (Throw e, w') => (Throw e, w')
      end.
Proof.
  induction l1 as [|f l1 IH]; intros data i w; simpl.
  - rewrite Nat.add_0_r. reflexivity.
  - unfold bind. destruct (readField buf offset noAssert_ data i f w) as [[data1|e] w1];
      [|reflexivity].
    rewrite IH. replace (S i + length l1)%nat with (i + S (length l1))%nat by lia.
    reflexivity.
Qed.

Lemma field_value_insert_other (vals : record) (tn : string) (v : value) (f : field) :
  field_key f <> tn -> field_value (<[tn := v]> vals) f = field_value vals f.
Proof.
  intros Hk. unfold field_value. fold (field_key f).
  rewrite lookup_insert_ne by congruence. reflexivity.
Qed.

Lemma images_insert_other (vals : record) (tn : string) (v : value) (fs : list field) :
  (forall f, In f fs -> field_key f <> tn) ->
  images (<[tn := v]> vals) fs = images vals fs.
Proof.
  intros Hk. unfold images. induction fs as [|f fs IH]; [reflexivity|]. simpl.
  rewrite field_value_insert_other by (apply Hk; left; reflexivity).
  rewrite IH; [reflexivity|]. intros g Hg. apply Hk. right. exact Hg.
Qed.

Lemma collect_insert_other (vals : record) (tn : string) (v : value) (fs : list field) :
  (forall f, In f fs -> field_key f <> tn) ->
  forall data, fold_left (collect (<[tn := v]> vals)) fs data
               = fold_left (collect vals) fs data.
Proof.
  intros Hk. induction fs as [|f fs IH]; intros data; [reflexivity|]. simpl.
  assert (E : collect (<[tn := v]> vals) data f = collect vals data f).
  { unfold collect. pose proof (Hk f (or_introl eq_refl)) as Hf. unfold field_key in Hf.
    destruct (f_name f) as [s'|n]; [|reflexivity]. simpl in Hf.
    rewrite lookup_insert_ne by congruence. reflexivity. }
  rewrite E. apply IH. intros g Hg. apply Hk. right. exact Hg.
Qed.

Lemma len_images (data : record) (fs : list field) :
  Forall (field_ready data) fs -> Buffer.len (images data fs) = sum_sizes fs.
Proof.
  unfold images. induction 1 as [|f fs (Hsup & _ & Hw) _ IH]; [reflexivity|].
  simpl. rewrite len_app, IH, (len_image f _ Hsup Hw). reflexivity.
Qed.

Lemma pad_exact (t : string) : pad t (Z.of_nat (String.length t)) = t.
Proof.
  unfold pad. rewrite Z.sub_diag. change (zeros 0) with (@nil byte).
  rewrite app_nil_r. apply string_of_list_byte_of_string.
Qed.

(** The fixed-size field that the resolved text field behaves like. *)
Lemma resolved_text_shadow (tn s : string) (o : Z) (text : string) :
  ascii_text text ->
  let z := Z.of_nat (String.length text) in
  let g := Field TString (Named tn) z o (Some (StringReader z)) (Some (StringWriter z))
                 None None None in
  fixed_size g /\ codec_ok g /\ representable g (VString text) /\
  overwrite g (or0 (VString text)) (zeros z) = list_byte_of_string text /\
  image g (VString text) = list_byte_of_string text.
Proof.
  intros Ha z g. split; [repeat split; simpl; lia|].
  split; [intros _; split; reflexivity|].
  split; [unfold representable; simpl; lia|]. split.
  - destruct text as [|a text].
    + reflexivity.
    + unfold overwrite, or0. cbn [truthy String.eqb negb f_type g f_size].
      subst z. rewrite Z.sub_diag. apply app_nil_r.
  - unfold image. cbn [f_type g f_size]. subst z. rewrite Z.sub_diag. apply app_nil_r.
Qed.

(** X19: a text field whose length is given by an earlier field, declared
    last.  For a schema of fixed-size 8-, 16- or 32-bit integer, text and
    block fields followed by [string(tn, s)], where [s] names one of those
    fields, in-range values for the fixed-size fields and an ASCII text
    whose length is the value given for [s]: pack allocates a buffer of
    exactly the offset plus the fixed sizes plus the length of the text,
    and unpack of that buffer returns the text unchanged together with the
    other values (texts of fixed size padded to their field), both with the
    schema as pack left it and with the schema as it was declared. *)
Theorem text_with_length_round_trip (bn : bool) (opts : option options)
    (ds : list decl) (w0 w : world) (tn s : string) (vals0 : record) (text : string)
    (offset : option Z) (na : option bool) :
  build bn opts ds = Ok w0 ->
  Forall supported (fields (def w0)) ->
  build bn opts (ds ++ [DString (Named tn) (AValue (VString s))]) = Ok w ->
  s <> ""%string ->
  assignment (fields (def w0)) vals0 ->
  vals0 !! s = Some (VNumber (Fin (Z.of_nat (String.length text)))) ->
  ascii_text text ->
  0 <= match offset with Some z => z | None => 0 end ->
  exists (b : Buffer.t) (w1 : world),
    pack (Some (<[tn := VString text]> vals0)) None offset na w = (Ok b, (w1, Some b)) /\
    Buffer.len b = match offset with Some z => z | None => 0 end
                   + size (def w0) + Z.of_nat (String.length text) /\
    unpack b offset na w1
    = (Ok (<[tn := VString text]> (padded (fields (def w0)) vals0)), w1) /\
    unpack b offset na w
    = (Ok (<[tn := VString text]> (padded (fields (def w0)) vals0)), w1).
Proof.
  intros Hb0 Hsup Hb Hs Ha Hlen Hascii Hoff.
  pose proof (Forall_supported_fixed_size _ Hsup) as Hfs.
  pose proof (assignment_assigned _ _ Ha) as Ha'.
  pose proof (build_schema_ok _ _ _ _ Hb0) as Hok.
  destruct Hok as [Hl Hsz Hcodec Hkeys Hnd].
  assert (Hok : schema_ok (def w0)) by (constructor; assumption).
  rewrite (fixed_keys_all _ Hfs) in Hnd.
  set (fs := fields (def w0)) in *.
  set (off := match offset with Some z => z | None => 0 end) in *.
  set (z := Z.of_nat (String.length text)) in *.
  assert (HL : exists L, find_field (Named s) fs = Some L /\ In L fs /\ f_name L = Named s).
  { destruct Ha as [_ Ha2]. destruct (Ha2 s) as (f & Hf & Hname); [rewrite Hlen; eauto|].
    pose proof (find_field_In f fs Hf) as Hne. rewrite Hname in Hne.
    destruct (find_field (Named s) fs) as [L|] eqn:EL; [|contradiction].
    exists L. split; [reflexivity|]. apply find_field_Some in EL. exact EL. }
  destruct HL as (L & EL & HLin & HLname).
  pose proof (build_snoc _ _ _ _ _ _ Hb0 Hb) as Hd.
  apply text_last_world in Hd; [|exact Hok|exact Hsup|fold fs; rewrite EL; discriminate].
  fold fs in Hd. destruct Hd as (Hres & Hkeyne & ->).
  destruct (assigned_ready vals0 fs Hnd Hfs Hcodec Ha') as [Hready0 Hholds0].
  set (values := <[tn := VString text]> vals0).
  assert (Hready : Forall (field_ready values) fs).
  { rewrite List.Forall_forall in Hready0. apply List.Forall_forall. intros f Hf.
    destruct (Hready0 f Hf) as (H1 & H2 & H3). split; [exact H1|]. split; [exact H2|].
    unfold values. rewrite field_value_insert_other by (apply Hkeyne; exact Hf). exact H3. }
  assert (Hholds : Forall (field_holds values) fs).
  { rewrite List.Forall_forall in Hholds0. apply List.Forall_forall. intros f Hf.
    specialize (Hholds0 f Hf). pose proof (Hkeyne f Hf) as Hk.
    unfold field_holds, field_key in *. destruct (f_name f) as [s'|n]; [|exact I].
    simpl in Hk. destruct Hholds0 as (v & Hv & Hin). exists v. split; [|exact Hin].
    unfold values. rewrite lookup_insert_ne by congruence. exact Hv. }
  assert (HvL : field_value values L = VNumber (Fin z)).
  { unfold values. rewrite field_value_insert_other by (apply Hkeyne; exact HLin).
    unfold field_value. rewrite HLname. simpl key. rewrite Hlen.
    unfold or0. simpl. destruct (Z.eqb_spec z 0) as [->|]; reflexivity. }
  assert (Hvt : field_value values (resolved_text_field tn s (size (def w0)) z)
                = or0 (VString text)).
  { unfold field_value, values. simpl. rewrite lookup_insert_eq. reflexivity. }
  destruct (resolved_text_shadow tn s (size (def w0)) text Hascii)
    as (Hgs & Hgc & Hgr & Hgo & Hgi). fold z in Hgs, Hgc, Hgr, Hgo, Hgi.
  pose proof (sum_sizes_nonneg fs Hfs) as Hsum.
  assert (Hz : 0 <= z) by (unfold z; lia).
  assert (Hfixed : Forall (fun f => f_sizeFieldName f = None) fs).
  { eapply Forall_impl; [exact Hsup|]. intros f (H & _). exact H. }
  set (t' := resolved_text_field tn s (size (def w0)) z) in *.
  set (w1 := World (BigNumber w0)
               (Def (name (def w0)) (fs ++ [t']) false (size (def w0) + 0 + (z - 0))
                    (littleEndian (def w0)) (noAssert (def w0)) (def_int64mode (def w0))
                    (assoc_set tn true (accessors (def w0))))).
  set (b := zeros off ++ images values fs ++ list_byte_of_string text).
  assert (Hlb : Buffer.len b = off + size (def w0) + z).
  { unfold b. rewrite !len_app, len_zeros, (len_images _ _ Hready) by lia.
    unfold Buffer.len at 1. rewrite length_list_byte_of_string. fold z. lia. }
  assert (Hunpack : forall (z0 sz : Z) (r0 : option reader) (wr0 : option writer),
    unpack b offset na
      (World (BigNumber w0)
         (Def (name (def w0))
              (fs ++ [Field TString (Named tn) z0 (size (def w0)) r0 wr0 None (Some s) None])
              false sz (littleEndian (def w0)) (noAssert (def w0))
              (def_int64mode (def w0)) (assoc_set tn true (accessors (def w0)))))
    = (Ok (<[tn := VString text]> (padded fs vals0)),
       World (BigNumber w0)
         (Def (name (def w0)) (fs ++ [t']) false (sz + (z - z0))
              (littleEndian (def w0)) (noAssert (def w0))
              (def_int64mode (def w0)) (assoc_set tn true (accessors (def w0)))))).
  { intros z0 sz r0 wr0.
    set (t := Field TString (Named tn) z0 (size (def w0)) r0 wr0 None (Some s) None).
    set (W := World (BigNumber w0) (Def (name (def w0)) (fs ++ [t]) false sz
                (littleEndian (def w0)) (noAssert (def w0)) (def_int64mode (def w0))
                (assoc_set tn true (accessors (def w0))))).
    set (W' := World (BigNumber w0) (Def (name (def w0)) (fs ++ [t']) false (sz + (z - z0))
                (littleEndian (def w0)) (noAssert (def w0)) (def_int64mode (def w0))
                (assoc_set tn true (accessors (def w0))))).
    unfold unpack, bind, get. fold off.
    unfold W at 1 2. cbn [def fields noAssert]. fold W.
    rewrite readFields_app.
    rewrite (readFields_images values off _ fs (zeros off) (list_byte_of_string text) 0
               ∅ 0%nat W Hl Hready Hholds) by (rewrite len_zeros by lia; lia).
    unfold values at 1. rewrite (collect_insert_other vals0 tn _ fs Hkeyne).
    rewrite (collect_padded vals0 fs Hnd Ha').
    simpl readFields. rewrite readField_split. unfold bind.
    assert (Hps : padded fs vals0 !! s = Some (VNumber (Fin z))).
    { unfold padded. rewrite map_lookup_imap, Hlen. simpl. rewrite EL.
      assert (Hin : in_range L (VNumber (Fin z))).
      { destruct Ha as [Ha1 _]. specialize (Ha1 L HLin). rewrite HLname in Ha1.
        destruct Ha1 as (v & Hv & Hin). rewrite Hlen in Hv. injection Hv as <-. exact Hin. }
      unfold decode_value. unfold in_range in Hin.
      destruct (f_type L); try contradiction; reflexivity. }
    assert (Er : resolve_field (padded fs vals0) (length fs) t W = (Ok t', W')).
    { unfold resolve_field. change (f_sizeFieldName t) with (Some s). cbv iota.
      destruct (String.eqb_spec s "") as [E|_]; [contradiction|].
      rewrite Hps. unfold W, t.
      rewrite resolve_text_last by exact Hres. reflexivity. }
    rewrite Er.
    assert (Ed : forall na0, decode_field b off na0 (padded fs vals0) t' W'
                 = (Ok (<[tn := VString text]> (padded fs vals0)), W')).
    { intros na0. unfold decode_field, bind, get, onBigNumber, ret.
      change (f_read t') with (Some (StringReader z)).
      change (f_offset t') with (size (def w0)). change (f_name t') with (Named tn).
      unfold b. rewrite (app_assoc (zeros off)).
      rewrite <- (app_nil_r (list_byte_of_string text)), <- Hgi.
      match goal with
      | |- context [apply_reader (StringReader z) ?buf ?o ?n ?m1 ?m2 ?bn0] =>
          rewrite (apply_reader_image _ (VString text) (StringReader z)
                     (zeros off ++ images values fs) [] (off + size (def w0)) n m1 m2 bn0
                     Hgs Hgc Hgr eq_refl)
      end.
      - unfold decode_value. simpl. fold z. unfold z. rewrite pad_exact. reflexivity.
      - rewrite len_app, len_zeros, (len_images _ _ Hready) by lia. lia. }
    rewrite Ed. reflexivity. }
  exists b, w1. split; [|split; [exact Hlb|split]].
  - (* pack *)
    assert (Eres : resolveForPack values
                     (World (BigNumber w0)
                        (Def (name (def w0)) (fs ++ [text_field tn s (size (def w0))])
                             false (size (def w0) + 0) (littleEndian (def w0))
                             (noAssert (def w0)) (def_int64mode (def w0))
                             (assoc_set tn true (accessors (def w0)))))
                   = (Ok tt, w1)).
    { unfold resolveForPack, bind, get. cbn [def staticSized fields].
      rewrite (find_deferred_last fs (text_field tn s (size (def w0))) s Hfixed eq_refl).
      rewrite (find_field_app _ _ _ _ EL), HvL.
      unfold text_field. change (0 + length fs)%nat with (length fs).
      rewrite resolve_text_last by exact Hres. reflexivity. }
    unfold pack. rewrite Eres. fold off.
    unfold w1 at 1 2. cbn [def size BigNumber fields noAssert].
    unfold Buffer.alloc.
    destruct (Z.ltb_spec (size (def w0) + 0 + (z - 0) + off) 0); [lia|].
    change (repeat x00 (Z.to_nat (size (def w0) + 0 + (z - 0) + off)))
      with (zeros (size (def w0) + 0 + (z - 0) + off)).
    replace (size (def w0) + 0 + (z - 0) + off) with (off + (sum_sizes fs + z)) by lia.
    rewrite zeros_add, zeros_add by lia.
    rewrite forEach_app.
    rewrite (forEach_writeField_images values _ off _ fs (zeros off) (zeros z) 0 Hl Hready)
      by (rewrite len_zeros by lia; lia).
    simpl forEach. unfold bind, ret.
    unfold writeField. change (f_write t') with (Some (StringWriter z)). rewrite Hvt.
    change (f_offset t') with (size (def w0)).
    rewrite (app_assoc (zeros off)).
    rewrite <- (app_nil_r (zeros z)) at 1.
    match goal with
    | |- context [apply_writer (StringWriter z) ?bn0 _ _ ?na0 _] =>
        rewrite (apply_writer_span _ (or0 (VString text)) (StringWriter z) bn0 na0
                   (zeros off ++ images values fs) (zeros z) [] (off + size (def w0))
                   Hgs Hgc (representable_writable_or0 _ _ Hgr) eq_refl)
    end.
    + rewrite Hgo, app_nil_r, <- app_assoc. reflexivity.
    + rewrite len_app, len_zeros, (len_images _ _ Hready) by lia. lia.
    + rewrite len_zeros by lia. reflexivity.
  - (* unpack with the schema that pack resolved *)
    unfold w1 at 1, t', resolved_text_field. rewrite Hunpack.
    fold t'. unfold w1. rewrite Z.sub_diag, Z.add_0_r. reflexivity.
  - (* unpack with the schema as declared *)
    unfold text_field. rewrite Hunpack. reflexivity.
Qed.

Lemma text_with_length_round_trip_witness :
  exists (w0 w w1 : world) (b : Buffer.t),
    build false no_options (len_name_decls None) = Ok w /\
    pack (Some (<["name"%string := VString "hello"]> {["len"%string := VNumber (Fin 5)]}))
      None None None w = (Ok b, (w1, Some b)) /\
    Buffer.len b = 0 + size (def w0) + 5 /\
    unpack b None None w
    = (Ok (<["name"%string := VString "hello"]>
             (padded (fields (def w0)) {["len"%string := VNumber (Fin 5)]})), w1).
Proof.
  assert (Hb0 : exists w0, build false no_options
                             [DNumber B16 false None [AValue (VString "len")]] = Ok w0)
    by (eexists; vm_compute; reflexivity).
  destruct Hb0 as [w0 Hb0].
  assert (Hb : exists w, build false no_options
                 ([DNumber B16 false None [AValue (VString "len")]]
                    ++ [DString (Named "name") (AValue (VString "len"))]) = Ok w)
    by (eexists; vm_compute; reflexivity).
  destruct Hb as [w Hb].
  assert (Hfacts : Forall supported (fields (def w0)) /\
                   assignment (fields (def w0)) {["len"%string := VNumber (Fin 5)]}).
  { vm_compute in Hb0. injection Hb0 as <-. split.
    - repeat (apply List.Forall_cons; [repeat split; simpl; try reflexivity; lia|]).
      apply List.Forall_nil.
    - split.
      + intros f [<-|[]]. simpl. eexists. split; [vm_compute; reflexivity|].
        vm_compute. split; intro; discriminate.
      + intros k [v Hk]. destruct (decide (k = "len"%string)) as [->|Hne].
        * eexists. split; [left; reflexivity|reflexivity].
        * rewrite lookup_singleton_ne in Hk by congruence. discriminate. }
  destruct Hfacts as [Hsup Ha].
  destruct (text_with_length_round_trip false no_options
              [DNumber B16 false None [AValue (VString "len")]] w0 w "name" "len"
              {["len"%string := VNumber (Fin 5)]} "hello" None None Hb0 Hsup Hb)
    as (b & w1 & Hp & Hl & _ & Hu).
  - discriminate.
  - exact Ha.
  - vm_compute. reflexivity.
  - unfold ascii_text. simpl. repeat constructor.
  - lia.
  - exists w0, w, w1, b. split; [exact Hb|]. split; [exact Hp|]. split; [exact Hl|exact Hu].
Defined.

(** ** Defaults through the view *)


Lemma length_default_bytes (f : field) (chunk : list byte) :
  supported f -> (forall d, f_value f = Some d -> default_ok f d) ->
  Buffer.len chunk = f_size f ->
  length (default_bytes f chunk) = length chunk.
Proof.
  intros Hsup Hd Hc. unfold default_bytes.
  destruct (f_value f) as [d|]; [|reflexivity].
  specialize (Hd d eq_refl). unfold default_ok in Hd.
  pose proof (supported_fixed_size f Hsup) as Hfs.
  destruct (f_type f) as [n s le|? ?| |] eqn:Et; [|contradiction| |].
  - destruct d as [| | |[z|? ?| | |]| | |]; try contradiction.
    apply length_overwrite; try assumption. left. unfold representable.
    rewrite Et. exact Hd.
  - destruct d as [| | |[z|? ?| | |]| |b|]; try contradiction.
    unfold Buffer.len in *. lia.
  - destruct d as [| | |[z|? ?| | |]| | |]; contradiction.
Qed.

Lemma set_default_span (f : field) (d : value) (bn : bool) (D : StructDef)
    (pre chunk post : list byte) :
  supported f -> codec_ok f -> default_ok f d -> f_value f = Some d ->
  Buffer.len pre = f_offset f -> Buffer.len chunk = f_size f ->
  wrapper_set bn f d (Wrapper D (pre ++ chunk ++ post))
  = (Ok tt, Wrapper D (pre ++ default_bytes f chunk ++ post)).
Proof.
  intros Hsup Hc Hd Hv Hpre Hchunk.
  unfold wrapper_set, default_bytes. cbn [_buffer _def]. rewrite Hv.
  unfold default_ok in Hd.
  pose proof (supported_fixed_size f Hsup) as Hfs.
  destruct (f_type f) as [n s le|? ?| |] eqn:Et; [|contradiction| |].
  - destruct d as [| | |[z|? ?| | |]| | |]; try contradiction.
    assert (Hw : exists wr, f_write f = Some wr).
    { destruct Hsup as (Hfix & _ & Ht). specialize (Hc Hfix). rewrite Et in Hc, Ht.
      destruct (Hc ltac:(lia)) as [_ ->]. eauto. }
    destruct Hw as [wr Ew]. rewrite Ew.
    rewrite (apply_writer_span f (VNumber (Fin z)) wr bn false pre chunk post (f_offset f));
      try assumption; [reflexivity|].
    left. unfold representable. rewrite Et. exact Hd.
  - destruct d as [| | |[z|? ?| | |]| |b|]; try contradiction.
    pose proof Hsup as (Hfix & Hs & _). specialize (Hc Hfix). rewrite Et in Hc.
    destruct Hc as [_ ->]. cbn [apply_writer]. unfold writeString.
    rewrite Hd, Z.eqb_refl. cbn [negb].
    pose proof (len_nonneg pre). pose proof (len_nonneg post).
    rewrite copy_in_bounds by (rewrite ?len_app; lia).
    unfold Buffer.len in Hd, Hchunk.
    rewrite (splice_mid pre chunk post b (f_offset f) Hpre) by lia.
    replace (length b) with (length chunk) by lia.
    rewrite drop_all, app_nil_l. reflexivity.
  - destruct d as [| | |[z|? ?| | |]| | |]; contradiction.
Qed.

Lemma get_default_span (f : field) (d : value) (bn : bool) (D : StructDef)
    (pre chunk post : list byte) :
  supported f -> codec_ok f -> default_ok f d -> f_value f = Some d ->
  Buffer.len pre = f_offset f -> Buffer.len chunk = f_size f ->
  exists actual,
    wrapper_get (Wrapper D (pre ++ default_bytes f chunk ++ post)) f bn = (Ok actual, bn) /\
    loose_eq actual d = Some true.
Proof.
  intros Hsup Hc Hd Hv Hpre Hchunk.
  unfold wrapper_get, default_bytes. cbn [_buffer]. rewrite Hv.
  unfold default_ok in Hd.
  pose proof (supported_fixed_size f Hsup) as Hfs.
  destruct (f_type f) as [n s le|? ?| |] eqn:Et; [|contradiction| |].
  - destruct d as [| | |[z|? ?| | |]| | |]; try contradiction.
    assert (Hr : exists r, f_read f = Some r).
    { destruct Hsup as (Hfix & _ & Ht). specialize (Hc Hfix). rewrite Et in Hc, Ht.
      destruct (Hc ltac:(lia)) as [-> _]. eauto. }
    destruct Hr as [r Er]. rewrite Er.
    exists (VNumber (Fin z)). split.
    + rewrite (apply_reader_span f (VNumber (Fin z)) r false pre chunk post (f_offset f));
        try assumption.
      * unfold decode_value. rewrite Et. reflexivity.
      * unfold representable. rewrite Et. exact Hd.
    + unfold loose_eq. simpl. rewrite Z.eqb_refl. reflexivity.
  - destruct d as [| | |[z|? ?| | |]| |b|]; try contradiction.
    pose proof Hsup as (Hfix & Hs & _). specialize (Hc Hfix). rewrite Et in Hc.
    destruct Hc as [-> _]. cbn [apply_reader]. unfold lift, readString.
    pose proof (len_nonneg pre). pose proof (len_nonneg post).
    assert (Hbuf : Buffer.len (pre ++ b ++ post) = f_offset f + f_size f + Buffer.len post)
      by (rewrite !len_app; lia).
    destruct (Z.ltb_spec (Buffer.len (pre ++ b ++ post)) (f_offset f + f_size f)); [lia|].
    cbn [negb andb]. unfold Buffer.toString. rewrite Hbuf.
    rewrite Z.max_l, Z.min_l by lia.
    exists (VString (string_of_list_byte b)). split.
    + destruct (Z.leb_spec (f_offset f + f_size f) (f_offset f)).
      * assert (Hb0 : b = []) by (unfold Buffer.len in Hd; destruct b; simpl in *; [reflexivity|lia]).
        subst b. reflexivity.
      * replace (f_offset f + f_size f) with (f_offset f + Z.of_nat (length b))
          by (unfold Buffer.len in Hd; lia).
        rewrite (sub_mid pre b post (f_offset f) _ Hpre) by lia.
        rewrite take_ge by lia. reflexivity.
    + unfold loose_eq. simpl. rewrite String.eqb_refl. reflexivity.
  - destruct d as [| | |[z|? ?| | |]| | |]; contradiction.
Qed.

Lemma length_defaults_all (fs : list field) :
  forall mid : list byte,
    Forall supported fs -> defaults_ok fs -> Buffer.len mid = sum_sizes fs ->
    length (defaults_all fs mid) = length mid.
Proof.
  induction fs as [|f fs IH]; intros mid Hsup Hd Hmid; [reflexivity|].
  inversion Hsup as [|? ? Hf Hsup']; subst.
  pose proof (sum_sizes_nonneg fs (Forall_supported_fixed_size _ Hsup')) as Hsum.
  assert (Hs : 0 <= f_size f) by (destruct Hf as (_ & Hs & _); exact Hs).
  simpl in Hmid. unfold Buffer.len in Hmid.
  simpl defaults_all. rewrite length_app.
  rewrite length_default_bytes;
    [|exact Hf|intros d Hv; apply (Hd f d (or_introl eq_refl) Hv)
     |unfold Buffer.len; rewrite length_take; lia].
  rewrite IH;
    [|exact Hsup'|intros g d Hg; apply (Hd g d (or_intror Hg))
     |unfold Buffer.len; rewrite length_drop; lia].
  rewrite length_take, length_drop. lia.
Qed.

(** [writeValues] on a span that holds arbitrary bytes. *)
Lemma writeValues_span (bn : bool) (D : StructDef) (fs : list field) :
  forall (pre mid post : list byte) (o : Z),
    consecutive o fs -> Forall supported fs -> Forall codec_ok fs -> defaults_ok fs ->
    Buffer.len pre = o -> Buffer.len mid = sum_sizes fs ->
    forEach fs (fun f => match f_value f with
                         | Some v => wrapper_set bn f v
                         | None => ret tt
                         end) (Wrapper D (pre ++ mid ++ post))
    = (Ok tt, Wrapper D (pre ++ defaults_all fs mid ++ post)).
Proof.
  induction fs as [|f fs IH]; intros pre mid post o Hc Hsup Hcodec Hd Hpre Hmid.
  - reflexivity.
  - destruct Hc as [Ho Hc]. inversion Hsup as [|? ? Hf Hsup']; subst.
    inversion Hcodec as [|? ? Hcf Hcodec']; subst.
    pose proof (sum_sizes_nonneg fs (Forall_supported_fixed_size _ Hsup')) as Hsum.
    assert (Hs : 0 <= f_size f) by (destruct Hf as (_ & Hs & _); exact Hs).
    simpl in Hmid. unfold Buffer.len in Hmid.
    set (c := take (Z.to_nat (f_size f)) mid).
    set (rest := drop (Z.to_nat (f_size f)) mid).
    assert (Emid : mid = c ++ rest) by (symmetry; apply take_drop).
    assert (Hlc : Buffer.len c = f_size f)
      by (unfold Buffer.len, c; rewrite length_take; lia).
    assert (Hlr : Buffer.len rest = sum_sizes fs)
      by (unfold Buffer.len, rest; rewrite length_drop; lia).
    assert (Hdf : forall d, f_value f = Some d -> default_ok f d)
      by (intros d Hv; apply (Hd f d (or_introl eq_refl) Hv)).
    simpl defaults_all. fold c rest. rewrite Emid at 1.
    rewrite <- (app_assoc c rest post).
    simpl forEach. unfold bind.
    assert (Hstep : (match f_value f with
                     | Some v => wrapper_set bn f v
                     | None => ret tt
                     end) (Wrapper D (pre ++ c ++ rest ++ post))
                    = (Ok tt, Wrapper D (pre ++ default_bytes f c ++ rest ++ post))).
    { destruct (f_value f) as [d|] eqn:Ev.
      - apply set_default_span; try assumption. apply Hdf. reflexivity.
      - unfold default_bytes. rewrite Ev. reflexivity. }
    rewrite Hstep.
    replace (pre ++ default_bytes f c ++ rest ++ post)
      with ((pre ++ default_bytes f c) ++ rest ++ post)
      by (rewrite <- app_assoc; reflexivity).
    rewrite (IH _ rest post (f_offset f + f_size f) Hc Hsup' Hcodec').
    + rewrite <- !app_assoc. reflexivity.
    + intros g d Hg. apply (Hd g d (or_intror Hg)).
    + rewrite len_app. unfold Buffer.len at 2.
      rewrite length_default_bytes by assumption. unfold Buffer.len in Hlc. lia.
    + exact Hlr.
Qed.

(** [checkValues] on the bytes that [writeValues] left; the view stays the
    same while the fields are visited one by one. *)
Lemma checkValues_span (bn : bool) (D : StructDef) (post : list byte) (fs : list field) :
  forall (B : Buffer.t) (pre mid : list byte) (o : Z),
    consecutive o fs -> Forall supported fs -> Forall codec_ok fs -> defaults_ok fs ->
    Buffer.len pre = o -> Buffer.len mid = sum_sizes fs ->
    B = pre ++ defaults_all fs mid ++ post ->
    forEach fs (fun f =>
      match f_value f with
      | Some v =>
          (actual <- wrapper_get (Wrapper D B) f ;;
           match loose_eq actual v with
           | Some true => ret tt
           | Some false => throw AssertionError
           | None => throw OutsideModel
           end)%js
      | None => ret tt
      end) bn
    = (Ok tt, bn).
Proof.
  induction fs as [|f fs IH]; intros B pre mid o Hc Hsup Hcodec Hd Hpre Hmid HB.
  - reflexivity.
  - destruct Hc as [Ho Hc].
    pose proof (List.Forall_inv Hsup) as Hf.
    pose proof (List.Forall_inv_tail Hsup) as Hsup'.
    pose proof (List.Forall_inv Hcodec) as Hcf.
    pose proof (List.Forall_inv_tail Hcodec) as Hcodec'.
    subst o.
    pose proof (sum_sizes_nonneg fs (Forall_supported_fixed_size _ Hsup')) as Hsum.
    assert (Hs : 0 <= f_size f) by (destruct Hf as (_ & Hs & _); exact Hs).
    simpl in Hmid. unfold Buffer.len in Hmid.
    set (c := take (Z.to_nat (f_size f)) mid).
    set (rest := drop (Z.to_nat (f_size f)) mid).
    assert (Hlc : Buffer.len c = f_size f)
      by (unfold Buffer.len, c; rewrite length_take; lia).
    assert (Hlr : Buffer.len rest = sum_sizes fs)
      by (unfold Buffer.len, rest; rewrite length_drop; lia).
    assert (Hdf : forall d, f_value f = Some d -> default_ok f d)
      by (intros d Hv; apply (Hd f d (or_introl eq_refl) Hv)).
    simpl forEach. unfold bind at 1.
    assert (Hstep : (match f_value f with
                     | Some v =>
                         (actual <- wrapper_get (Wrapper D B) f ;;
                          match loose_eq actual v with
                          | Some true => ret tt
                          | Some false => throw AssertionError
                          | None => throw OutsideModel
                          end)%js
                     | None => ret tt
                     end) bn = (Ok tt, bn)).
    { destruct (f_value f) as [d|] eqn:Ev; [|reflexivity].
      rewrite HB. simpl defaults_all. fold c rest. rewrite <- app_assoc.
      destruct (get_default_span f d bn D pre c (defaults_all fs rest ++ post))
        as (actual & Hget & Heq); try assumption; [apply Hdf; reflexivity|].
      unfold bind. rewrite Hget, Heq. reflexivity. }
    rewrite Hstep.
    apply (IH B (pre ++ default_bytes f c) rest (f_offset f + f_size f) Hc Hsup' Hcodec').
    + intros g d Hg. apply (Hd g d (or_intror Hg)).
    + rewrite len_app. unfold Buffer.len at 2.
      rewrite length_default_bytes by assumption. unfold Buffer.len in Hlc. lia.
    + exact Hlr.
    + rewrite HB. simpl defaults_all. fold c rest. rewrite <- !app_assoc. reflexivity.
Qed.

(** X20: the defaults of a schema go through the view and back.  For a
    declared schema of fixed-size 8-, 16- or 32-bit integer, text and block
    fields whose defaults are numbers in the range of an integer field or,
    for a text field, a byte block of the size of the field (as
    [def.string(name, block)] registers it, and [def.string(name, literal)]
    for an ASCII literal), and a view on a buffer that holds arbitrary data
    and is at least as long as the schema: writeValues succeeds, keeps the
    length of the buffer and the bytes after the schema, and checkValues
    then succeeds. *)
Theorem defaults_written_then_checked (bn0 : bool) (opts : option options)
    (ds : list decl) (w : world) (mid post : list byte) (bn bn' : bool) :
  build bn0 opts ds = Ok w ->
  Forall supported (fields (def w)) ->
  defaults_ok (fields (def w)) ->
  Buffer.len mid = size (def w) ->
  let view' := wrap (def w) (defaults_all (fields (def w)) mid ++ post) in
  writeValues bn (wrap (def w) (mid ++ post)) = (Ok tt, view') /\
  length (defaults_all (fields (def w)) mid) = length mid /\
  checkValues view' bn' = (Ok tt, bn').
Proof.
  intros Hb Hsup Hd Hmid view'.
  destruct (build_schema_ok _ _ _ _ Hb) as [Hl Hsz Hcodec _ _].
  rewrite Hsz in Hmid.
  split; [|split].
  - unfold writeValues, wrap, view'. cbn [_def].
    apply (writeValues_span bn (def w) (fields (def w)) [] mid post 0); try assumption.
    reflexivity.
  - apply length_defaults_all; assumption.
  - unfold checkValues, view', wrap. cbn [_def].
    apply (checkValues_span bn' (def w) post (fields (def w)) _ [] mid 0);
      try assumption; reflexivity.
Qed.

Lemma defaults_written_then_checked_witness :
  exists (w : world) (view' : BufferWrapper),
    build false no_options version_magic_decls = Ok w /\
    writeValues false (wrap (def w) ([x09; x09; x09] ++ [x08])) = (Ok tt, view') /\
    checkValues view' false = (Ok tt, false).
Proof.
  assert (Hb : exists w, build false no_options version_magic_decls = Ok w)
    by (eexists; vm_compute; reflexivity).
  destruct Hb as [w Hb].
  assert (Hfacts : Forall supported (fields (def w)) /\ defaults_ok (fields (def w)) /\
                   size (def w) = 3).
  { vm_compute in Hb. injection Hb as <-. split; [|split; [|reflexivity]].
    - repeat (apply List.Forall_cons; [repeat split; simpl; try reflexivity; lia|]).
      apply List.Forall_nil.
    - intros f d [<-|[<-|[]]] [= <-]; vm_compute; try reflexivity.
      split; intro; discriminate. }
  destruct Hfacts as (Hsup & Hd & Hsz).
  destruct (defaults_written_then_checked false no_options version_magic_decls w
              [x09; x09; x09] [x08] false false Hb Hsup Hd) as (Hw & _ & Hc).
  - rewrite Hsz. reflexivity.
  - eexists w, _. split; [exact Hb|]. split; [exact Hw | exact Hc].
Defined.

(** A literal that is not ASCII is longer in bytes than in characters:
    [def().string('s', lit)], with [lit] the letter e with an acute accent,
    registers a field of size 1 with the two bytes C3 A9 as its default,
    which [writeValues] refuses. *)
Lemma literal_default_longer_than_field :
  exists w : world,
    build false no_options
      [DString (Named "s") (AValue (VString (string_of_list_byte [xc3; xa9])))] = Ok w /\
    map f_size (fields (def w)) = [1] /\
    map f_value (fields (def w)) = [Some (VBuffer [xc3; xa9])] /\
    fst (writeValues false (wrap (def w) [x00])) = Throw SizeMismatchError.
Proof.
  eexists. split; [vm_compute; reflexivity|].
  split; [vm_compute; reflexivity|]. split; vm_compute; reflexivity.
Qed.

(** ** Buffers that are too short *)


(** The reader of a field whose span ends beyond the buffer. *)
Lemma apply_reader_cut (f : field) (r : reader) (buf : Buffer.t) (o : Z)
    (m1 m2 : option int64mode) (bn : bool) :
  supported f -> codec_ok f -> exact_width f -> f_read f = Some r ->
  Buffer.len buf < o + f_size f ->
  apply_reader r buf o false m1 m2 bn = (Throw RangeError, bn) \/
  apply_reader r buf o false m1 m2 bn = (Throw BoundsError, bn).
Proof.
  intros (Hfix & Hs & Ht) Hc Hex Hr Hcut. specialize (Hc Hfix).
  unfold exact_width in Hex.
  destruct (f_type f) as [n s le|? ?| |]; [|contradiction| |].
  - destruct Ht as [Hn Hle]. destruct (Hc ltac:(lia)) as [Er _].
    rewrite Er in Hr. injection Hr as <-. left.
    cbn [apply_reader]. unfold lift, Buffer.read, Buffer.width. cbn [Buffer.p_bytes].
    replace (Buffer.len buf <? o + Z.of_nat n) with true by (symmetry; apply Z.ltb_lt; lia).
    rewrite orb_true_r. reflexivity.
  - destruct Hc as [Er _]. rewrite Er in Hr. injection Hr as <-. right.
    cbn [apply_reader]. unfold lift, readString.
    replace (Buffer.len buf <? o + f_size f) with true by (symmetry; apply Z.ltb_lt; lia).
    reflexivity.
  - destruct Hc as [Er _]. rewrite Er in Hr. injection Hr as <-. right.
    cbn [apply_reader]. unfold lift, readbuffer.
    replace (Buffer.len buf <? o + f_size f) with true by (symmetry; apply Z.ltb_lt; lia).
    reflexivity.
Qed.

Lemma supported_reader (f : field) :
  supported f -> codec_ok f -> exists r, f_read f = Some r.
Proof.
  intros (Hfix & _ & Ht) Hc. specialize (Hc Hfix).
  destruct (f_type f); [destruct Hc as [-> _]; [lia|]|destruct Hc as [-> _]..];
    eexists; reflexivity.
Qed.

Lemma readFields_cut (buf : Buffer.t) (off : Z) (fs : list field) :
  forall (o : Z) (data : record) (i : nat) (w : world),
    consecutive o fs -> Forall supported fs -> Forall codec_ok fs ->
    Forall exact_width fs ->
    0 <= off + o <= Buffer.len buf ->
    Buffer.len buf < off + o + sum_sizes fs ->
    readFields buf off false data i fs w = (Throw RangeError, w) \/
    readFields buf off false data i fs w = (Throw BoundsError, w).
Proof.
  induction fs as [|f fs IH]; intros o data i w Hc Hsup Hcodec Hex Hin Hcut.
  - simpl in Hcut. lia.
  - destruct Hc as [Ho Hc]. subst o.
    pose proof (List.Forall_inv Hsup) as Hf.
    pose proof (List.Forall_inv_tail Hsup) as Hsup'.
    pose proof (List.Forall_inv Hcodec) as Hcf.
    pose proof (List.Forall_inv_tail Hcodec) as Hcodec'.
    pose proof (List.Forall_inv Hex) as Hef.
    pose proof (List.Forall_inv_tail Hex) as Hex'.
    destruct (supported_reader f Hf Hcf) as [r Er].
    pose proof Hf as (Hfix & Hs & _).
    simpl in Hcut. simpl readFields. unfold bind.
    assert (Hread : forall R,
      apply_reader r buf (off + f_offset f) false
        (Some (def_int64mode (def w))) (f_int64mode f) (BigNumber w) = (R, BigNumber w) ->
      readField buf off false data i f w
      = (match R with
         | Ok v => Ok (match f_name f with Named s => <[s := v]> data | Positional _ => data end)
         | Throw e => Throw e
         end, w)).
    { intros R HR. unfold readField, bind, get, onBigNumber, ret.
      rewrite Hfix, Er, HR. destruct w as [b d]. simpl.
      destruct R as [v|e]; [destruct (f_name f)|]; reflexivity. }
    destruct (Z.lt_ge_cases (Buffer.len buf) (off + f_offset f + f_size f)) as [Hshort|Hlong].
    + (* the span of [f] is cut *)
      destruct (apply_reader_cut f r buf (off + f_offset f)
                  (Some (def_int64mode (def w))) (f_int64mode f) (BigNumber w)
                  Hf Hcf Hef Er ltac:(lia)) as [HR|HR];
        rewrite (Hread _ HR); [left|right]; reflexivity.
    + (* the span of [f] lies inside the buffer *)
      set (pre := take (Z.to_nat (off + f_offset f)) buf).
      set (mid := take (Z.to_nat (f_size f)) (drop (Z.to_nat (off + f_offset f)) buf)).
      set (post := drop (Z.to_nat (f_size f)) (drop (Z.to_nat (off + f_offset f)) buf)).
      assert (Ebuf : buf = pre ++ mid ++ post).
      { unfold pre, mid, post. rewrite take_drop, take_drop. reflexivity. }
      assert (Hlen : Z.of_nat (length buf) = Buffer.len buf) by reflexivity.
      assert (Hpre : Buffer.len pre = off + f_offset f).
      { unfold Buffer.len, pre. rewrite length_take. lia. }
      assert (Hmid : Buffer.len mid = f_size f).
      { unfold Buffer.len, mid. rewrite length_take, length_drop. lia. }
      destruct (apply_reader_total f r pre mid post (off + f_offset f) false
                  (Some (def_int64mode (def w))) (f_int64mode f) (BigNumber w)
                  (supported_fixed_size f Hf) Hcf Er Hpre Hmid) as [v Hv].
      rewrite <- Ebuf in Hv. rewrite (Hread _ Hv).
      apply (IH (f_offset f + f_size f)); try assumption; lia.
Qed.

(** X21: with the bounds checks on, unpack never decodes a truncated
    buffer: for a declared schema of fixed-size 8-, 16- or 32-bit integer
    fields as wide as their type, text fields and block fields, an offset
    inside the buffer and a buffer that ends before the offset plus the
    size of the schema, unpack throws a range error or the
    beyond-the-buffer error and leaves the schema as it was. *)
Theorem unpack_truncated_buffer_fails (bn : bool) (opts : option options)
    (ds : list decl) (w : world) (buf : Buffer.t) (offset : option Z)
    (na : option bool) :
  build bn opts ds = Ok w ->
  Forall supported (fields (def w)) ->
  Forall exact_width (fields (def w)) ->
  match na with Some b => b | None => noAssert (def w) end = false ->
  0 <= match offset with Some z => z | None => 0 end <= Buffer.len buf ->
  Buffer.len buf < match offset with Some z => z | None => 0 end + size (def w) ->
  unpack buf offset na w = (Throw RangeError, w) \/
  unpack buf offset na w = (Throw BoundsError, w).
Proof.
  intros Hb Hsup Hex Hna Hoff Hcut.
  destruct (build_schema_ok _ _ _ _ Hb) as [Hl Hsz Hcodec _ _].
  unfold unpack, bind, get. rewrite Hna.
  apply (readFields_cut _ _ _ 0); try assumption; lia.
Qed.

Lemma unpack_truncated_buffer_fails_witness :
  exists w,
    build false no_options mixed_decls = Ok w /\
    (unpack [x02; x01; x68; x69; x00; x01; x02] None None w = (Throw RangeError, w) \/
     unpack [x02; x01; x68; x69; x00; x01; x02] None None w = (Throw BoundsError, w)).
Proof.
  assert (Hb : exists w, build false no_options mixed_decls = Ok w)
    by (eexists; vm_compute; reflexivity).
  destruct Hb as [w Hb].
  destruct (mixed_world_facts w Hb) as (_ & Hsup & _ & Hsz).
  assert (Hfacts : Forall exact_width (fields (def w)) /\ noAssert (def w) = false).
  { vm_compute in Hb. injection Hb as <-. split; [|reflexivity].
    repeat (apply List.Forall_cons; [vm_compute; reflexivity || exact I|]).
    apply List.Forall_nil. }
  destruct Hfacts as [Hex Hna].
  exists w. split; [exact Hb|].
  apply (unpack_truncated_buffer_fails false no_options mixed_decls w _ None None
           Hb Hsup Hex Hna).
  - unfold Buffer.len. simpl. lia.
  - rewrite Hsz. unfold Buffer.len. simpl. lia.
Defined.

(** ** From bytes to a record and back *)


Lemma encode_le_decode_le (bs : list byte) :
  encode_le (length bs) (decode_le bs) = bs.
Proof.
  induction bs as [|b bs IH]; [reflexivity|].
  rewrite decode_le_cons. cbn [length encode_le].
  pose proof (byte_val_range b) as Hb.
  replace (256 * decode_le bs) with (decode_le bs * 256) by lia.
  f_equal.
  - rewrite <- byte_of_mod, Z.mod_add, Z.mod_small by lia. apply byte_of_val.
  - rewrite Z.div_add, Z.div_small by lia. exact IH.
Qed.

Lemma encode_be_decode_be (bs : list byte) :
  encode_be (length bs) (decode_be bs) = bs.
Proof.
  unfold encode_be. rewrite <- (rev_involutive bs) at 2.
  change (decode_be (rev (rev bs))) with (decode_le (rev bs)).
  rewrite <- (length_rev bs), encode_le_decode_le. apply rev_involutive.
Qed.

Lemma encode_le_shift (n : nat) (z k : Z) :
  encode_le n (z + k * 256 ^ Z.of_nat n) = encode_le n z.
Proof.
  rewrite <- encode_le_mod, <- (encode_le_mod n z). f_equal.
  apply Z.mod_add. apply Z.pow_nonzero; lia.
Qed.

(** An integer read from [n] bytes lies in the range of its type and
    encodes to the same bytes. *)
Lemma prim_bytes_back (n : nat) (s le : bool) (chunk : list byte) :
  (0 < n)%nat -> length chunk = n ->
  let u := if le then decode_le chunk else decode_be chunk in
  let z := if s && (2 ^ (8 * Z.of_nat n - 1) <=? u) then u - 2 ^ (8 * Z.of_nat n) else u in
  Buffer.p_min (Buffer.Prim n s le) <= z <= Buffer.p_max (Buffer.Prim n s le) /\
  (if le then encode_le n z else encode_be n z) = chunk.
Proof.
  intros Hn Hl u z.
  assert (Hu : 0 <= u < 2 ^ (8 * Z.of_nat n)).
  { rewrite <- pow256, <- Hl. unfold u.
    destruct le; [apply decode_le_range|apply decode_be_range]. }
  assert (Hp : 2 ^ (8 * Z.of_nat n) = 2 * 2 ^ (8 * Z.of_nat n - 1)).
  { rewrite <- Z.pow_succ_r by lia. f_equal. lia. }
  assert (Hpos : 0 < 2 ^ (8 * Z.of_nat n - 1)) by (apply Z.pow_pos_nonneg; lia).
  assert (Eenc : (if le then encode_le n u else encode_be n u) = chunk).
  { unfold u. rewrite <- Hl.
    destruct le; [apply encode_le_decode_le|apply encode_be_decode_be]. }
  split.
  - unfold Buffer.p_min, Buffer.p_max, Buffer.width. cbn [Buffer.p_signed Buffer.p_bytes].
    subst z. destruct s; cbn [andb].
    + destruct (Z.leb_spec (2 ^ (8 * Z.of_nat n - 1)) u); lia.
    + lia.
  - subst z. destruct (s && (2 ^ (8 * Z.of_nat n - 1) <=? u)); [|exact Eenc].
    replace (u - 2 ^ (8 * Z.of_nat n)) with (u + (-1) * 256 ^ Z.of_nat n)
      by (rewrite pow256; lia).
    unfold encode_be. rewrite encode_le_shift. exact Eenc.
Qed.

(** Writing the decoded value of a span gives the span back. *)
Lemma image_value_of (f : field) (chunk : list byte) :
  supported f -> exact_width f -> Buffer.len chunk = f_size f ->
  match f_type f with
  | TString => Forall (fun b => byte_val b < 128) chunk
  | _ => True
  end ->
  writable f (or0 (value_of f chunk)) /\
  image f (or0 (value_of f chunk)) = chunk.
Proof.
  intros (_ & Hs & Ht) Hex Hlen Hascii.
  unfold exact_width in Hex. unfold value_of, writable, representable, image.
  unfold Buffer.len in Hlen.
  destruct (f_type f) as [n s le|? ?| |]; [|contradiction| |].
  - destruct Ht as [Hn _].
    destruct (prim_bytes_back n s le chunk ltac:(lia) ltac:(lia)) as [Hr He].
    cbv zeta in Hr, He |- *.
    set (z := if s && _ then _ else _) in *.
    assert (E0 : or0 (VNumber (Fin z)) = VNumber (Fin z)).
    { unfold or0. simpl. destruct (Z.eqb_spec z 0) as [->|]; reflexivity. }
    rewrite E0. split; [left; exact Hr|].
    rewrite He, Hex, Z.sub_diag. apply app_nil_r.
  - destruct chunk as [|b chunk].
    + simpl. split; [right; reflexivity|].
      simpl in Hlen. rewrite <- Hlen. reflexivity.
    + assert (Et : or0 (VString (string_of_list_byte (b :: chunk)))
                   = VString (string_of_list_byte (b :: chunk))) by reflexivity.
      rewrite Et. rewrite length_string_of_list_byte, list_byte_of_string_of_list_byte.
      split.
      * left. lia.
      * replace (f_size f - Z.of_nat (length (b :: chunk))) with 0 by lia.
        apply app_nil_r.
  - change (or0 (VBuffer chunk)) with (VBuffer chunk).
    split; [left; unfold Buffer.len; lia | reflexivity].
Qed.

(** The reader of a fixed-size field on the bytes of its span. *)
Lemma apply_reader_value (f : field) (r : reader) (pre chunk post : list byte)
    (o : Z) (na : bool) (m1 m2 : option int64mode) (bn : bool) :
  supported f -> codec_ok f -> exact_width f -> f_read f = Some r ->
  Buffer.len pre = o -> Buffer.len chunk = f_size f ->
  apply_reader r (pre ++ chunk ++ post) o na m1 m2 bn = (Ok (value_of f chunk), bn).
Proof.
  intros (Hfix & Hs & Ht) Hc Hex Hr Hpre Hchunk. specialize (Hc Hfix).
  pose proof (len_nonneg pre) as Hpre0. pose proof (len_nonneg post) as Hpost0.
  assert (Hbuf : Buffer.len (pre ++ chunk ++ post) = o + f_size f + Buffer.len post)
    by (rewrite !len_app; lia).
  unfold exact_width in Hex. unfold value_of. unfold Buffer.len in Hchunk.
  destruct (f_type f) as [n s le|? ?| |]; [|contradiction| |].
  - destruct Ht as [Hn Hle]. destruct (Hc ltac:(lia)) as [Er _].
    rewrite Er in Hr. injection Hr as <-. cbn [apply_reader]. unfold lift.
    rewrite read_in_bounds;
      [|lia|rewrite Hbuf; unfold Buffer.width; cbn [Buffer.p_bytes]; lia].
    unfold Buffer.width. cbn [Buffer.p_bytes Buffer.p_le Buffer.p_signed].
    rewrite (sub_mid pre chunk post o n Hpre) by lia.
    rewrite take_ge by lia. reflexivity.
  - destruct Hc as [Er _]. rewrite Er in Hr. injection Hr as <-.
    cbn [apply_reader]. unfold lift, readString.
    destruct (Z.ltb_spec (Buffer.len (pre ++ chunk ++ post)) (o + f_size f)); [lia|].
    rewrite andb_false_r. unfold Buffer.toString. rewrite Hbuf.
    rewrite Z.max_l, Z.min_l by lia.
    destruct (Z.leb_spec (o + f_size f) o).
    + destruct chunk; [reflexivity|simpl in Hchunk; lia].
    + replace (o + f_size f) with (o + Z.of_nat (length chunk)) by lia.
      rewrite (sub_mid pre chunk post o _ Hpre) by lia.
      rewrite take_ge by lia. reflexivity.
  - destruct Hc as [Er _]. rewrite Er in Hr. injection Hr as <-.
    cbn [apply_reader]. unfold lift, readbuffer.
    destruct (Z.ltb_spec (Buffer.len (pre ++ chunk ++ post)) (o + f_size f)); [lia|].
    rewrite andb_false_r. unfold Buffer.slice. rewrite Hbuf.
    destruct (Z.ltb_spec o 0); [lia|].
    destruct (Z.ltb_spec (o + f_size f) 0); [lia|].
    rewrite !Z.min_l by lia.
    replace (o + f_size f) with (o + Z.of_nat (length chunk)) by lia.
    rewrite (sub_mid pre chunk post o _ Hpre) by lia.
    rewrite take_ge by lia. reflexivity.
Qed.

(** The read pass of [unpack] on arbitrary bytes. *)
Lemma readFields_decoded (off : Z) (na : bool) (fs : list field) :
  forall (pre mid post : list byte) (o : Z) (data : record) (i : nat) (w : world),
    consecutive o fs -> Forall supported fs -> Forall codec_ok fs ->
    Forall exact_width fs ->
    Buffer.len pre = off + o -> Buffer.len mid = sum_sizes fs ->
    readFields (pre ++ mid ++ post) off na data i fs w = (Ok (decoded fs mid data), w).
Proof.
  induction fs as [|f fs IH]; intros pre mid post o data i w Hc Hsup Hcodec Hex Hpre Hmid.
  - reflexivity.
  - destruct Hc as [Ho Hc]. subst o.
    pose proof (List.Forall_inv Hsup) as Hf.
    pose proof (List.Forall_inv_tail Hsup) as Hsup'.
    pose proof (List.Forall_inv Hcodec) as Hcf.
    pose proof (List.Forall_inv_tail Hcodec) as Hcodec'.
    pose proof (List.Forall_inv Hex) as Hef.
    pose proof (List.Forall_inv_tail Hex) as Hex'.
    pose proof (sum_sizes_nonneg fs (Forall_supported_fixed_size _ Hsup')) as Hsum.
    destruct (supported_reader f Hf Hcf) as [r Er].
    pose proof Hf as (Hfix & Hs & _).
    simpl in Hmid. unfold Buffer.len in Hmid.
    set (c := take (Z.to_nat (f_size f)) mid).
    set (rest := drop (Z.to_nat (f_size f)) mid).
    assert (Emid : mid = c ++ rest) by (symmetry; apply take_drop).
    assert (Hlc : Buffer.len c = f_size f)
      by (unfold Buffer.len, c; rewrite length_take; lia).
    assert (Hlr : Buffer.len rest = sum_sizes fs)
      by (unfold Buffer.len, rest; rewrite length_drop; lia).
    simpl decoded. fold c rest. rewrite Emid at 1. rewrite <- (app_assoc c rest post).
    assert (Hstep : readField (pre ++ c ++ rest ++ post) off na data i f w
                    = (Ok (match f_name f with
                           | Named s => <[s := value_of f c]> data
                           | Positional _ => data
                           end), w)).
    { unfold readField, bind, get, onBigNumber, ret. rewrite Hfix, Er.
      rewrite (apply_reader_value f r pre c (rest ++ post) (off + f_offset f));
        try assumption.
      destruct w as [b d]. simpl. destruct (f_name f); reflexivity. }
    simpl readFields. unfold bind. rewrite Hstep.
    replace (pre ++ c ++ rest ++ post) with ((pre ++ c) ++ rest ++ post)
      by (rewrite <- app_assoc; reflexivity).
    apply (IH _ rest post (f_offset f + f_size f)); try assumption.
    rewrite len_app. lia.
Qed.

Lemma decoded_other (fs : list field) (k : string) :
  ~ In k (map field_key fs) ->
  forall mid data, decoded fs mid data !! k = data !! k.
Proof.
  induction fs as [|f fs IH]; intros Hk mid data; [reflexivity|].
  simpl in Hk. simpl decoded. rewrite IH by tauto.
  unfold field_key in Hk. destruct (f_name f) as [s|n]; [|reflexivity].
  simpl in Hk. apply lookup_insert_ne. tauto.
Qed.

Lemma decoded_holds (fs : list field) :
  NoDup (map field_key fs) -> Forall named fs ->
  forall mid data, holds_chunks (decoded fs mid data) fs mid.
Proof.
  induction fs as [|f fs IH]; intros Hnd Hnamed mid data; [exact I|].
  apply NoDup_cons in Hnd. destruct Hnd as [Hnotin Hnd].
  pose proof (List.Forall_inv Hnamed) as [s Hs].
  pose proof (List.Forall_inv_tail Hnamed) as Hnamed'.
  simpl. split; [|apply IH; assumption].
  unfold field_value. rewrite Hs. simpl key.
  rewrite decoded_other.
  - rewrite lookup_insert_eq. reflexivity.
  - intros Hin. apply Hnotin. apply list_elem_of_In.
    unfold field_key at 1. rewrite Hs. exact Hin.
Qed.

Lemma holds_chunks_images (R : record) (fs : list field) :
  forall mid : list byte,
    Forall supported fs -> Forall codec_ok fs -> Forall exact_width fs ->
    Buffer.len mid = sum_sizes fs -> ascii_spans fs mid -> holds_chunks R fs mid ->
    Forall (field_ready R) fs /\ images R fs = mid.
Proof.
  induction fs as [|f fs IH]; intros mid Hsup Hcodec Hex Hmid Hascii Hh.
  - split; [constructor|]. unfold Buffer.len in Hmid. simpl in Hmid.
    destruct mid; [reflexivity|simpl in Hmid; lia].
  - pose proof (List.Forall_inv Hsup) as Hf.
    pose proof (List.Forall_inv_tail Hsup) as Hsup'.
    pose proof (List.Forall_inv Hcodec) as Hcf.
    pose proof (List.Forall_inv_tail Hcodec) as Hcodec'.
    pose proof (List.Forall_inv Hex) as Hef.
    pose proof (List.Forall_inv_tail Hex) as Hex'.
    pose proof (sum_sizes_nonneg fs (Forall_supported_fixed_size _ Hsup')) as Hsum.
    pose proof Hf as (_ & Hs & _).
    simpl in Hmid, Hascii, Hh. unfold Buffer.len in Hmid.
    destruct Hascii as [Ha Hascii]. destruct Hh as [Hv Hh].
    set (c := take (Z.to_nat (f_size f)) mid) in *.
    set (rest := drop (Z.to_nat (f_size f)) mid) in *.
    assert (Hlc : Buffer.len c = f_size f)
      by (unfold Buffer.len, c; rewrite length_take; lia).
    assert (Hlr : Buffer.len rest = sum_sizes fs)
      by (unfold Buffer.len, rest; rewrite length_drop; lia).
    destruct (image_value_of f c Hf Hef Hlc Ha) as [Hw Hi].
    destruct (IH rest Hsup' Hcodec' Hex' Hlr Hascii Hh) as [Hready Himg].
    split.
    + constructor; [|exact Hready].
      split; [exact (supported_fixed_size f Hf)|]. split; [exact Hcf|].
      rewrite Hv. exact Hw.
    + unfold images. simpl flat_map. fold (images R fs).
      rewrite Hv, Hi, Himg. apply take_drop.
Qed.

(** X22: from bytes to a record and back.  For a declared static schema
    whose fields are all named, fixed-size text and block fields and 8-,
    16- or 32-bit integer fields as wide as their type, and any bytes of
    the size of the schema whose text spans are ASCII, placed anywhere in a
    buffer: unpack at their offset succeeds, and pack of the record it
    returns reproduces those bytes. *)
Theorem unpacked_record_packs_back (bn : bool) (opts : option options)
    (ds : list decl) (w : world) (offset : option Z) (na na' : option bool)
    (pre mid post : list byte) :
  build bn opts ds = Ok w ->
  staticSized (def w) = true ->
  Forall supported (fields (def w)) ->
  Forall exact_width (fields (def w)) ->
  Forall named (fields (def w)) ->
  Buffer.len pre = match offset with Some z => z | None => 0 end ->
  Buffer.len mid = size (def w) ->
  ascii_spans (fields (def w)) mid ->
  let r := decoded (fields (def w)) mid ∅ in
  unpack (pre ++ mid ++ post) offset na w = (Ok r, w) /\
  pack (Some r) None None na' w = (Ok mid, (w, Some mid)).
Proof.
  intros Hb Hst Hsup Hex Hnamed Hpre Hmid Hascii r.
  destruct (build_schema_ok _ _ _ _ Hb) as [Hl Hsz Hcodec _ Hnd].
  rewrite (fixed_keys_all _ (Forall_supported_fixed_size _ Hsup)) in Hnd.
  rewrite Hsz in Hmid.
  split.
  - unfold unpack, bind, get.
    apply (readFields_decoded _ _ _ pre mid post 0); try assumption. lia.
  - pose proof (decoded_holds _ Hnd Hnamed mid ∅) as Hh. fold r in Hh.
    destruct (holds_chunks_images r _ mid Hsup Hcodec Hex Hmid Hascii Hh) as [Hready Himg].
    rewrite (pack_static_images r None na' w Hst Hl Hsz Hready) by lia.
    rewrite Himg. reflexivity.
Qed.

Lemma unpacked_record_packs_back_witness :
  exists (w : world) (r : record),
    build false no_options named_decls = Ok w /\
    unpack ([x09] ++ [x02; x01; x68; x69; x21; xff; x00] ++ [x08]) (Some 1) None w
    = (Ok r, w) /\
    pack (Some r) None None None w
    = (Ok [x02; x01; x68; x69; x21; xff; x00], (w, Some [x02; x01; x68; x69; x21; xff; x00])).
Proof.
  assert (Hb : exists w, build false no_options named_decls = Ok w)
    by (eexists; vm_compute; reflexivity).
  destruct Hb as [w Hb].
  assert (Hfacts : staticSized (def w) = true /\
                   Forall supported (fields (def w)) /\
                   Forall exact_width (fields (def w)) /\
                   Forall named (fields (def w)) /\
                   size (def w) = 7 /\
                   ascii_spans (fields (def w)) [x02; x01; x68; x69; x21; xff; x00]).
  { vm_compute in Hb. injection Hb as <-.
    split; [reflexivity|]. split; [|split; [|split; [|split; [reflexivity|]]]].
    - repeat (apply List.Forall_cons; [repeat split; simpl; try reflexivity; lia|]).
      apply List.Forall_nil.
    - repeat (apply List.Forall_cons; [vm_compute; reflexivity || exact I|]).
      apply List.Forall_nil.
    - repeat (apply List.Forall_cons; [eexists; reflexivity|]).
      apply List.Forall_nil.
    - simpl. repeat split. repeat (constructor; [vm_compute; reflexivity|]). constructor. }
  destruct Hfacts as (Hst & Hsup & Hex & Hnamed & Hsz & Hascii).
  destruct (unpacked_record_packs_back false no_options named_decls w (Some 1) None None
              [x09] [x02; x01; x68; x69; x21; xff; x00] [x08]
              Hb Hst Hsup Hex Hnamed) as [Hu Hp].
  - reflexivity.
  - rewrite Hsz. reflexivity.
  - exact Hascii.
  - eexists w, _. split; [exact Hb|]. split; [exact Hu | exact Hp].
Defined.
